(** * The skycoin wallet service (package wallet, service.go)

    A shallow embedding of [Service] and its methods.  Go's [*Wallet] values
    are pointers into a heap of wallet objects, so that cloning, in-place
    mutation and aliasing between the store and a caller are visible; the
    wallet directory is a finite map of files.  Every method of the service
    holds the service's lock for its whole duration, so a method is one
    atomic step: a function from the state before to an outcome and the
    state after. *)

From Stdlib Require Import Strings.Byte.
From stdpp Require Import gmap strings list fin_maps.

Local Open Scope string_scope.

(** ** Outcomes of a Go call *)

(** The sentinel errors of the package, by their Go names, and the
    [fmt.Errorf] values built by [NewService] (their message text is left
    out).  In the vocabulary of the specification: [ErrWalletAPIDisabled] and
    [ErrSeedAPIDisabled] are the FeatureDisabled variants, [ErrWalletNotExist]
    is NotFound, [ErrWalletEncrypted] and [ErrWalletNotEncrypted] are
    AlreadyInState (and, for a password given to a plaintext wallet, the
    password-not-expected Validation error), [ErrMissingPassword] is the
    missing-password Validation error, [ErrSeedUsed] is SeedConflict,
    [ErrWalletRecoverSeedWrong] is RecoveryMismatch, [ErrPersistence] is
    Persistence, [ErrDuplicateWallet] and [ErrEmptyWallet] are the two
    StartupIntegrity failures. *)
Inductive Error : Type :=
  | ErrWalletAPIDisabled
  | ErrSeedAPIDisabled
  | ErrWalletNotExist
  | ErrWalletEncrypted
  | ErrWalletNotEncrypted
  | ErrMissingPassword
  | ErrSeedUsed
  | ErrWalletNameConflict
  | ErrWalletRecoverSeedWrong
  | ErrWalletNotDeterministic
  | ErrMkdirFailed
  | ErrRemoveBackupFailed
  | ErrLoadWalletsFailed
  | ErrDuplicateWallet
  | ErrEmptyWallet
  | ErrPersistence
  | ErrOther (msg : string).

(** A Go call returns a value, returns an error, or does not return: it
    panics (an index out of range, a nil dereference) or loops for ever. *)
Inductive Cause : Type :=
  | PanicIndex
  | PanicNil
  | Diverges.

Inductive Outcome (A : Type) : Type :=
  | Ok (a : A)
  | Err (e : Error)
  | Abort (c : Cause).

Arguments Ok {A} a.
Arguments Err {A} e.
Arguments Abort {A} c.

#[global] Instance Error_eq_dec : EqDecision Error.
Proof. solve_decision. Defined.

(** Stateful code: a state transformer that also yields the outcome. *)
Definition M (S A : Type) : Type := S → Outcome A * S.

Definition ret {S A : Type} (a : A) : M S A := λ s, (Ok a, s).

Definition fail {S A : Type} (e : Error) : M S A := λ s, (Err e, s).

Definition abort {S A : Type} (c : Cause) : M S A := λ s, (Abort c, s).

(** [if err != nil { return ..., err }] after every call. *)
Definition bind {S A B : Type} (m : M S A) (k : A → M S B) : M S B :=
  λ s, match m s with
       | (Ok a, s') => k a s'
       | (Err e, s') => (Err e, s')
       | (Abort c, s') => (Abort c, s')
       end.

(** A call whose error the caller inspects instead of returning it at once. *)
Definition attempt {S A : Type} (m : M S A) : M S (Error + A) :=
  λ s, match m s with
       | (Ok a, s') => (Ok (inr a), s')
       | (Err e, s') => (Ok (inl e), s')
       | (Abort c, s') => (Abort c, s')
       end.

Definition gets {S A : Type} (f : S → A) : M S A := λ s, (Ok (f s), s).

Definition modify {S : Type} (f : S → S) : M S unit := λ s, (Ok tt, f s).

(** A call whose error the caller wraps in a message of its own. *)
Definition wrapErr {S A : Type} (e : Error) (m : M S A) : M S A :=
  λ s, match m s with
       | (Err _, s') => (Err e, s')
       | r => r
       end.

Definition liftOutcome {S A : Type} (o : Outcome A) : M S A := λ s, (o, s).

Notation "'let!' x ':=' m 'in' k" := (bind m (λ x, k))
  (at level 10, x name, m at level 100, k at level 200,
   format "'[v' 'let!'  x  ':='  m  'in'  '/' k ']'").
Notation "'do!' m 'in' k" := (bind m (λ _, k))
  (at level 10, m at level 100, k at level 200,
   format "'[v' 'do!'  m  'in'  '/' k ']'").

(** A loop body run over a slice or over the pairs of a map. *)
Fixpoint forM {S A B : Type} (f : A → M S B) (l : list A) : M S (list B) :=
  match l with
  | [] => ret []
  | a :: l' => let! b := f a in let! bs := forM f l' in ret (b :: bs)
  end.

(** ** Collaborators outside the package *)

Definition bytes : Type := list Byte.byte.

#[global] Instance byte_eq_decision : EqDecision Byte.byte := Byte.byte_eq_dec.

(** Package cipher and the encryption primitives: their types and pure
    functions.  [deriveKeyPair seed i] is the key pair of index [i] of a seed
    (it may reject a seed); [addressConstructor coin] is the address format of
    a coin; [encryptSecrets] and [decryptSecrets] are the two schemes, chosen
    by the crypto type, over the seed and the entries' private keys. *)
Class Cipher : Type := {
  Address : Type;
  Address_eq_dec :: EqDecision Address;
  PubKey : Type;
  SecKey : Type;
  Blob : Type;
  Address_String : Address → string;
  deriveKeyPair : string → nat → Outcome (PubKey * SecKey);
  addressConstructor : string → PubKey → Address;
  encryptSecrets : string → bytes → string * list (option SecKey) → Outcome Blob;
  decryptSecrets : string → bytes → Blob → Outcome (string * list (option SecKey));
}.

(** A [*Wallet]: the index of a wallet object in the heap.  Objects are never
    freed, and a new one is placed at the end. *)
Abbreviation ptr := nat (only parsing).

Section Model.

Context {cipher : Cipher}.

(** [cipher.GenerateDeterministicKeyPair]: the key pair of index 0. *)
Definition GenerateDeterministicKeyPair (seed : string) : Outcome (PubKey * SecKey) :=
  deriveKeyPair seed 0.

(** ** The wallet entity *)

Record Entry : Type := mkEntry {
  EntryAddress : Address;
  Public : PubKey;
  Secret : option SecKey;
}.

(** Modelled from the spec: the Wallet struct is not under src/.  Section 3:
    id, label, coin type, wallet type, crypto scheme, encrypted flag, ordered
    entries, seed (present only while decrypted), timestamp; when encrypted,
    the seed and the private keys live in one opaque blob. *)
Record Wallet : Type := mkWallet {
  Filename : string;
  Label : string;
  coin : string;
  wltType : string;
  wltCryptoType : string;
  IsEncrypted : bool;
  wltSeed : string;
  timestamp : Z;
  secrets : option Blob;
  Entries : list Entry;
}.

Definition WalletTypeDeterministic : string := "deterministic".

Definition setFilename (w : Wallet) (n : string) : Wallet :=
  mkWallet n (Label w) (coin w) (wltType w) (wltCryptoType w) (IsEncrypted w)
           (wltSeed w) (timestamp w) (secrets w) (Entries w).

Definition setLabel (w : Wallet) (l : string) : Wallet :=
  mkWallet (Filename w) l (coin w) (wltType w) (wltCryptoType w) (IsEncrypted w)
           (wltSeed w) (timestamp w) (secrets w) (Entries w).

Definition setTimestamp (w : Wallet) (t : Z) : Wallet :=
  mkWallet (Filename w) (Label w) (coin w) (wltType w) (wltCryptoType w)
           (IsEncrypted w) (wltSeed w) t (secrets w) (Entries w).

(** The plaintext secrets of a wallet, and a wallet without them. *)
Definition walletSecrets (w : Wallet) : string * list (option SecKey) :=
  (wltSeed w, Secret <$> Entries w).

Definition eraseEntry (e : Entry) : Entry :=
  mkEntry (EntryAddress e) (Public e) None.

Definition erase (w : Wallet) : Wallet :=
  mkWallet (Filename w) (Label w) (coin w) (wltType w) (wltCryptoType w)
           (IsEncrypted w) "" (timestamp w) (secrets w) (eraseEntry <$> Entries w).

Definition restoreEntry (e : Entry) (k : option SecKey) : Entry :=
  mkEntry (EntryAddress e) (Public e) k.

(** Modelled from the spec: Lock is not under src/.  Section 4.2: Plain to
    Encrypted; the seed and every entry's private key are encrypted under the
    password with the scheme into one blob and the plaintext fields are
    discarded; AlreadyInState when the wallet is already encrypted. *)
Definition lockWallet (w : Wallet) (password : bytes) (ct : string) : Outcome Wallet :=
  if IsEncrypted w then Err ErrWalletEncrypted
  else match encryptSecrets ct password (walletSecrets w) with
       | Ok b =>
           Ok (mkWallet (Filename w) (Label w) (coin w) (wltType w) ct true ""
                        (timestamp w) (Some b) (eraseEntry <$> Entries w))
       | Err e => Err e
       | Abort c => Abort c
       end.

(** Modelled from the spec: Unlock is not under src/.  Section 4.2: Encrypted
    to Plain, as a new plaintext wallet; the error of the scheme
    (AuthenticationFailure) on a wrong password. *)
Definition unlockWallet (w : Wallet) (password : bytes) : Outcome Wallet :=
  if negb (IsEncrypted w) then Err ErrWalletNotEncrypted
  else match secrets w with
       | None => Err ErrWalletNotEncrypted
       | Some b =>
           match decryptSecrets (wltCryptoType w) password b with
           | Ok (sd, keys) =>
               Ok (mkWallet (Filename w) (Label w) (coin w) (wltType w)
                            (wltCryptoType w) false sd (timestamp w) None
                            (imap (λ i e, restoreEntry e (mjoin (keys !! i))) (Entries w)))
           | Err e => Err e
           | Abort c => Abort c
           end
       end.

(** [Options], with the fields [RecoverWallet] and [loadWallet] name. *)
Record Options : Type := mkOptions {
  optCoin : string;
  optLabel : string;
  optSeed : string;
  optEncrypt : bool;
  optPassword : bytes;
  optCryptoType : string;
  optGenerateN : nat;
  optScanN : nat;
}.

Definition setCryptoType (o : Options) (ct : string) : Options :=
  mkOptions (optCoin o) (optLabel o) (optSeed o) (optEncrypt o) (optPassword o)
            ct (optGenerateN o) (optScanN o).

(** The entry of index [i] of a seed under a coin's address format
    (section 4.3). *)
Definition deriveEntry (c seed : string) (i : nat) : Outcome Entry :=
  match deriveKeyPair seed i with
  | Ok (pk, sk) => Ok (mkEntry (addressConstructor c pk) pk (Some sk))
  | Err e => Err e
  | Abort c => Abort c
  end.

Fixpoint deriveEntries (c seed : string) (start n : nat) : Outcome (list Entry) :=
  match n with
  | O => Ok []
  | S n' =>
      match deriveEntry c seed start with
      | Ok e =>
          match deriveEntries c seed (S start) n' with
          | Ok es => Ok (e :: es)
          | Err e' => Err e'
          | Abort c => Abort c
          end
      | Err e' => Err e'
      | Abort c => Abort c
      end
  end.

(** Modelled from the spec: NewWallet is not under src/.  Sections 3 and 4.3:
    a deterministic wallet named [wltName] whose entry [i] is derived from
    [(seed, i)], with at least one entry, created at the clock reading [now],
    plaintext unless the options ask for encryption, in which case it is
    locked with the options' password and scheme. *)
Definition newWallet (now : Z) (wltName : string) (o : Options) : Outcome Wallet :=
  match deriveEntries (optCoin o) (optSeed o) 0 (Nat.max 1 (optGenerateN o)) with
  | Ok es =>
      let w := mkWallet wltName (optLabel o) (optCoin o) WalletTypeDeterministic
                        (optCryptoType o) false (optSeed o) now None es in
      if optEncrypt o then lockWallet w (optPassword o) (optCryptoType o) else Ok w
  | Err e => Err e
  | Abort c => Abort c
  end.

(** ** The heap of wallet objects and the wallet directory *)


Inductive File : Type :=
  | WalletFile (w : Wallet)
  | OtherFile (content : string).

(** The directories of the storage medium, each a map from file name to
    content, and the failures of the I/O calls to come, one flag per call
    ([true]: that call fails; no flag left: it works). *)
Record Disk : Type := mkDisk {
  dirs : gmap string (gmap string File);
  faults : list bool;
}.

Record World : Type := mkWorld {
  heap : list Wallet;
  disk : Disk;
}.

Definition alloc (w : Wallet) : M World ptr :=
  λ s, (Ok (length (heap s)), mkWorld (heap s ++ [w]) (disk s)).

Definition load (p : ptr) : M World Wallet :=
  λ s, match heap s !! p with
       | Some w => (Ok w, s)
       | None => (Abort PanicNil, s)
       end.

Definition store (p : ptr) (w : Wallet) : M World unit :=
  λ s, (Ok tt, mkWorld (<[p:=w]> (heap s)) (disk s)).

(** Modelled from the spec: clone is not under src/.  Section 9: an explicit
    deep copy of the wallet entity. *)
Definition clone (p : ptr) : M World ptr :=
  let! w := load p in alloc w.

(** [w.Entries[0]], which panics on an empty slice. *)
Definition firstEntry (p : ptr) : M World Entry :=
  let! w := load p in
  match Entries w with
  | e :: _ => ret e
  | [] => abort PanicIndex
  end.

(** Lock changes the wallet it is called on; Unlock returns a new one. *)
Definition Lock (p : ptr) (password : bytes) (ct : string) : M World unit :=
  let! w := load p in
  let! w' := liftOutcome (lockWallet w password ct) in
  store p w'.

Definition Unlock (p : ptr) (password : bytes) : M World ptr :=
  let! w := load p in
  let! w' := liftOutcome (unlockWallet w password) in
  alloc w'.

(** The plaintext working copy is discarded by wiping its secrets. *)
Definition discard (p : ptr) : M World unit :=
  let! w := load p in store p (erase w).

(** Modelled from the spec: GuardView is not under src/.  Section 4.2:
    Encrypted to Plain, the callback on the plaintext wallet, discard; the
    source wallet is neither changed nor saved. *)
Definition GuardView {A : Type} (p : ptr) (password : bytes)
    (f : ptr → M World A) : M World A :=
  let! q := Unlock p password in
  let! r := attempt (f q) in
  do! discard q in
  match r with
  | inl e => fail e
  | inr a => ret a
  end.

(** Modelled from the spec: GuardUpdate is not under src/.  Section 4.2:
    Encrypted to Plain, the callback, Encrypted again with the same password;
    the caller's wallet is replaced only when all of it succeeded. *)
Definition GuardUpdate {A : Type} (p : ptr) (password : bytes)
    (f : ptr → M World A) : M World A :=
  let! w := load p in
  let! q := Unlock p password in
  let! r := attempt (f q) in
  match r with
  | inl e => do! discard q in fail e
  | inr a =>
      let! l := attempt (Lock q password (wltCryptoType w)) in
      match l with
      | inl e => do! discard q in fail e
      | inr _ =>
          let! w' := load q in
          do! store p w' in
          ret a
      end
  end.

(** ** The persistence layer *)

(** The outcome of the next I/O call. *)
Definition ioFault : M World bool :=
  λ s, match faults (disk s) with
       | [] => (Ok false, s)
       | b :: fs => (Ok b, mkWorld (heap s) (mkDisk (dirs (disk s)) fs))
       end.

Definition readDir (dir : string) : M World (gmap string File) :=
  λ s, match dirs (disk s) !! dir with
       | Some fs => (Ok fs, s)
       | None => (Err ErrPersistence, s)
       end.

Definition writeDir (dir : string) (fs : gmap string File) : M World unit :=
  λ s, (Ok tt, mkWorld (heap s) (mkDisk (<[dir:=fs]> (dirs (disk s))) (faults (disk s)))).

(** [os.MkdirAll]: the directory exists afterwards, or the call fails. *)
Definition MkdirAll (dir : string) : M World unit :=
  let! bad := ioFault in
  if bad : bool then fail ErrPersistence
  else λ s, match dirs (disk s) !! dir with
            | Some _ => (Ok tt, s)
            | None => writeDir dir ∅ s
            end.

(** Modelled from the spec: Save is not under src/.  Section 4.5: one file per
    wallet in the directory, written to a temporary location and moved over
    the target in one step, so that a failed save leaves the files as they
    were. *)
Definition Save (p : ptr) (dir : string) : M World unit :=
  let! w := load p in
  let! bad := ioFault in
  if bad : bool then fail ErrPersistence
  else
    let! fs := readDir dir in
    writeDir dir (<[Filename w := WalletFile w]> fs).

Definition isBackup (name : string) : bool :=
  String.prefix (String.rev ".wlt.bak") (String.rev name).

(** Modelled from the spec: removeBackupFiles is not under src/.  Section 4.5:
    stray backup files are deleted before the load. *)
Definition removeBackupFiles (dir : string) : M World unit :=
  let! bad := ioFault in
  if bad : bool then fail ErrPersistence
  else
    let! fs := readDir dir in
    writeDir dir (filter (λ nf, isBackup nf.1 = false) fs).

Definition loadFile (nf : string * File) : M World (string * ptr) :=
  match nf.2 with
  | WalletFile w => let! p := alloc (setFilename w nf.1) in ret (nf.1, p)
  | OtherFile _ => fail ErrPersistence
  end.

(** Modelled from the spec: LoadWallets is not under src/.  Section 4.5: every
    file of the directory is parsed, and one that is no wallet fails the
    load; the store is keyed by wallet id, the name of the wallet's file. *)
Definition LoadWallets (dir : string) : M World (gmap string ptr) :=
  let! bad := ioFault in
  if bad : bool then fail ErrPersistence
  else
    let! fs := readDir dir in
    let! l := forM loadFile (map_to_list fs) in
    ret (list_to_map l).

(** ** The rest of package wallet *)

(** The functions of package wallet that the service calls and that are
    neither under src/ nor described by the specification closely enough to
    be written out: they are parameters, total and otherwise arbitrary.
    [NewWalletScanAhead now name options bg] is the wallet a scan-ahead
    creation builds at the clock reading [now]; [Validate] checks the
    parameters of a transaction; [Wallet_CreateTransaction] is the transaction
    builder; [GenerateSkycoinAddresses] gives the wallet extended by [num]
    addresses and those addresses. *)
Class WalletPkg : Type := {
  BalancePair : Type;
  Transaction : Type;
  UxBalance : Type;
  AddressUxOuts : Type;
  CreateTransactionParams : Type;
  paramsWalletID : CreateTransactionParams → string;
  paramsWalletPassword : CreateTransactionParams → bytes;
  Validate : CreateTransactionParams → Outcome unit;
  NewWalletScanAhead :
    Z → string → Options → (list Address → Outcome (list BalancePair)) → Outcome Wallet;
  Wallet_CreateTransaction :
    Wallet → CreateTransactionParams → AddressUxOuts → N → Outcome (Transaction * list UxBalance);
  GenerateSkycoinAddresses : Wallet → nat → Outcome (Wallet * list Address);
  Wallet_GetSkycoinAddresses : Wallet → Outcome (list Address);
}.

Context {pkg : WalletPkg}.

(** The interface [BalanceGetter], by its one method [GetBalanceOfAddrs]. *)
Definition BalanceGetter : Type := list Address → Outcome (list BalancePair).

(** A callback (a func from a wallet pointer to an error) of a caller: what it makes of
    the wallet it is handed, and its result. *)
Definition Callback : Type := Wallet → Wallet * Outcome unit.

Definition runCallback (f : Callback) (p : ptr) : M World unit :=
  let! w := load p in
  do! store p (f w).1 in
  liftOutcome (f w).2.

(** ** The service *)

Record Service : Type := mkService {
  wallets : gmap string ptr;
  firstAddrIDMap : gmap string string;
  walletDirectory : string;
  cryptoType : string;
  enableWalletAPI : bool;
  enableSeedAPI : bool;
}.

Record Config : Type := mkConfig {
  WalletDir : string;
  CryptoType : string;
  EnableWalletAPI : bool;
  EnableSeedAPI : bool;
}.

Record State : Type := mkState {
  serv : Service;
  world : World;
}.

(** A call into the wallet entity or the persistence layer: it cannot reach
    the fields of the service. *)
Definition liftW {A : Type} (m : M World A) : M State A :=
  λ σ, let (r, w) := m (world σ) in (r, mkState (serv σ) w).

Definition withWallets (f : gmap string ptr → gmap string ptr) (σ : State) : State :=
  mkState (mkService (f (wallets (serv σ))) (firstAddrIDMap (serv σ))
                     (walletDirectory (serv σ)) (cryptoType (serv σ))
                     (enableWalletAPI (serv σ)) (enableSeedAPI (serv σ)))
          (world σ).

Definition withFirstAddrIDMap (f : gmap string string → gmap string string)
    (σ : State) : State :=
  mkState (mkService (wallets (serv σ)) (f (firstAddrIDMap (serv σ)))
                     (walletDirectory (serv σ)) (cryptoType (serv σ))
                     (enableWalletAPI (serv σ)) (enableSeedAPI (serv σ)))
          (world σ).

Definition withWalletDirectory (dir : string) (σ : State) : State :=
  mkState (mkService (wallets (serv σ)) (firstAddrIDMap (serv σ)) dir
                     (cryptoType (serv σ)) (enableWalletAPI (serv σ))
                     (enableSeedAPI (serv σ)))
          (world σ).

(** *** The map [Wallets] *)

Definition Wallets_get (id : string) : M State (option ptr) :=
  gets (λ σ, wallets (serv σ) !! id).

(** Modelled from the spec: Wallets.add is not under src/.  Section 3: ids are
    unique, so a wallet whose id is taken is refused; the wallet itself is
    put in the map ([loadWallet] hands out a clone afterwards). *)
Definition Wallets_add (p : ptr) : M State unit :=
  let! w := liftW (load p) in
  let! old := Wallets_get (Filename w) in
  match old with
  | Some _ => fail ErrWalletNameConflict
  | None => modify (withWallets (insert (Filename w) p))
  end.

Definition Wallets_remove (id : string) : M State unit :=
  modify (withWallets (delete id)).

(** Modelled from the spec: Wallets.set is not under src/.  Section 4.1:
    callers never hold a live reference to a stored wallet, and
    [EncryptWallet] and [DecryptWallet] return the very wallet they have
    handed to set: the map keeps a clone of it. *)
Definition Wallets_set (p : ptr) : M State unit :=
  let! w := liftW (load p) in
  let! q := liftW (clone p) in
  modify (withWallets (insert (Filename w) q)).

(** The pairs of a map with the wallets its pointers lead to. *)
Definition derefAll (wlts : gmap string ptr) : M World (list (string * Wallet)) :=
  forM (λ kp, let! w := load kp.2 in ret (kp.1, w)) (map_to_list wlts).

(** Modelled from the spec: containsDuplicate is not under src/.  Section 4.5:
    two wallets share a first address.  The addresses seen so far are kept
    by their printed form; a wallet without entries has none. *)
Fixpoint dupScan (seen : gset string) (l : list (string * Wallet)) : bool :=
  match l with
  | [] => false
  | (_, w) :: l' =>
      match Entries w with
      | [] => dupScan seen l'
      | e :: _ =>
          if decide (Address_String (EntryAddress e) ∈ seen) then true
          else dupScan ({[Address_String (EntryAddress e)]} ∪ seen) l'
      end
  end.

Definition containsDuplicate (wlts : gmap string ptr) : M World bool :=
  let! l := derefAll wlts in ret (dupScan ∅ l).

(** Modelled from the spec: containsEmpty is not under src/.  Section 4.5: a
    wallet has zero entries. *)
Definition emptyScan (l : list (string * Wallet)) : bool :=
  existsb (λ kw, match Entries kw.2 with [] => true | _ => false end) l.

Definition containsEmpty (wlts : gmap string ptr) : M World bool :=
  let! l := derefAll wlts in ret (emptyScan l).

(** *** NewService *)

Definition setWallets (wlts : gmap string ptr) : M State unit :=
  do! modify (withWallets (λ _, wlts)) in
  do! forM (λ kp : string * ptr,
              let! e := liftW (firstEntry kp.2) in
              modify (withFirstAddrIDMap (insert (Address_String (EntryAddress e)) kp.1)))
           (map_to_list wlts) in
  ret tt.

(** The body of NewService, run on the service it has just made. *)
Definition NewService_body (c : Config) : M State unit :=
  let! en := gets (λ σ, enableWalletAPI (serv σ)) in
  if negb en then ret tt
  else
    do! wrapErr ErrMkdirFailed (liftW (MkdirAll (WalletDir c))) in
    do! modify (withWalletDirectory (WalletDir c)) in
    let! dir := gets (λ σ, walletDirectory (serv σ)) in
    do! wrapErr ErrRemoveBackupFailed (liftW (removeBackupFiles dir)) in
    let! w := wrapErr ErrLoadWalletsFailed (liftW (LoadWallets dir)) in
    let! hasDup := liftW (containsDuplicate w) in
    if hasDup : bool then fail ErrDuplicateWallet
    else
      let! hasEmpty := liftW (containsEmpty w) in
      if hasEmpty : bool then fail ErrEmptyWallet
      else setWallets w.

(** NewService returns the service, or an error and no service. *)
Definition NewService (c : Config) : M World Service :=
  λ wd,
    let serv0 := mkService ∅ ∅ "" (CryptoType c) (EnableWalletAPI c) (EnableSeedAPI c) in
    match NewService_body c (mkState serv0 wd) with
    | (Ok _, σ) => (Ok (serv σ), world σ)
    | (Err e, σ) => (Err e, world σ)
    | (Abort a, σ) => (Abort a, world σ)
    end.

(** *** CreateWallet *)

(** [names]: the results of the calls of NewWalletFilename to come. *)
Fixpoint generateUniqueWalletFilename (names : list string) : M State string :=
  match names with
  | [] => abort Diverges
  | wltName :: names' =>
      let! w := Wallets_get wltName in
      match w with
      | None => ret wltName
      | Some _ => generateUniqueWalletFilename names'
      end
  end.

Definition loadWallet (now : Z) (wltName : string) (options : Options)
    (bg : BalanceGetter) : M State ptr :=
  let! ct := gets (λ σ, cryptoType (serv σ)) in
  let options := if optEncrypt options then setCryptoType options ct else options in
  let! w := liftW (let! v := liftOutcome (NewWalletScanAhead now wltName options bg) in
                   alloc v) in
  let! e := liftW (firstEntry w) in
  let! idx := gets (λ σ, firstAddrIDMap (serv σ)) in
  match idx !! Address_String (EntryAddress e) with
  | Some _ => fail ErrSeedUsed
  | None =>
      do! Wallets_add w in
      let! dir := gets (λ σ, walletDirectory (serv σ)) in
      let! saved := attempt (liftW (Save w dir)) in
      match saved with
      | inl err =>
          let! v := liftW (load w) in
          do! Wallets_remove (Filename v) in
          fail err
      | inr _ =>
          let! e' := liftW (firstEntry w) in
          let! v := liftW (load w) in
          do! modify (withFirstAddrIDMap
                        (insert (Address_String (EntryAddress e')) (Filename v))) in
          liftW (clone w)
      end
  end.

Definition CreateWallet (now : Z) (names : list string) (wltName : string)
    (options : Options) (bg : BalanceGetter) : M State ptr :=
  let! en := gets (λ σ, enableWalletAPI (serv σ)) in
  if negb en then fail ErrWalletAPIDisabled
  else
    let! wltName := (if String.eqb wltName "" then generateUniqueWalletFilename names
                     else ret wltName) in
    loadWallet now wltName options bg.

(** *** Access by id *)

Definition getWallet (wltID : string) : M State ptr :=
  let! w := Wallets_get wltID in
  match w with
  | None => fail ErrWalletNotExist
  | Some p => liftW (clone p)
  end.

Definition EncryptWallet (wltID : string) (password : bytes) : M State ptr :=
  let! en := gets (λ σ, enableWalletAPI (serv σ)) in
  if negb en then fail ErrWalletAPIDisabled
  else
    let! w := getWallet wltID in
    let! v := liftW (load w) in
    if IsEncrypted v then fail ErrWalletEncrypted
    else
      let! ct := gets (λ σ, cryptoType (serv σ)) in
      do! liftW (Lock w password ct) in
      let! dir := gets (λ σ, walletDirectory (serv σ)) in
      do! liftW (Save w dir) in
      do! Wallets_set w in
      ret w.

Definition DecryptWallet (wltID : string) (password : bytes) : M State ptr :=
  let! en := gets (λ σ, enableWalletAPI (serv σ)) in
  if negb en then fail ErrWalletAPIDisabled
  else
    let! w := getWallet wltID in
    let! v := liftW (load w) in
    if negb (IsEncrypted v) then fail ErrWalletNotEncrypted
    else
      let! unlockWlt := liftW (Unlock w password) in
      let! dir := gets (λ σ, walletDirectory (serv σ)) in
      do! liftW (Save unlockWlt dir) in
      do! Wallets_set unlockWlt in
      ret unlockWlt.

(** The closure of NewAddresses: the wallet grows, the new addresses are
    kept for the caller. *)
Definition generateAddresses (num : nat) (p : ptr) : M World (list Address) :=
  let! v := load p in
  let! r := liftOutcome (GenerateSkycoinAddresses v num) in
  do! store p r.1 in
  ret r.2.

Definition NewAddresses (wltID : string) (password : bytes) (num : nat) :
    M State (list Address) :=
  let! en := gets (λ σ, enableWalletAPI (serv σ)) in
  if negb en then fail ErrWalletAPIDisabled
  else
    let! w := getWallet wltID in
    let! v := liftW (load w) in
    let! addrs :=
      (if IsEncrypted v then liftW (GuardUpdate w password (generateAddresses num))
       else if negb (length password =? 0)%nat then fail ErrWalletNotEncrypted
       else liftW (generateAddresses num w)) in
    let! dir := gets (λ σ, walletDirectory (serv σ)) in
    do! liftW (Save w dir) in
    do! Wallets_set w in
    ret addrs.

Definition GetSkycoinAddresses (wltID : string) : M State (list Address) :=
  let! en := gets (λ σ, enableWalletAPI (serv σ)) in
  if negb en then fail ErrWalletAPIDisabled
  else
    let! w := getWallet wltID in
    let! v := liftW (load w) in
    liftOutcome (Wallet_GetSkycoinAddresses v).

Definition GetWallet (wltID : string) : M State ptr :=
  let! en := gets (λ σ, enableWalletAPI (serv σ)) in
  if negb en then fail ErrWalletAPIDisabled
  else getWallet wltID.

Definition GetWallets : M State (gmap string ptr) :=
  let! en := gets (λ σ, enableWalletAPI (serv σ)) in
  if negb en then fail ErrWalletAPIDisabled
  else
    let! ws := gets (λ σ, wallets (serv σ)) in
    let! l := forM (λ kp : string * ptr,
                      let! q := liftW (clone kp.2) in ret (kp.1, q))
                   (map_to_list ws) in
    ret (list_to_map l).

(** The closure of CreateTransaction: the builder on the wallet it is handed. *)
Definition buildTransaction (params : CreateTransactionParams) (auxs : AddressUxOuts)
    (headTime : N) (p : ptr) : M World (Transaction * list UxBalance) :=
  let! v := load p in
  liftOutcome (Wallet_CreateTransaction v params auxs headTime).

Definition CreateTransaction (params : CreateTransactionParams) (auxs : AddressUxOuts)
    (headTime : N) : M State (Transaction * list UxBalance) :=
  let! en := gets (λ σ, enableWalletAPI (serv σ)) in
  if negb en then fail ErrWalletAPIDisabled
  else
    do! liftOutcome (Validate params) in
    let! w := getWallet (paramsWalletID params) in
    let! v := liftW (load w) in
    do! (if IsEncrypted v then
           if (length (paramsWalletPassword params) =? 0)%nat then fail ErrMissingPassword
           else ret tt
         else
           if negb (length (paramsWalletPassword params) =? 0)%nat
           then fail ErrWalletNotEncrypted
           else ret tt) in
    if IsEncrypted v then
      liftW (GuardView w (paramsWalletPassword params)
                       (buildTransaction params auxs headTime))
    else liftW (buildTransaction params auxs headTime w).

Definition UpdateWalletLabel (wltID label : string) : M State unit :=
  let! en := gets (λ σ, enableWalletAPI (serv σ)) in
  if negb en then fail ErrWalletAPIDisabled
  else
    let! w := getWallet wltID in
    let! v := liftW (load w) in
    do! liftW (store w (setLabel v label)) in
    let! dir := gets (λ σ, walletDirectory (serv σ)) in
    do! liftW (Save w dir) in
    Wallets_set w.

Definition Remove (wltID : string) : M State unit :=
  let! en := gets (λ σ, enableWalletAPI (serv σ)) in
  if negb en then fail ErrWalletAPIDisabled
  else
    let! wlt := Wallets_get wltID in
    do! match wlt with
        | Some p =>
            let! v := liftW (load p) in
            match Entries v with
            | e :: _ =>
                modify (withFirstAddrIDMap (delete (Address_String (EntryAddress e))))
            | [] => ret tt
            end
        | None => ret tt
        end in
    Wallets_remove wltID.

Definition GetWalletSeed (wltID : string) (password : bytes) : M State string :=
  let! en := gets (λ σ, enableWalletAPI (serv σ)) in
  if negb en then fail ErrWalletAPIDisabled
  else
    let! enSeed := gets (λ σ, enableSeedAPI (serv σ)) in
    if negb enSeed then fail ErrSeedAPIDisabled
    else
      let! w := getWallet wltID in
      let! v := liftW (load w) in
      if negb (IsEncrypted v) then fail ErrWalletNotEncrypted
      else
        liftW (GuardView w password (λ wlt, let! x := load wlt in ret (wltSeed x))).

Definition UpdateSecrets (wltID : string) (password : bytes) (f : Callback) :
    M State unit :=
  let! en := gets (λ σ, enableWalletAPI (serv σ)) in
  if negb en then fail ErrWalletAPIDisabled
  else
    let! w := getWallet wltID in
    let! v := liftW (load w) in
    do! (if IsEncrypted v then liftW (GuardUpdate w password (runCallback f))
         else if negb (length password =? 0)%nat then fail ErrWalletNotEncrypted
         else liftW (runCallback f w)) in
    let! dir := gets (λ σ, walletDirectory (serv σ)) in
    do! liftW (Save w dir) in
    Wallets_set w.

Definition Update (wltID : string) (f : Callback) : M State unit :=
  let! en := gets (λ σ, enableWalletAPI (serv σ)) in
  if negb en then fail ErrWalletAPIDisabled
  else
    let! w := getWallet wltID in
    do! liftW (runCallback f w) in
    let! dir := gets (λ σ, walletDirectory (serv σ)) in
    do! liftW (Save w dir) in
    Wallets_set w.

Definition ViewSecrets (wltID : string) (password : bytes) (f : Callback) :
    M State unit :=
  let! en := gets (λ σ, enableWalletAPI (serv σ)) in
  if negb en then fail ErrWalletAPIDisabled
  else
    let! w := getWallet wltID in
    let! v := liftW (load w) in
    if IsEncrypted v then liftW (GuardView w password (runCallback f))
    else if negb (length password =? 0)%nat then fail ErrWalletNotEncrypted
    else liftW (runCallback f w).

Definition View (wltID : string) (f : Callback) : M State unit :=
  let! en := gets (λ σ, enableWalletAPI (serv σ)) in
  if negb en then fail ErrWalletAPIDisabled
  else
    let! w := getWallet wltID in
    liftW (runCallback f w).

(** *** RecoverWallet *)

Definition NewWallet (now : Z) (wltName : string) (o : Options) : M World ptr :=
  let! v := liftOutcome (newWallet now wltName o) in alloc v.

Definition RecoverWallet (now : Z) (wltName seed : string) (password : bytes) :
    M State ptr :=
  let! en := gets (λ σ, enableWalletAPI (serv σ)) in
  if negb en then fail ErrWalletAPIDisabled
  else
    let! w := getWallet wltName in
    let! v := liftW (load w) in
    if negb (IsEncrypted v) then fail ErrWalletNotEncrypted
    else if negb (String.eqb (wltType v) WalletTypeDeterministic)
    then fail ErrWalletNotDeterministic
    else
      let! kp := liftOutcome (GenerateDeterministicKeyPair seed) in
      let addr := addressConstructor (coin v) kp.1 in
      let! e := liftW (firstEntry w) in
      if negb (bool_decide (addr = EntryAddress e)) then fail ErrWalletRecoverSeedWrong
      else
        let! w2 := liftW (NewWallet now wltName
                            (mkOptions (coin v) (Label v) seed
                                       (negb (length password =? 0)%nat) password
                                       (wltCryptoType v) (length (Entries v)) 0)) in
        let! v2 := liftW (load w2) in
        do! liftW (store w2 (setTimestamp v2 (timestamp v))) in
        let! dir := gets (λ σ, walletDirectory (serv σ)) in
        do! liftW (Save w2 dir) in
        do! Wallets_set w2 in
        liftW (clone w2).

(** ** What the properties are stated with *)

(** The wallet the store holds under an id, and the files of the medium. *)
Definition stored (σ : State) (id : string) : option Wallet :=
  wallets (serv σ) !! id ≫= λ p, heap (world σ) !! p.

Definition files (σ : State) : gmap string (gmap string File) :=
  dirs (disk (world σ)).

(** Nothing of the service has changed: its fields (the wallet map, the
    first-address index, the directory, the flags) are the same, the files
    are the same, and every wallet object that existed is still there with
    the same content.  New objects may have been made. *)
Definition unchanged (σ σ' : State) : Prop :=
  serv σ' = serv σ ∧ files σ' = files σ ∧
  heap (world σ) `prefix_of` heap (world σ').

(** Every pointer of the wallet map leads to a wallet object. *)
Definition wfStore (σ : State) : Prop :=
  ∀ id p, wallets (serv σ) !! id = Some p → is_Some (heap (world σ) !! p).

(** No pointer of the wallet map is [p]. *)
Definition notStored (σ : State) (p : ptr) : Prop :=
  ∀ id, wallets (serv σ) !! id ≠ Some p.

(** The caller writes [v] into the wallet object it holds. *)
Definition mutate (p : ptr) (v : Wallet) (σ : State) : State :=
  mkState (serv σ) (mkWorld (<[p:=v]> (heap (world σ))) (disk (world σ))).

Definition firstAddress (w : Wallet) : option Address :=
  EntryAddress <$> head (Entries w).

(** No two wallets of the store share a first address. *)
Definition distinctFirstAddresses (σ : State) : Prop :=
  ∀ id1 id2 w1 w2 a,
    stored σ id1 = Some w1 → stored σ id2 = Some w2 →
    firstAddress w1 = Some a → firstAddress w2 = Some a → id1 = id2.

(** Every wallet of the store has a first address, and the index maps it to
    the wallet's id. *)
Definition indexed (σ : State) : Prop :=
  ∀ id p, wallets (serv σ) !! id = Some p →
    ∃ w a, heap (world σ) !! p = Some w ∧ firstAddress w = Some a ∧
           firstAddrIDMap (serv σ) !! Address_String a = Some id.

(** Two wallets of a loaded map share a first address; one has no entry. *)
Definition sharesFirstAddress (wlts : gmap string ptr) (wd : World) : Prop :=
  ∃ id1 id2 p1 p2 w1 w2 a,
    id1 ≠ id2 ∧ wlts !! id1 = Some p1 ∧ wlts !! id2 = Some p2 ∧
    heap wd !! p1 = Some w1 ∧ heap wd !! p2 = Some w2 ∧
    firstAddress w1 = Some a ∧ firstAddress w2 = Some a.

Definition hasEmptyWallet (wlts : gmap string ptr) (wd : World) : Prop :=
  ∃ id p w, wlts !! id = Some p ∧ heap wd !! p = Some w ∧ Entries w = [].

(** The next I/O call works. *)
Definition ioWorks (d : Disk) : Prop := head (faults d) ≠ Some true.

(** The call has handed out [q] as a copy: an object made during the call,
    which the wallet map, changed in at most one place, does not point to. *)
Definition copyOut (σ : State) (q : ptr) (σ' : State) : Prop :=
  (length (heap (world σ)) ≤ q)%nat ∧
  (wallets (serv σ') = wallets (serv σ) ∨
   ∃ fn k, wallets (serv σ') = <[fn:=k]> (wallets (serv σ)) ∧ k ≠ q).

(** The pairs of a map with the wallets of a heap, the printed first address
    of a wallet, and the index the loop of setWallets builds. *)
Definition resolve (h : list Wallet) (kps : list (string * ptr)) :
    list (string * Wallet) :=
  omap (λ kp, pair kp.1 <$> h !! kp.2) kps.

Definition addrKey (w : Wallet) : option string :=
  Address_String <$> firstAddress w.

Definition addrKeys (l : list (string * Wallet)) : list string :=
  omap (λ kw, addrKey kw.2) l.

Definition indexAll (l : list (string * Wallet)) (idx : gmap string string) :
    gmap string string :=
  foldl (λ idx kw, match addrKey kw.2 with
                   | Some a => <[a:=kw.1]> idx
                   | None => idx
                   end) idx l.

(** The calls that add, remove or replace a wallet of the store, and the
    states the service can be in: after NewService, and after any of these
    calls from such a state, whatever its outcome. *)
Inductive Op : Type :=
  | OpCreateWallet (now : Z) (names : list string) (wltName : string)
      (options : Options) (bg : BalanceGetter)
  | OpRemove (wltID : string)
  | OpRecoverWallet (now : Z) (wltName seed : string) (password : bytes).

Definition runOp (o : Op) (σ : State) : State :=
  match o with
  | OpCreateWallet now names wltName options bg =>
      (CreateWallet now names wltName options bg σ).2
  | OpRemove wltID => (Remove wltID σ).2
  | OpRecoverWallet now wltName seed password =>
      (RecoverWallet now wltName seed password σ).2
  end.

Inductive reachable : State → Prop :=
  | reachable_new (c : Config) (wd wd' : World) (s : Service) :
      NewService c wd = (Ok s, wd') → reachable (mkState s wd')
  | reachable_step (o : Op) (σ : State) :
      reachable σ → reachable (runOp o σ).

(** The fields of the service that are fixed when it is made. *)
Definition settings (s : Service) : string * string * bool * bool :=
  (walletDirectory s, cryptoType s, enableWalletAPI s, enableSeedAPI s).

(** Every wallet of the store is kept under the name of its own file. *)
Definition named (σ : State) : Prop :=
  ∀ id p w, wallets (serv σ) !! id = Some p → heap (world σ) !! p = Some w →
            Filename w = id.

(** The calls of the service that do not hand the stored wallet to code of
    the caller or of the address generator: all but [Update], [UpdateSecrets]
    and [NewAddresses]. *)
Inductive Call : Type :=
  | CallOp (o : Op)
  | CallEncryptWallet (wltID : string) (password : bytes)
  | CallDecryptWallet (wltID : string) (password : bytes)
  | CallUpdateWalletLabel (wltID label : string)
  | CallGetWallet (wltID : string)
  | CallGetWallets
  | CallGetSkycoinAddresses (wltID : string)
  | CallGetWalletSeed (wltID : string) (password : bytes)
  | CallCreateTransaction (params : CreateTransactionParams) (auxs : AddressUxOuts)
      (headTime : N)
  | CallView (wltID : string) (f : Callback)
  | CallViewSecrets (wltID : string) (password : bytes) (f : Callback).

Definition runCall (c : Call) (σ : State) : State :=
  match c with
  | CallOp o => runOp o σ
  | CallEncryptWallet wltID password => (EncryptWallet wltID password σ).2
  | CallDecryptWallet wltID password => (DecryptWallet wltID password σ).2
  | CallUpdateWalletLabel wltID label => (UpdateWalletLabel wltID label σ).2
  | CallGetWallet wltID => (GetWallet wltID σ).2
  | CallGetWallets => (GetWallets σ).2
  | CallGetSkycoinAddresses wltID => (GetSkycoinAddresses wltID σ).2
  | CallGetWalletSeed wltID password => (GetWalletSeed wltID password σ).2
  | CallCreateTransaction params auxs headTime =>
      (CreateTransaction params auxs headTime σ).2
  | CallView wltID f => (View wltID f σ).2
  | CallViewSecrets wltID password f => (ViewSecrets wltID password f σ).2
  end.

Inductive reachableBy : State → Prop :=
  | reachableBy_new (c : Config) (wd wd' : World) (s : Service) :
      NewService c wd = (Ok s, wd') → reachableBy (mkState s wd')
  | reachableBy_step (c : Call) (σ : State) :
      reachableBy σ → reachableBy (runCall c σ).

End Model.

(** * The command encryptWallet of the command-line client

    File src/api/cli/encrypt_wallet.go, package cli.  The command works on a
    wallet file directly, with the wallet entity's Lock and Save, not through
    the service. *)

Section Cli.

Context {cipher : Cipher}.

(** The errors the command tells apart by their dynamic type: the two
    wrappers of package cli, and every other error value. *)
Inductive CliError : Type :=
  | WalletLoadError (e : Error)
  | WalletSaveError (e : Error)
  | PlainError (e : Error).

(** What the command uses and src/ does not hold: reading a wallet file
    ([wallet.Load]), asking for a password on the terminal (of state
    [Terminal]), the absolute directory of a path
    ([filepath.Abs(filepath.Dir(path))]), the wallet path of the configuration
    ([resolveWalletPath(cfg, "")]) and the parsing of a crypto type's name.
    They are parameters, total and otherwise arbitrary. *)
Class CliEnv : Type := {
  Terminal : Type;
  wallet_Load : string → M World ptr;
  readPasswordFromTerminal : M Terminal bytes;
  absDir : string → Outcome string;
  resolveWalletPath : Outcome string;
  CryptoTypeFromString : string → Outcome string;
}.

Context {env : CliEnv}.

(** What the command has put on the screen: the help text after an error
    ([errorWithHelp]), or a wallet ([printJSON]). *)
Inductive Shown : Type :=
  | ShownHelp (e : CliError)
  | ShownWallet (w : Wallet).

Record Cli : Type := mkCli {
  cliWorld : World;
  terminal : Terminal;
  shown : list Shown;
}.

Definition inWorld {A : Type} (m : M World A) : M Cli A :=
  λ st, let (r, w) := m (cliWorld st) in (r, mkCli w (terminal st) (shown st)).

Definition inTerminal {A : Type} (m : M Terminal A) : M Cli A :=
  λ st, let (r, t) := m (terminal st) in (r, mkCli (cliWorld st) t (shown st)).

Definition show (x : Shown) : M Cli unit :=
  modify (λ st, mkCli (cliWorld st) (terminal st) (shown st ++ [x])).

(** encryptWallet returns the wallet, or no wallet and an error: [inr] and
    [inl]. *)
Definition encryptWallet (walletFile : string) (password : bytes) (cryptoType : string) :
    M Cli (CliError + ptr) :=
  let! loaded := attempt (inWorld (wallet_Load walletFile)) in
  match loaded with
  | inl err => ret (inl (WalletLoadError err))
  | inr wlt =>
      let! v := inWorld (load wlt) in
      if IsEncrypted v then ret (inl (PlainError ErrWalletEncrypted))
      else
        let! pw := (if (length password =? 0)%nat
                    then attempt (inTerminal readPasswordFromTerminal)
                    else ret (inr password)) in
        match pw with
        | inl err => ret (inl (PlainError err))
        | inr password =>
            let! locked := attempt (inWorld (Lock wlt password cryptoType)) in
            match locked with
            | inl err => ret (inl (PlainError err))
            | inr _ =>
                let! dir := attempt (liftOutcome (absDir walletFile)) in
                match dir with
                | inl err => ret (inl (PlainError err))
                | inr dir =>
                    let! saved := attempt (inWorld (Save wlt dir)) in
                    match saved with
                    | inl err => ret (inl (WalletLoadError err))
                    | inr _ => ret (inr wlt)
                    end
                end
            end
        end
  end.

(** The action of the command, on the values of the flags x and p: the
    error it returns, if any. *)
Definition encryptWalletCmd_Action (x p : string) : M Cli (option CliError) :=
  let! w := attempt (liftOutcome resolveWalletPath) in
  match w with
  | inl err => ret (Some (PlainError err))
  | inr w =>
      let! ct := attempt (liftOutcome (CryptoTypeFromString x)) in
      match ct with
      | inl err => do! show (ShownHelp (PlainError err)) in ret None
      | inr cryptoType =>
          let! r := encryptWallet w (String.list_byte_of_string p) cryptoType in
          match r with
          | inr wlt =>
              let! v := inWorld (load wlt) in
              do! show (ShownWallet v) in
              ret None
          | inl (WalletLoadError err) =>
              do! show (ShownHelp (WalletLoadError err)) in ret None
          | inl (WalletSaveError _) =>
              ret (Some (PlainError (ErrOther "save wallet failed")))
          | inl (PlainError err) => ret (Some (PlainError err))
          end
      end
  end.

End Cli.

(** ** A small instance of the collaborators

    Keys, addresses and blobs are strings; nothing is secret in it.  It is
    what the concrete runs at the end of the file compute with. *)

Fixpoint tally (n : nat) : string :=
  match n with
  | O => ""
  | S n' => "i" +:+ tally n'
  end.

Definition toyCipher : Cipher := {|
  Address := string;
  PubKey := string;
  SecKey := string;
  Blob := bytes * (string * list (option string));
  Address_String := λ a, a;
  deriveKeyPair := λ seed i,
    if String.eqb seed "" then Err (ErrOther "empty seed")
    else Ok (seed +:+ "/pub/" +:+ tally i, seed +:+ "/sec/" +:+ tally i);
  addressConstructor := λ c pk, c +:+ ":" +:+ pk;
  encryptSecrets := λ _ password s, Ok (password, s);
  decryptSecrets := λ _ password b,
    if bool_decide (password = b.1) then Ok b.2 else Err (ErrOther "invalid password");
|}.

Section Toy.

#[local] Existing Instance toyCipher.

Definition toyWalletPkg : WalletPkg := {|
  BalancePair := nat;
  Transaction := string;
  UxBalance := nat;
  AddressUxOuts := list nat;
  CreateTransactionParams := string * bytes * nat;
  paramsWalletID := λ p, p.1.1;
  paramsWalletPassword := λ p, p.1.2;
  Validate := λ p, if (p.2 =? 0)%nat then Err (ErrOther "zero amount") else Ok tt;
  NewWalletScanAhead := λ now name o _, newWallet now name o;
  Wallet_CreateTransaction := λ w p auxs _,
    if IsEncrypted w then Err ErrWalletEncrypted
    else if (p.2 <=? sum_list auxs)%nat then Ok ("tx", auxs)
    else Err (ErrOther "insufficient funds");
  GenerateSkycoinAddresses := λ w n,
    match deriveEntries (coin w) (wltSeed w) (length (Entries w)) n with
    | Ok es =>
        Ok (mkWallet (Filename w) (Label w) (coin w) (wltType w) (wltCryptoType w)
                     (IsEncrypted w) (wltSeed w) (timestamp w) (secrets w)
                     (Entries w ++ es),
            EntryAddress <$> es)
    | Err e => Err e
    | Abort c => Abort c
    end;
  Wallet_GetSkycoinAddresses := λ w, Ok (EntryAddress <$> Entries w);
|}.

#[local] Existing Instance toyWalletPkg.

Definition toyConfig : Config := mkConfig "wallets" "scrypt-chacha20poly1305" true true.

Definition toyOptions (seed : string) : Options :=
  mkOptions "skycoin" "savings" seed false [] "" 1 0.

Definition toyBalances : BalanceGetter := λ _, Ok [].

(** A wallet of one entry from the seed "seed1", as NewWallet builds it, and
    the same wallet locked with the password [[x01]]. *)
Definition toyEntry : Entry :=
  mkEntry "skycoin:seed1/pub/" "seed1/pub/" (Some "seed1/sec/").

Definition toyWallet : Wallet :=
  mkWallet "a.wlt" "savings" "skycoin" "deterministic" "" false "seed1" 5 None
           [toyEntry].

Definition toyLocked : Wallet :=
  mkWallet "a.wlt" "savings" "skycoin" "deterministic" "scrypt-chacha20poly1305" true
           "" 5 (Some ([Byte.x01], ("seed1", [Some "seed1/sec/"])))
           [mkEntry "skycoin:seed1/pub/" "seed1/pub/" None].

(** The service after NewService on an empty medium; after CreateWallet of
    "a.wlt" from "seed1"; after EncryptWallet of that wallet. *)
Definition toyState0 : State :=
  mkState (mkService ∅ ∅ "wallets" "scrypt-chacha20poly1305" true true)
          (mkWorld [] (mkDisk {["wallets" := ∅]} [])).

Definition toyState1 : State :=
  mkState (mkService {["a.wlt" := 0]} {["skycoin:seed1/pub/" := "a.wlt"]}
                     "wallets" "scrypt-chacha20poly1305" true true)
          (mkWorld [toyWallet; toyWallet]
                   (mkDisk {["wallets" := {["a.wlt" := WalletFile toyWallet]}]} [])).

Definition toyState2 : State :=
  mkState (mkService {["a.wlt" := 3]} {["skycoin:seed1/pub/" := "a.wlt"]}
                     "wallets" "scrypt-chacha20poly1305" true true)
          (mkWorld [toyWallet; toyWallet; toyLocked; toyLocked]
                   (mkDisk {["wallets" := {["a.wlt" := WalletFile toyLocked]}]} [])).

(** Wallet directories as NewService may find them: a wallet and a stray
    backup file; two files with the same wallet, hence the same first
    address; a wallet and a wallet without entries. *)
Definition toyEmpty : Wallet :=
  mkWallet "c.wlt" "empty" "skycoin" "deterministic" "" false "seed3" 7 None [].

Definition toyDiskBackup : Disk :=
  mkDisk {["wallets" := {["a.wlt" := WalletFile toyWallet;
                          "a.wlt.bak" := OtherFile "stray"]}]} [].

Definition toyDiskDuplicate : Disk :=
  mkDisk {["wallets" := {["a.wlt" := WalletFile toyWallet;
                          "b.wlt" := WalletFile toyWallet]}]} [].

Definition toyDiskEmpty : Disk :=
  mkDisk {["wallets" := {["a.wlt" := WalletFile toyWallet;
                          "c.wlt" := WalletFile toyEmpty]}]} [].

(** The same service on a medium whose next I/O call fails. *)
Definition toyState0Failing : State :=
  mkState (serv toyState0) (mkWorld [] (mkDisk {["wallets" := ∅]} [true])).

(** The service with the wallet API switched off. *)
Definition toyStateOff : State :=
  mkState (mkService ∅ ∅ "" "scrypt-chacha20poly1305" false true)
          (mkWorld [] (mkDisk ∅ [])).

(** A callback that gives the wallet another file name. *)
Definition toyRename : Callback := λ w, (setFilename w "b.wlt", Ok tt).

(** The collaborators of the command-line client: wallet files are looked up
    by name in the directory "wallets", the terminal is the list of the
    passwords that will be typed. *)
Definition toyCliEnv : CliEnv := {|
  Terminal := list bytes;
  wallet_Load := λ path,
    let! fs := readDir "wallets" in
    match fs !! path with
    | Some (WalletFile w) => alloc w
    | _ => fail ErrPersistence
    end;
  readPasswordFromTerminal := λ t,
    match t with
    | [] => (Err (ErrOther "no input"), [])
    | pw :: t' => (Ok pw, t')
    end;
  absDir := λ _, Ok "wallets";
  resolveWalletPath := Ok "a.wlt";
  CryptoTypeFromString := λ x,
    if String.eqb x "scrypt-chacha20poly1305" || String.eqb x "sha256-xor" then Ok x
    else Err (ErrOther "unknown crypto type");
|}.

(** The command-line client before a run, on the medium of [toyState1]; and
    on that medium with a next I/O call that fails. *)
Definition toyCli : Cli (env := toyCliEnv) :=
  mkCli (env := toyCliEnv) (mkWorld [] (disk (world toyState1))) (@nil bytes) [].

Definition toyCliFailing : Cli (env := toyCliEnv) :=
  mkCli (env := toyCliEnv) (mkWorld [] (mkDisk (dirs (disk (world toyState1))) [true]))
        (@nil bytes) [].

End Toy.

(** * Properties of the service *)

Local Close Scope string_scope.

Section Properties.

Context {cipher : Cipher} {pkg : WalletPkg}.

Implicit Types (σ : State) (wd : World) (h : list Wallet) (p q : ptr) (v w : Wallet).

Lemma lookup_snoc h v : (h ++ [v]) !! length h = Some v.
Proof. by rewrite list_lookup_middle. Qed.

Lemma insert_snoc h v w : <[length h:=w]> (h ++ [v]) = h ++ [w].
Proof.
  rewrite insert_app_r_alt by done. by rewrite Nat.sub_diag.
Qed.

Lemma unchanged_refl σ : unchanged σ σ.
Proof. by repeat split. Qed.

Lemma unchanged_alloc s wd l :
  unchanged (mkState s wd) (mkState s (mkWorld (heap wd ++ l) (disk wd))).
Proof. repeat split; simpl; try done. by apply prefix_app_r. Qed.

Lemma prefix_insert_ge h (l : list Wallet) p x :
  length h ≤ p → h `prefix_of` l → h `prefix_of` <[p:=x]> l.
Proof.
  intros Hp [k ->]. rewrite insert_app_r_alt by done. by apply prefix_app_r.
Qed.

(** The goals [unchanged σ σ'] on the states a run ends in. *)
Ltac frame_prefix :=
  repeat first
    [ apply prefix_insert_ge; [rewrite ?length_app; simpl; lia|]
    | apply prefix_app_r ];
  try reflexivity.

Ltac frame := repeat split; simpl; try done; frame_prefix.

(** Running the monad: the combinators unfold, known lookups rewrite. *)
Ltac run_unfold :=
  unfold bind, gets, modify, ret, fail, abort, attempt, wrapErr, liftOutcome,
    liftW, Wallets_get, Wallets_remove, load, store, alloc, clone, firstEntry,
    getWallet in *.

Ltac run_step :=
  first
    [ rewrite lookup_snoc
    | rewrite insert_snoc
    | match goal with
      | H : ?x = _ |- context [?x] => tryif is_var x then fail else rewrite H
      | H : ?l !! ?i = Some _ |- context [(?l ++ ?k) !! ?i] =>
          rewrite (lookup_app_l_Some l k i _ H)
      | |- context [(?l ++ ?k) !! ?i] =>
          rewrite (lookup_app_l l k i) by (rewrite ?length_app; simpl; lia)
      end ].

Ltac run := repeat (progress run_unfold); simpl in *; repeat (run_step; simpl).

(** Case analysis on whatever the run is stuck on. *)
Ltac crunch_step :=
  first
    [ run_step
    | match goal with
      | |- context [match ?x with _ => _ end] =>
          lazymatch x with
          | context [match _ with _ => _ end] => fail
          | _ => destruct x eqn:?
          end
      end ].

Ltac crunch := repeat (progress run_unfold); simpl in *; repeat (crunch_step; simpl in *).

(** C10.  RecoverWallet on a stored wallet that is not encrypted fails with
    ErrWalletNotEncrypted, whatever the type of the wallet, and changes
    nothing; the check of the wallet type comes after it: an encrypted wallet
    that is not deterministic gets ErrWalletNotDeterministic. *)
Theorem RecoverWallet_requires_encrypted now wltName seed password σ p v :
  enableWalletAPI (serv σ) = true →
  wallets (serv σ) !! wltName = Some p →
  heap (world σ) !! p = Some v →
  (IsEncrypted v = false →
     ∃ σ', RecoverWallet now wltName seed password σ = (Err ErrWalletNotEncrypted, σ')
           ∧ unchanged σ σ') ∧
  (IsEncrypted v = true → wltType v ≠ WalletTypeDeterministic →
     ∃ σ', RecoverWallet now wltName seed password σ = (Err ErrWalletNotDeterministic, σ')
           ∧ unchanged σ σ').
Proof.
  intros Hen Hid Hp. destruct σ as [s wd].
  split.
  - intros Henc. unfold RecoverWallet. run.
    eexists; split; [done|]. apply unchanged_alloc.
  - intros Henc Hty. unfold RecoverWallet. run.
    destruct (String.eqb (wltType v) WalletTypeDeterministic) eqn:E.
    + apply String.eqb_eq in E. done.
    + simpl. eexists; split; [done|]. apply unchanged_alloc.
Qed.

(** C6.  GetWalletSeed gives the seed only with the wallet API on, the seed
    API on and an encrypted wallet under the id: with the wallet API off it
    fails with ErrWalletAPIDisabled, with only the seed API off with
    ErrSeedAPIDisabled, and on a plaintext wallet with ErrWalletNotEncrypted;
    a seed it returns is the seed that unlocking the stored wallet with the
    password gives, and it returns that seed whenever the unlocking works. *)
Theorem GetWalletSeed_gated wltID password σ :
  (enableWalletAPI (serv σ) = false →
     GetWalletSeed wltID password σ = (Err ErrWalletAPIDisabled, σ)) ∧
  (enableWalletAPI (serv σ) = true → enableSeedAPI (serv σ) = false →
     GetWalletSeed wltID password σ = (Err ErrSeedAPIDisabled, σ)) ∧
  (∀ p v, enableWalletAPI (serv σ) = true → enableSeedAPI (serv σ) = true →
     wallets (serv σ) !! wltID = Some p → heap (world σ) !! p = Some v →
     IsEncrypted v = false →
     ∃ σ', GetWalletSeed wltID password σ = (Err ErrWalletNotEncrypted, σ')
           ∧ unchanged σ σ') ∧
  (∀ seed σ', GetWalletSeed wltID password σ = (Ok seed, σ') →
     enableWalletAPI (serv σ) = true ∧ enableSeedAPI (serv σ) = true ∧
     ∃ p v u, wallets (serv σ) !! wltID = Some p ∧ heap (world σ) !! p = Some v ∧
              IsEncrypted v = true ∧ unlockWallet v password = Ok u ∧
              seed = wltSeed u) ∧
  (∀ p v u, enableWalletAPI (serv σ) = true → enableSeedAPI (serv σ) = true →
     wallets (serv σ) !! wltID = Some p → heap (world σ) !! p = Some v →
     IsEncrypted v = true → unlockWallet v password = Ok u →
     ∃ σ', GetWalletSeed wltID password σ = (Ok (wltSeed u), σ') ∧ unchanged σ σ').
Proof.
  destruct σ as [s wd]. split_and!.
  - intros Hen. unfold GetWalletSeed. by run.
  - intros Hen Hseed. unfold GetWalletSeed. by run.
  - intros p v Hen Hseed Hid Hp Henc. unfold GetWalletSeed. run.
    eexists; split; [done|]. apply unchanged_alloc.
  - intros seed σ'. unfold GetWalletSeed, GuardView, Unlock, discard.
    crunch; intros; simplify_eq.
    split_and!; [by destruct (enableWalletAPI s)|by destruct (enableSeedAPI s)|].
    eexists _, _, _. split_and!; try done. by destruct (IsEncrypted w).
  - intros p v u Hen Hseed Hid Hp Henc Hu.
    unfold GetWalletSeed, GuardView, Unlock, discard. run.
    eexists; split; [done|]. frame.
Qed.


(** C5.  The two read-only secret accesses that run inside GuardView leave
    the service as it was, on every path: the fields of the service and the
    whole storage medium are the same, and so is every wallet object that
    existed; no I/O call is made. *)
Theorem secret_access_frame wltID password params auxs headTime σ :
  (unchanged σ (GetWalletSeed wltID password σ).2 ∧
   disk (world (GetWalletSeed wltID password σ).2) = disk (world σ)) ∧
  (unchanged σ (CreateTransaction params auxs headTime σ).2 ∧
   disk (world (CreateTransaction params auxs headTime σ).2) = disk (world σ)).
Proof.
  destruct σ as [s wd]. split.
  - unfold GetWalletSeed, GuardView, Unlock, discard. crunch; by frame.
  - unfold CreateTransaction, buildTransaction, GuardView, Unlock, discard.
    crunch; by frame.
Qed.

Lemma length_eqb_0 {A} (l : list A) : (length l =? 0) = bool_decide (l = []).
Proof. by destruct l. Qed.

(** C4.  CreateTransaction checks its parameters before it looks at any
    wallet, and wants a password exactly when the wallet is encrypted: an
    encrypted wallet without password gives ErrMissingPassword, a plaintext
    wallet with a password gives ErrWalletNotEncrypted, and in both cases the
    clone made by getWallet is all that has happened: nothing was unlocked
    and the builder did not run.  With the password where it belongs, the
    outcome is the builder's. *)
Theorem CreateTransaction_password_check params auxs headTime σ :
  enableWalletAPI (serv σ) = true →
  (∀ e, Validate params = Err e →
     CreateTransaction params auxs headTime σ = (Err e, σ)) ∧
  (∀ p v, Validate params = Ok tt →
     wallets (serv σ) !! paramsWalletID params = Some p →
     heap (world σ) !! p = Some v →
     let σ1 := mkState (serv σ) (mkWorld (heap (world σ) ++ [v]) (disk (world σ))) in
     (IsEncrypted v = true → paramsWalletPassword params = [] →
        CreateTransaction params auxs headTime σ = (Err ErrMissingPassword, σ1)) ∧
     (IsEncrypted v = false → paramsWalletPassword params ≠ [] →
        CreateTransaction params auxs headTime σ = (Err ErrWalletNotEncrypted, σ1)) ∧
     (IsEncrypted v = false → paramsWalletPassword params = [] →
        CreateTransaction params auxs headTime σ =
          (Wallet_CreateTransaction v params auxs headTime, σ1)) ∧
     (∀ u, IsEncrypted v = true → paramsWalletPassword params ≠ [] →
        unlockWallet v (paramsWalletPassword params) = Ok u →
        (CreateTransaction params auxs headTime σ).1 =
          Wallet_CreateTransaction u params auxs headTime)).
Proof.
  intros Hen. destruct σ as [s wd]. split.
  - intros e He. unfold CreateTransaction. by run.
  - intros p v Hv Hid Hp σ1. subst σ1. repeat split.
    + intros Henc Hpw. unfold CreateTransaction. by run.
    + intros Henc Hpw. unfold CreateTransaction. run.
      rewrite length_eqb_0, bool_decide_eq_false_2 by done. done.
    + intros Henc Hpw. unfold CreateTransaction, buildTransaction. run.
      by destruct (Wallet_CreateTransaction _ _ _ _).
    + intros u Henc Hpw Hu.
      unfold CreateTransaction, buildTransaction, GuardView, Unlock, discard. run.
      rewrite length_eqb_0, bool_decide_eq_false_2 by done. run.
      destruct (Wallet_CreateTransaction _ _ _ _); by run.
Qed.


(** C8, as amended.  With the wallet API on, a method that addresses one
    wallet by an id the store does not have fails with ErrWalletNotExist and
    changes nothing at all (GetWalletSeed when the seed API is on too,
    CreateTransaction when its parameters are valid); Remove is the
    exception: it returns no error, and changes nothing either. *)
Theorem unknown_id_NotFound wltID σ :
  enableWalletAPI (serv σ) = true →
  wallets (serv σ) !! wltID = None →
  (∀ password, EncryptWallet wltID password σ = (Err ErrWalletNotExist, σ)) ∧
  (∀ password, DecryptWallet wltID password σ = (Err ErrWalletNotExist, σ)) ∧
  (∀ password num, NewAddresses wltID password num σ = (Err ErrWalletNotExist, σ)) ∧
  GetSkycoinAddresses wltID σ = (Err ErrWalletNotExist, σ) ∧
  GetWallet wltID σ = (Err ErrWalletNotExist, σ) ∧
  (∀ label, UpdateWalletLabel wltID label σ = (Err ErrWalletNotExist, σ)) ∧
  (∀ password, enableSeedAPI (serv σ) = true →
     GetWalletSeed wltID password σ = (Err ErrWalletNotExist, σ)) ∧
  (∀ now seed password,
     RecoverWallet now wltID seed password σ = (Err ErrWalletNotExist, σ)) ∧
  (∀ params auxs headTime,
     paramsWalletID params = wltID → Validate params = Ok tt →
     CreateTransaction params auxs headTime σ = (Err ErrWalletNotExist, σ)) ∧
  (∀ password f, UpdateSecrets wltID password f σ = (Err ErrWalletNotExist, σ)) ∧
  (∀ f, Update wltID f σ = (Err ErrWalletNotExist, σ)) ∧
  (∀ password f, ViewSecrets wltID password f σ = (Err ErrWalletNotExist, σ)) ∧
  (∀ f, View wltID f σ = (Err ErrWalletNotExist, σ)) ∧
  Remove wltID σ = (Ok tt, σ).
Proof.
  intros Hen Hid. destruct σ as [s wd].
  repeat split; intros;
    unfold EncryptWallet, DecryptWallet, NewAddresses, GetSkycoinAddresses, GetWallet,
      UpdateWalletLabel, GetWalletSeed, RecoverWallet, CreateTransaction,
      UpdateSecrets, Update, ViewSecrets, View, Remove;
    subst; run; try done.
  unfold withWallets; simpl. rewrite delete_id by done. by destruct s.
Qed.


Lemma ioFault_works wd :
  ioWorks (disk wd) →
  ioFault wd = (Ok false, mkWorld (heap wd) (mkDisk (dirs (disk wd)) (tail (faults (disk wd))))).
Proof.
  unfold ioWorks, ioFault. destruct wd as [h [ds [|[] fs]]]; simpl; done.
Qed.

Lemma ioFault_fails wd :
  head (faults (disk wd)) = Some true →
  ioFault wd = (Ok true, mkWorld (heap wd) (mkDisk (dirs (disk wd)) (tail (faults (disk wd))))).
Proof.
  unfold ioFault. destruct wd as [h [ds [|[] fs]]]; simpl; done.
Qed.

Lemma lockWallet_Ok v password ct l :
  lockWallet v password ct = Ok l →
  Filename l = Filename v ∧ IsEncrypted l = true ∧ timestamp l = timestamp v ∧
  length (Entries l) = length (Entries v) ∧
  firstAddress l = firstAddress v.
Proof.
  unfold lockWallet. destruct (IsEncrypted v); [done|].
  destruct (encryptSecrets _ _ _); [|done..].
  intros [= <-]. simpl. rewrite length_fmap. repeat split.
  unfold firstAddress. simpl. by destruct (Entries v).
Qed.

Lemma unlockWallet_Ok v password u :
  unlockWallet v password = Ok u →
  Filename u = Filename v ∧ IsEncrypted u = false ∧ IsEncrypted v = true.
Proof.
  unfold unlockWallet. destruct (IsEncrypted v); [|done]. simpl.
  destruct (secrets v); [|done].
  destruct (decryptSecrets _ _ _) as [[sd keys]| |]; [|done..].
  by intros [= <-].
Qed.

Lemma EncryptWallet_failure wltID password σ e σ' :
  EncryptWallet wltID password σ = (Err e, σ') → unchanged σ σ'.
Proof.
  destruct σ as [s wd]. unfold EncryptWallet, Lock, Save, Wallets_set, readDir, writeDir, ioFault.
  crunch; intros; simplify_eq; by frame.
Qed.

Lemma DecryptWallet_failure wltID password σ e σ' :
  DecryptWallet wltID password σ = (Err e, σ') → unchanged σ σ'.
Proof.
  destruct σ as [s wd]. unfold DecryptWallet, Unlock, Save, Wallets_set, readDir, writeDir, ioFault.
  crunch; intros; simplify_eq; by frame.
Qed.


Lemma EncryptWallet_success wltID password σ p v l fs :
  enableWalletAPI (serv σ) = true →
  wallets (serv σ) !! wltID = Some p →
  heap (world σ) !! p = Some v →
  lockWallet v password (cryptoType (serv σ)) = Ok l →
  ioWorks (disk (world σ)) →
  files σ !! walletDirectory (serv σ) = Some fs →
  ∃ σ', EncryptWallet wltID password σ = (Ok (length (heap (world σ))), σ') ∧
        heap (world σ') = heap (world σ) ++ [l; l] ∧
        wallets (serv σ') = <[Filename l := S (length (heap (world σ)))]> (wallets (serv σ)) ∧
        firstAddrIDMap (serv σ') = firstAddrIDMap (serv σ) ∧
        files σ' = <[walletDirectory (serv σ) := <[Filename l := WalletFile l]> fs]> (files σ).
Proof.
  intros Hen Hid Hp Hl Hio Hfs. destruct σ as [s wd].
  assert (IsEncrypted v = false) as Henc.
  { unfold lockWallet in Hl. by destruct (IsEncrypted v). }
  unfold EncryptWallet, Lock, Save, Wallets_set, readDir, writeDir. run.
  rewrite ioFault_works by done. unfold files in *. run.
  eexists; split; [done|]. simpl. repeat split.
  - by rewrite <-app_assoc.
  - by rewrite length_app, Nat.add_1_r.
Qed.

Lemma EncryptWallet_save_fails wltID password σ p v l :
  enableWalletAPI (serv σ) = true →
  wallets (serv σ) !! wltID = Some p →
  heap (world σ) !! p = Some v →
  lockWallet v password (cryptoType (serv σ)) = Ok l →
  head (faults (disk (world σ))) = Some true →
  ∃ σ', EncryptWallet wltID password σ = (Err ErrPersistence, σ').
Proof.
  intros Hen Hid Hp Hl Hio. destruct σ as [s wd].
  assert (IsEncrypted v = false) as Henc.
  { unfold lockWallet in Hl. by destruct (IsEncrypted v). }
  unfold EncryptWallet, Lock, Save, Wallets_set, readDir, writeDir. run.
  rewrite ioFault_fails by done. run. by eexists.
Qed.

Lemma DecryptWallet_success wltID password σ p v u fs :
  enableWalletAPI (serv σ) = true →
  wallets (serv σ) !! wltID = Some p →
  heap (world σ) !! p = Some v →
  unlockWallet v password = Ok u →
  ioWorks (disk (world σ)) →
  files σ !! walletDirectory (serv σ) = Some fs →
  ∃ σ', DecryptWallet wltID password σ = (Ok (S (length (heap (world σ)))), σ') ∧
        heap (world σ') = heap (world σ) ++ [v; u; u] ∧
        wallets (serv σ') = <[Filename u := S (S (length (heap (world σ))))]> (wallets (serv σ)) ∧
        firstAddrIDMap (serv σ') = firstAddrIDMap (serv σ) ∧
        files σ' = <[walletDirectory (serv σ) := <[Filename u := WalletFile u]> fs]> (files σ).
Proof.
  intros Hen Hid Hp Hl Hio Hfs. destruct σ as [s wd].
  destruct (unlockWallet_Ok _ _ _ Hl) as (_ & _ & Henc).
  unfold DecryptWallet, Unlock, Save, Wallets_set, readDir, writeDir. run.
  rewrite ioFault_works by done. unfold files in *. run.
  eexists; split; [by rewrite length_app, Nat.add_1_r|]. simpl. repeat split.
  - by rewrite <-!app_assoc.
  - by rewrite !length_app, !Nat.add_1_r.
Qed.

Lemma DecryptWallet_save_fails wltID password σ p v u :
  enableWalletAPI (serv σ) = true →
  wallets (serv σ) !! wltID = Some p →
  heap (world σ) !! p = Some v →
  unlockWallet v password = Ok u →
  head (faults (disk (world σ))) = Some true →
  ∃ σ', DecryptWallet wltID password σ = (Err ErrPersistence, σ').
Proof.
  intros Hen Hid Hp Hl Hio. destruct σ as [s wd].
  destruct (unlockWallet_Ok _ _ _ Hl) as (_ & _ & Henc).
  unfold DecryptWallet, Unlock, Save, Wallets_set, readDir, writeDir. run.
  rewrite ioFault_fails by done. run. by eexists.
Qed.


(** C7.  EncryptWallet on an encrypted wallet fails with ErrWalletEncrypted,
    DecryptWallet on a plaintext wallet with ErrWalletNotEncrypted, and a
    failure of either, of whatever kind, leaves the store and the files as
    they were.  Otherwise the wallet is locked (unlocked), then saved, then
    published: when the save fails nothing is published, and when it works
    the returned wallet is the locked (unlocked) one, its file holds it and
    the store holds it under its id. *)
Theorem encrypt_decrypt_protocol wltID password σ p v :
  enableWalletAPI (serv σ) = true →
  wallets (serv σ) !! wltID = Some p →
  heap (world σ) !! p = Some v →
  (IsEncrypted v = true →
     ∃ σ', EncryptWallet wltID password σ = (Err ErrWalletEncrypted, σ') ∧ unchanged σ σ') ∧
  (IsEncrypted v = false →
     ∃ σ', DecryptWallet wltID password σ = (Err ErrWalletNotEncrypted, σ') ∧ unchanged σ σ') ∧
  (∀ e σ', EncryptWallet wltID password σ = (Err e, σ') → unchanged σ σ') ∧
  (∀ e σ', DecryptWallet wltID password σ = (Err e, σ') → unchanged σ σ') ∧
  (∀ l, lockWallet v password (cryptoType (serv σ)) = Ok l →
     (head (faults (disk (world σ))) = Some true →
        ∃ σ', EncryptWallet wltID password σ = (Err ErrPersistence, σ') ∧ unchanged σ σ') ∧
     (∀ fs, ioWorks (disk (world σ)) → files σ !! walletDirectory (serv σ) = Some fs →
        ∃ q σ', EncryptWallet wltID password σ = (Ok q, σ') ∧
                heap (world σ') !! q = Some l ∧
                stored σ' (Filename l) = Some l ∧
                firstAddrIDMap (serv σ') = firstAddrIDMap (serv σ) ∧
                files σ' = <[walletDirectory (serv σ) :=
                              <[Filename l := WalletFile l]> fs]> (files σ))) ∧
  (∀ u, unlockWallet v password = Ok u →
     (head (faults (disk (world σ))) = Some true →
        ∃ σ', DecryptWallet wltID password σ = (Err ErrPersistence, σ') ∧ unchanged σ σ') ∧
     (∀ fs, ioWorks (disk (world σ)) → files σ !! walletDirectory (serv σ) = Some fs →
        ∃ q σ', DecryptWallet wltID password σ = (Ok q, σ') ∧
                heap (world σ') !! q = Some u ∧
                stored σ' (Filename u) = Some u ∧
                firstAddrIDMap (serv σ') = firstAddrIDMap (serv σ) ∧
                files σ' = <[walletDirectory (serv σ) :=
                              <[Filename u := WalletFile u]> fs]> (files σ))).
Proof.
  intros Hen Hid Hp. split_and!.
  - intros Henc. destruct σ as [s wd]. unfold EncryptWallet. run.
    eexists; split; [done|]. apply unchanged_alloc.
  - intros Henc. destruct σ as [s wd]. unfold DecryptWallet. run.
    eexists; split; [done|]. apply unchanged_alloc.
  - apply EncryptWallet_failure.
  - apply DecryptWallet_failure.
  - intros l Hl. split.
    + intros Hio.
      destruct (EncryptWallet_save_fails _ _ _ _ _ _ Hen Hid Hp Hl Hio) as [σ' E].
      exists σ'. split; [done|]. by eapply EncryptWallet_failure.
    + intros fs Hio Hfs.
      destruct (EncryptWallet_success _ _ _ _ _ _ _ Hen Hid Hp Hl Hio Hfs)
        as (σ' & E & Hh & Hw & Hi & Hf).
      eexists _, σ'. split; [done|]. split_and!; try done.
      * rewrite Hh. by rewrite lookup_app_r, Nat.sub_diag.
      * unfold stored. rewrite Hw, lookup_insert_eq. simpl. rewrite Hh.
        rewrite lookup_app_r by lia. by replace (S _ - _) with 1 by lia.
  - intros u Hu. split.
    + intros Hio.
      destruct (DecryptWallet_save_fails _ _ _ _ _ _ Hen Hid Hp Hu Hio) as [σ' E].
      exists σ'. split; [done|]. by eapply DecryptWallet_failure.
    + intros fs Hio Hfs.
      destruct (DecryptWallet_success _ _ _ _ _ _ _ Hen Hid Hp Hu Hio Hfs)
        as (σ' & E & Hh & Hw & Hi & Hf).
      eexists _, σ'. split; [done|]. split_and!; try done.
      * rewrite Hh. rewrite lookup_app_r by lia. by replace (S _ - _) with 1 by lia.
      * unfold stored. rewrite Hw, lookup_insert_eq. simpl. rewrite Hh.
        rewrite lookup_app_r by lia. by replace (S (S _) - _) with 2 by lia.
Qed.


Lemma generateUniqueWalletFilename_state names σ :
  (generateUniqueWalletFilename names σ).2 = σ.
Proof.
  induction names as [|n names IH]; simpl; [done|].
  unfold bind, Wallets_get, gets, ret. simpl.
  by destruct (wallets (serv σ) !! n).
Qed.

Lemma generateUniqueWalletFilename_unused names n σ :
  generateUniqueWalletFilename names σ = (Ok n, σ) → wallets (serv σ) !! n = None.
Proof.
  induction names as [|n' names IH]; simpl; [done|].
  unfold bind, Wallets_get, gets, ret. simpl.
  destruct (wallets (serv σ) !! n') eqn:E; [done|]. by intros [= <-].
Qed.

(** A supply that holds an unused name gives a name. *)
Lemma generateUniqueWalletFilename_returns names n σ :
  n ∈ names → wallets (serv σ) !! n = None →
  ∃ n', generateUniqueWalletFilename names σ = (Ok n', σ).
Proof.
  intros Hin Hn. induction names as [|n' names IH]; [by apply elem_of_nil in Hin|].
  simpl. unfold bind, Wallets_get, gets, ret. simpl.
  destruct (wallets (serv σ) !! n') eqn:E; [|by eexists].
  apply IH. apply elem_of_cons in Hin as [->|]; [congruence|done].
Qed.

Lemma loadWallet_failure now wltName options bg σ e σ' :
  loadWallet now wltName options bg σ = (Err e, σ') → unchanged σ σ'.
Proof.
  destruct σ as [s wd].
  unfold loadWallet, Wallets_add, Save, readDir, writeDir, ioFault.
  crunch; intros; simplify_eq; try by frame.
  all: split; [|by frame]; simpl; unfold withWallets; simpl;
    rewrite delete_insert_eq, delete_id by done; by destruct s.
Qed.


Lemma CreateWallet_loadWallet now names wltName name options bg σ :
  enableWalletAPI (serv σ) = true →
  (wltName ≠ ""%string ∧ name = wltName) ∨
  (wltName = ""%string ∧ generateUniqueWalletFilename names σ = (Ok name, σ)) →
  CreateWallet now names wltName options bg σ = loadWallet now name options bg σ.
Proof.
  intros Hen Hname. unfold CreateWallet, bind at 1, gets. simpl. rewrite Hen. simpl.
  unfold bind at 1. destruct Hname as [[Hne ->]|[-> Hgen]].
  - apply String.eqb_neq in Hne. by rewrite Hne.
  - simpl. by rewrite Hgen.
Qed.

(** C1.  A CreateWallet call that fails leaves the wallet map, the
    first-address index and the files as they were, whatever the error.  The
    two failures of the claim are among them: when the first address of the
    new wallet is in the index the call fails with ErrSeedUsed, and when the
    save fails it fails with the save's error, the wallet added to the map
    just before being taken out again. *)
Theorem CreateWallet_failure_frame now names wltName options bg σ :
  (∀ e σ', CreateWallet now names wltName options bg σ = (Err e, σ') → unchanged σ σ') ∧
  (∀ name v ent,
     enableWalletAPI (serv σ) = true →
     (wltName ≠ ""%string ∧ name = wltName) ∨
     (wltName = ""%string ∧ generateUniqueWalletFilename names σ = (Ok name, σ)) →
     NewWalletScanAhead now name
       (if optEncrypt options then setCryptoType options (cryptoType (serv σ)) else options)
       bg = Ok v →
     head (Entries v) = Some ent →
     (is_Some (firstAddrIDMap (serv σ) !! Address_String (EntryAddress ent)) →
        ∃ σ', CreateWallet now names wltName options bg σ = (Err ErrSeedUsed, σ')
              ∧ unchanged σ σ') ∧
     (firstAddrIDMap (serv σ) !! Address_String (EntryAddress ent) = None →
      wallets (serv σ) !! Filename v = None →
      head (faults (disk (world σ))) = Some true →
        ∃ σ', CreateWallet now names wltName options bg σ = (Err ErrPersistence, σ')
              ∧ unchanged σ σ')).
Proof.
  split.
  - intros e σ'. unfold CreateWallet, bind at 1, gets. simpl.
    destruct (enableWalletAPI (serv σ)); simpl.
    + unfold bind at 1.
      destruct (String.eqb wltName "").
      * pose proof (generateUniqueWalletFilename_state names σ) as Hst.
        destruct (generateUniqueWalletFilename names σ) as [[n| |] σ1];
          simpl in Hst; subst σ1; try by (intros; simplify_eq; apply unchanged_refl).
        apply loadWallet_failure.
      * simpl. apply loadWallet_failure.
    + intros [= <- <-]. apply unchanged_refl.
  - intros name v ent Hen Hname Hv Hent.
    rewrite (CreateWallet_loadWallet _ _ _ _ _ _ _ Hen Hname).
    destruct (Entries v) as [|ent' es] eqn:Hes; [done|]. simpl in Hent. simplify_eq.
    destruct σ as [s wd]. split.
    + intros [id Hidx]. unfold loadWallet. run.
      eexists; split; [done|]. by frame.
    + intros Hidx Hfree Hio.
      unfold loadWallet, Wallets_add, Save, readDir, writeDir. run.
      rewrite ioFault_fails by done. run.
      eexists; split; [done|]. split; [|by frame]. simpl. unfold withWallets; simpl.
      rewrite delete_insert_eq, delete_id by done. destruct s; simpl in *; by subst.
Qed.


Lemma deriveEntries_length c seed start n es :
  deriveEntries c seed start n = Ok es → length es = n.
Proof.
  revert start es. induction n as [|n IH]; intros start es; simpl.
  - by intros [= <-].
  - destruct (deriveEntry c seed start); [|done..].
    destruct (deriveEntries c seed (S start) n) eqn:E; [|done..].
    intros [= <-]. simpl. f_equal. by eapply IH.
Qed.

Lemma newWallet_Ok now name o v2 :
  newWallet now name o = Ok v2 →
  Filename v2 = name ∧
  length (Entries v2) = Nat.max 1 (optGenerateN o) ∧
  IsEncrypted v2 = optEncrypt o ∧
  ∃ kp, deriveKeyPair (optSeed o) 0 = Ok kp ∧
        firstAddress v2 = Some (addressConstructor (optCoin o) kp.1).
Proof.
  unfold newWallet.
  destruct (deriveEntries _ _ _ _) as [es| |] eqn:Hes; [|done..].
  pose proof (deriveEntries_length _ _ _ _ _ Hes) as Hlen.
  assert (∃ kp, deriveKeyPair (optSeed o) 0 = Ok kp ∧
                EntryAddress <$> head es = Some (addressConstructor (optCoin o) kp.1))
    as Hfirst.
  { destruct (Nat.max 1 (optGenerateN o)) as [|n] eqn:Hn; [lia|]. simpl in Hes.
    unfold deriveEntry in Hes.
    destruct (deriveKeyPair (optSeed o) 0) as [[pk sk]| |]; [|done..].
    destruct (deriveEntries _ _ 1 n); [|done..].
    injection Hes as <-. by exists (pk, sk). }
  destruct (optEncrypt o) eqn:Henc.
  - intros Hl. destruct (lockWallet_Ok _ _ _ _ Hl) as (Hf & He & _ & Hn & Ha).
    simpl in *. rewrite Ha. by rewrite Hn.
  - by intros [= <-].
Qed.


Lemma RecoverWallet_cases now wltName seed password σ r σ' :
  RecoverWallet now wltName seed password σ = (r, σ') →
  ((∀ q, r ≠ Ok q) ∧ unchanged σ σ') ∨
  (∃ p v ent kp v2,
     wallets (serv σ) !! wltName = Some p ∧ heap (world σ) !! p = Some v ∧
     IsEncrypted v = true ∧ head (Entries v) = Some ent ∧
     GenerateDeterministicKeyPair seed = Ok kp ∧
     addressConstructor (coin v) kp.1 = EntryAddress ent ∧
     newWallet now wltName
       (mkOptions (coin v) (Label v) seed (negb (length password =? 0)) password
                  (wltCryptoType v) (length (Entries v)) 0) = Ok v2 ∧
     r = Ok (3 + length (heap (world σ))) ∧
     heap (world σ') =
       heap (world σ) ++ [v; setTimestamp v2 (timestamp v);
                          setTimestamp v2 (timestamp v); setTimestamp v2 (timestamp v)] ∧
     wallets (serv σ') = <[wltName := 2 + length (heap (world σ))]> (wallets (serv σ)) ∧
     firstAddrIDMap (serv σ') = firstAddrIDMap (serv σ)).
Proof.
  destruct σ as [s wd].
  unfold RecoverWallet, NewWallet, Save, Wallets_set, readDir, writeDir, ioFault.
  crunch; intros; simplify_eq; try (left; split; [done|by frame]).
  all: right.
  all: destruct (newWallet_Ok _ _ _ _ Heqo2) as (Hname & _).
  all: eexists _, _, _, _, _; split_and!; try done; simpl.
  all: try by destruct (IsEncrypted w).
  all: try by rewrite Heql.
  all: try (by apply negb_false_iff, bool_decide_eq_true in Heqb2).
  all: try by rewrite Heql.
  all: try (by rewrite !length_app; simpl; do 2 f_equal; lia).
  all: try (by rewrite <-!app_assoc).
  all: try (rewrite Hname, !length_app; simpl; do 2 f_equal; lia).
Qed.


Lemma RecoverWallet_returns now wltName seed password σ p v ent kp v2 fs :
  enableWalletAPI (serv σ) = true →
  wallets (serv σ) !! wltName = Some p →
  heap (world σ) !! p = Some v →
  IsEncrypted v = true →
  wltType v = WalletTypeDeterministic →
  head (Entries v) = Some ent →
  GenerateDeterministicKeyPair seed = Ok kp →
  addressConstructor (coin v) kp.1 = EntryAddress ent →
  newWallet now wltName
    (mkOptions (coin v) (Label v) seed (negb (length password =? 0)) password
               (wltCryptoType v) (length (Entries v)) 0) = Ok v2 →
  ioWorks (disk (world σ)) →
  files σ !! walletDirectory (serv σ) = Some fs →
  ∃ q σ', RecoverWallet now wltName seed password σ = (Ok q, σ').
Proof.
  intros Hen Hid Hp Henc Hty Hent Hkp Haddr Hnew Hio Hfs. destruct σ as [s wd].
  destruct (Entries v) as [|ent' es] eqn:Hes; [done|]. simpl in Hent. simplify_eq.
  unfold RecoverWallet, NewWallet, Save, Wallets_set, readDir, writeDir. run.
  rewrite ?String.eqb_refl. run.
  rewrite bool_decide_eq_true_2 by done. run.
  rewrite ioFault_works by done. unfold files in *. run.
  by eexists _, _.
Qed.

(** C3, as amended.  For a stored wallet that is encrypted and
    deterministic, and a seed that gives a key pair: when the address derived
    from the seed differs from the address of the wallet's first entry,
    RecoverWallet fails with ErrWalletRecoverSeedWrong and changes nothing;
    when it is the same, the wallet RecoverWallet returns, which is also the
    one the store then holds under the id, has as many entries as the stored
    wallet had, the stored wallet's timestamp, and is encrypted exactly when
    the new password is not empty; and RecoverWallet does return it when the
    wallet can be rebuilt from the seed and the save works. *)
Theorem RecoverWallet_spec now wltName seed password σ p v ent kp :
  enableWalletAPI (serv σ) = true →
  wallets (serv σ) !! wltName = Some p →
  heap (world σ) !! p = Some v →
  IsEncrypted v = true →
  wltType v = WalletTypeDeterministic →
  head (Entries v) = Some ent →
  GenerateDeterministicKeyPair seed = Ok kp →
  (addressConstructor (coin v) kp.1 ≠ EntryAddress ent →
     ∃ σ', RecoverWallet now wltName seed password σ = (Err ErrWalletRecoverSeedWrong, σ')
           ∧ unchanged σ σ') ∧
  (addressConstructor (coin v) kp.1 = EntryAddress ent →
     (∀ q σ', RecoverWallet now wltName seed password σ = (Ok q, σ') →
        ∃ r, heap (world σ') !! q = Some r ∧ stored σ' wltName = Some r ∧
             length (Entries r) = length (Entries v) ∧
             timestamp r = timestamp v ∧
             (IsEncrypted r = true ↔ password ≠ [])) ∧
     (∀ v2 fs,
        newWallet now wltName
          (mkOptions (coin v) (Label v) seed (negb (length password =? 0)) password
                     (wltCryptoType v) (length (Entries v)) 0) = Ok v2 →
        ioWorks (disk (world σ)) →
        files σ !! walletDirectory (serv σ) = Some fs →
        ∃ q σ', RecoverWallet now wltName seed password σ = (Ok q, σ'))).
Proof.
  intros Hen Hid Hp Henc Hty Hent Hkp. split; [|split].
  - intros Hne. destruct σ as [s wd].
    destruct (Entries v) as [|ent' es] eqn:Hes; [done|]. simpl in Hent. simplify_eq.
    unfold RecoverWallet. run. rewrite ?String.eqb_refl. run.
    rewrite bool_decide_eq_false_2 by done. run.
    eexists; split; [done|]. apply unchanged_alloc.
  - intros q σ' Hrun.
    destruct (RecoverWallet_cases _ _ _ _ _ _ _ Hrun) as [[Hno _]|Hcase];
      [by destruct (Hno q)|].
    destruct Hcase as (p' & v' & ent' & kp' & v2 & Hid' & Hp' & _ & Hent' & _ & _ & Hnew
                       & Hq & Hh & Hw & _).
    rewrite Hid in Hid'. injection Hid' as <-.
    rewrite Hp in Hp'. injection Hp' as <-. injection Hq as ->.
    destruct (newWallet_Ok _ _ _ _ Hnew) as (Hname & Hlen & Hencr & _). simpl in *.
    exists (setTimestamp v2 (timestamp v)). split_and!.
    + rewrite Hh. rewrite lookup_app_r by lia.
      by replace (_ - _) with 3 by lia.
    + unfold stored. rewrite Hw, lookup_insert_eq. simpl. rewrite Hh.
      rewrite lookup_app_r by lia. by replace (_ - _) with 2 by lia.
    + simpl. rewrite Hlen. destruct (Entries v); [done|]. simpl. lia.
    + done.
    + simpl. rewrite Hencr, length_eqb_0.
      destruct password; simpl; split; done.
  - intros v2 fs Hnew Hio Hfs. by eapply RecoverWallet_returns.
Qed.


Lemma loadWallet_cases now wltName options bg σ r σ' :
  loadWallet now wltName options bg σ = (r, σ') →
  ((∀ q, r ≠ Ok q) ∧ unchanged σ σ') ∨
  (∃ v ent,
     head (Entries v) = Some ent ∧
     firstAddrIDMap (serv σ) !! Address_String (EntryAddress ent) = None ∧
     wallets (serv σ) !! Filename v = None ∧
     r = Ok (S (length (heap (world σ)))) ∧
     heap (world σ') = heap (world σ) ++ [v; v] ∧
     wallets (serv σ') = <[Filename v := length (heap (world σ))]> (wallets (serv σ)) ∧
     firstAddrIDMap (serv σ') =
       <[Address_String (EntryAddress ent) := Filename v]> (firstAddrIDMap (serv σ))).
Proof.
  destruct σ as [s wd].
  unfold loadWallet, Wallets_add, Save, readDir, writeDir, ioFault.
  crunch; intros; simplify_eq; try (left; split; [done|by frame]).
  all: try (left; split; [done|]; split; [|by frame]; simpl; unfold withWallets; simpl;
            rewrite delete_insert_eq, delete_id by done; by destruct s).
  all: right; eexists _, _; split_and!; try done; simpl.
  all: try by rewrite Heql.
  all: try (by rewrite length_app; simpl; do 2 f_equal; lia).
  all: try (by rewrite <-!app_assoc).
Qed.

Lemma CreateWallet_cases now names wltName options bg σ r σ' :
  CreateWallet now names wltName options bg σ = (r, σ') →
  ((∀ q, r ≠ Ok q) ∧ unchanged σ σ') ∨
  (∃ v ent,
     head (Entries v) = Some ent ∧
     firstAddrIDMap (serv σ) !! Address_String (EntryAddress ent) = None ∧
     wallets (serv σ) !! Filename v = None ∧
     r = Ok (S (length (heap (world σ)))) ∧
     heap (world σ') = heap (world σ) ++ [v; v] ∧
     wallets (serv σ') = <[Filename v := length (heap (world σ))]> (wallets (serv σ)) ∧
     firstAddrIDMap (serv σ') =
       <[Address_String (EntryAddress ent) := Filename v]> (firstAddrIDMap (serv σ))).
Proof.
  unfold CreateWallet, bind at 1, gets. simpl.
  destruct (enableWalletAPI (serv σ)); simpl.
  - unfold bind at 1. destruct (String.eqb wltName "").
    + pose proof (generateUniqueWalletFilename_state names σ) as Hst.
      destruct (generateUniqueWalletFilename names σ) as [[n| |] σ1];
        simpl in Hst; subst σ1;
        try by (intros; simplify_eq; left; split; [done|apply unchanged_refl]).
      apply loadWallet_cases.
    + simpl. apply loadWallet_cases.
  - intros [= <- <-]. left. split; [done|apply unchanged_refl].
Qed.

Lemma Remove_cases wltID σ r σ' :
  Remove wltID σ = (r, σ') →
  world σ' = world σ ∧
  (serv σ' = serv σ ∨
   wallets (serv σ') = delete wltID (wallets (serv σ)) ∧
   (firstAddrIDMap (serv σ') = firstAddrIDMap (serv σ) ∧
      (∀ p w, wallets (serv σ) !! wltID = Some p → heap (world σ) !! p = Some w →
              Entries w = [])
    ∨ ∃ p w a, wallets (serv σ) !! wltID = Some p ∧ heap (world σ) !! p = Some w ∧
               firstAddress w = Some a ∧
               firstAddrIDMap (serv σ') =
                 delete (Address_String a) (firstAddrIDMap (serv σ)))).
Proof.
  destruct σ as [s wd]. unfold Remove.
  crunch; intros; simplify_eq; simpl; (split; [done|]); auto.
  - right. split; [done|]. left. split; [done|]. intros; by simplify_eq.
  - right. split; [done|]. right. eexists _, _, _. split_and!; try done.
    unfold firstAddress. by rewrite Heql.
  - right. split; [done|]. left. split; [done|]. intros; by simplify_eq.
Qed.


Lemma copyOut_notStored σ q σ' : wfStore σ → copyOut σ q σ' → notStored σ' q.
Proof.
  intros Hwf [Hq Hw] id Hid.
  assert (∀ id, wallets (serv σ) !! id ≠ Some q) as Hold.
  { intros id' Hid'. apply Hwf in Hid'. apply lookup_lt_is_Some in Hid'. lia. }
  destruct Hw as [Hw|(fn & k & Hw & Hk)]; rewrite Hw in Hid.
  - by eapply Hold.
  - rewrite lookup_insert in Hid. case_decide; simplify_eq. by eapply Hold.
Qed.

Lemma notStored_mutate σ q v id :
  notStored σ q → stored (mutate q v σ) id = stored σ id.
Proof.
  intros Hq. unfold stored, mutate. simpl.
  destruct (wallets (serv σ) !! id) as [p|] eqn:Hp; simpl; [|done].
  apply list_lookup_insert_ne. intros ->. by eapply Hq.
Qed.

Lemma GetWallet_copyOut wltID σ q σ' :
  GetWallet wltID σ = (Ok q, σ') → copyOut σ q σ'.
Proof.
  destruct σ as [s wd]. unfold GetWallet, copyOut.
  crunch; intros; simplify_eq; simpl. auto.
Qed.

Lemma EncryptWallet_copyOut wltID password σ q σ' :
  EncryptWallet wltID password σ = (Ok q, σ') → copyOut σ q σ'.
Proof.
  destruct σ as [s wd].
  unfold EncryptWallet, Lock, Save, Wallets_set, readDir, writeDir, ioFault, copyOut.
  crunch; intros; simplify_eq; simpl; (split; [done|]); right; eexists _, _;
    (split; [done|]); rewrite ?length_app; simpl; lia.
Qed.

Lemma DecryptWallet_copyOut wltID password σ q σ' :
  DecryptWallet wltID password σ = (Ok q, σ') → copyOut σ q σ'.
Proof.
  destruct σ as [s wd].
  unfold DecryptWallet, Unlock, Save, Wallets_set, readDir, writeDir, ioFault, copyOut.
  crunch; intros; simplify_eq; simpl; rewrite ?length_app; simpl;
    (split; [lia|]); right; eexists _, _;
    (split; [done|]); rewrite ?length_app; simpl; lia.
Qed.

Lemma CreateWallet_copyOut now names wltName options bg σ q σ' :
  CreateWallet now names wltName options bg σ = (Ok q, σ') → copyOut σ q σ'.
Proof.
  intros Hrun. destruct (CreateWallet_cases _ _ _ _ _ _ _ _ Hrun) as [[Hno _]|Hc].
  - by destruct (Hno q).
  - destruct Hc as (v & ent & _ & _ & _ & [= ->] & _ & Hw & _).
    split; [lia|]. right. eexists _, _. split; [done|]. lia.
Qed.

Lemma RecoverWallet_copyOut now wltName seed password σ q σ' :
  RecoverWallet now wltName seed password σ = (Ok q, σ') → copyOut σ q σ'.
Proof.
  intros Hrun. destruct (RecoverWallet_cases _ _ _ _ _ _ _ Hrun) as [[Hno _]|Hc].
  - by destruct (Hno q).
  - destruct Hc as (p & v & ent & kp & v2 & _ & _ & _ & _ & _ & _ & _ & [= ->] & _ & Hw & _).
    split; [lia|]. right. eexists _, _. split; [done|]. lia.
Qed.

(** The loop of GetWallets: every clone is a new object. *)
Lemma GetWallets_loop (l : list (string * nat)) s wd r σ' :
  forM (λ kp : string * nat, let! q := liftW (clone kp.2) in ret (kp.1, q)) l
       (mkState s wd) = (Ok r, σ') →
  serv σ' = s ∧ length (heap wd) ≤ length (heap (world σ')) ∧
  Forall (λ kq, length (heap wd) ≤ kq.2) r.
Proof.
  revert wd r σ'. induction l as [|[k p] l IH]; intros wd r σ'; simpl.
  - unfold ret. by intros [= <- <-].
  - repeat (progress run_unfold). simpl.
    destruct (heap wd !! p) as [v|]; simpl; [|done].
    destruct (forM _ l _) as [[r'| |] σ1] eqn:Hl; [|done..].
    apply IH in Hl as (Hs & Hlen & Hall). simpl in *.
    intros [= <- <-]. rewrite length_app in *. simpl in *.
    split_and!; [done|lia|]. constructor; [simpl; lia|].
    eapply Forall_impl; [done|]. simpl. intros; lia.
Qed.


Lemma insert_mid h x y (k : list Wallet) :
  <[length h:=x]> ((h ++ [y]) ++ k) = (h ++ [x]) ++ k.
Proof.
  rewrite insert_app_l by (rewrite length_app; simpl; lia). by rewrite insert_snoc.
Qed.

Lemma lookup_mid h x (k : list Wallet) : ((h ++ [x]) ++ k) !! length h = Some x.
Proof.
  rewrite lookup_app_l by (rewrite length_app; simpl; lia). apply lookup_snoc.
Qed.

(** The loop of GetWallets: the clones, id by id, with the content of the
    wallets they are made of. *)
Lemma GetWallets_loop_content (l : list (string * nat)) s wd :
  Forall (λ kp, is_Some (heap wd !! kp.2)) l →
  ∃ r wd',
    forM (λ kp : string * nat, let! q := liftW (clone kp.2) in ret (kp.1, q)) l
         (mkState s wd) = (Ok r, mkState s wd') ∧
    r.*1 = l.*1 ∧ heap wd `prefix_of` heap wd' ∧ disk wd' = disk wd ∧
    Forall2 (λ kp kq, kq.1 = kp.1 ∧
                      ∀ w, heap wd !! kp.2 = Some w → heap wd' !! kq.2 = Some w) l r.
Proof.
  revert wd. induction l as [|[k p] l IH]; intros wd Hall; simpl.
  - exists [], wd. by destruct wd.
  - apply Forall_cons in Hall as [[v Hv] Hall]. simpl in Hv.
    destruct (IH (mkWorld (heap wd ++ [v]) (disk wd))) as (r & wd' & Hrun & Hk & Hpre & Hd & Hrel).
    { eapply Forall_impl; [done|]. simpl. intros kp [w Hw]. exists w.
      by apply lookup_app_l_Some. }
    simpl in *. run.
    exists ((k, length (heap wd)) :: r), wd'. split_and!; try done.
    + rewrite !fmap_cons. f_equal. exact Hk.
    + etrans; [|done]. by apply prefix_app_r.
    + constructor.
      * split; [done|]. simpl. intros w Hw. simplify_eq.
        eapply prefix_lookup_Some; [|done]. apply lookup_snoc.
      * eapply Forall2_impl; [done|]. simpl. intros kp kq [Hkq Hc]. split; [done|].
        intros w Hw. apply Hc. by apply lookup_app_l_Some.
Qed.

(** The wallet a call returns has the content of the wallet the store holds
    after the call. *)
Lemma GetWallet_copy wltID σ q σ' :
  GetWallet wltID σ = (Ok q, σ') →
  is_Some (stored σ' wltID) ∧ heap (world σ') !! q = stored σ' wltID.
Proof.
  destruct σ as [s wd]. unfold GetWallet, stored.
  crunch; intros; simplify_eq; simpl.
  match goal with
  | Hp : wallets s !! wltID = Some ?p, Hv : heap wd !! ?p = Some ?v |- _ =>
      rewrite Hp; simpl; rewrite (lookup_app_l_Some _ _ _ _ Hv), lookup_snoc
  end.
  by split.
Qed.

Lemma EncryptWallet_copy wltID password σ q σ' :
  EncryptWallet wltID password σ = (Ok q, σ') →
  ∃ l, heap (world σ') !! q = Some l ∧ stored σ' (Filename l) = Some l ∧
       IsEncrypted l = true.
Proof.
  destruct σ as [s wd].
  unfold EncryptWallet, Lock, Save, Wallets_set, readDir, writeDir, ioFault, stored.
  crunch; intros; simplify_eq; simpl.
  all: rewrite ?insert_mid in *; rewrite ?lookup_mid in *; simplify_eq.
  all: match goal with
       | H : lockWallet _ _ _ = Ok ?l |- _ =>
           exists l; apply lockWallet_Ok in H as (_ & Hl & _)
       end.
  all: rewrite lookup_insert_eq; simpl; split_and!; try done.
  all: first [apply lookup_mid|apply lookup_snoc].
Qed.

Lemma DecryptWallet_copy wltID password σ q σ' :
  DecryptWallet wltID password σ = (Ok q, σ') →
  ∃ u, heap (world σ') !! q = Some u ∧ stored σ' (Filename u) = Some u ∧
       IsEncrypted u = false.
Proof.
  destruct σ as [s wd].
  unfold DecryptWallet, Unlock, Save, Wallets_set, readDir, writeDir, ioFault, stored.
  crunch; intros; simplify_eq; simpl.
  all: rewrite ?lookup_mid in *; simplify_eq.
  all: match goal with
       | H : unlockWallet _ _ = Ok ?u |- _ =>
           exists u; apply unlockWallet_Ok in H as (_ & Hu & _)
       end.
  all: rewrite lookup_insert_eq; simpl; split_and!; try done.
  all: first [apply lookup_mid|apply lookup_snoc].
Qed.

Lemma CreateWallet_copy now names wltName options bg σ q σ' :
  CreateWallet now names wltName options bg σ = (Ok q, σ') →
  ∃ v, heap (world σ') !! q = Some v ∧ stored σ' (Filename v) = Some v.
Proof.
  intros Hrun. destruct (CreateWallet_cases _ _ _ _ _ _ _ _ Hrun) as [[Hno _]|Hc].
  - by destruct (Hno q).
  - destruct Hc as (v & ent & _ & _ & _ & [= ->] & Hh & Hw & _).
    exists v. unfold stored. rewrite Hw, Hh, lookup_insert_eq. simpl. split.
    + rewrite lookup_app_r by lia. by replace (_ - _) with 1 by lia.
    + by rewrite lookup_app_r, Nat.sub_diag by lia.
Qed.

Lemma RecoverWallet_copy now wltName seed password σ q σ' :
  RecoverWallet now wltName seed password σ = (Ok q, σ') →
  is_Some (stored σ' wltName) ∧ heap (world σ') !! q = stored σ' wltName.
Proof.
  intros Hrun. destruct (RecoverWallet_cases _ _ _ _ _ _ _ Hrun) as [[Hno _]|Hc].
  - by destruct (Hno q).
  - destruct Hc as (p & v & ent & kp & v2 & _ & _ & _ & _ & _ & _ & _ & [= ->] & Hh & Hw & _).
    unfold stored. rewrite Hw, Hh, lookup_insert_eq.
    rewrite (lookup_app_r _ _ (S _)) by lia. replace (S _ - _) with 3 by lia.
    simpl. rewrite lookup_app_r by lia. replace (_ - _) with 2 by lia.
    by split.
Qed.

Lemma GetWallets_copy σ ws σ' :
  wfStore σ →
  GetWallets σ = (Ok ws, σ') →
  (∀ id, is_Some (ws !! id) ↔ is_Some (wallets (serv σ') !! id)) ∧
  ∀ id q, ws !! id = Some q →
    notStored σ' q ∧ is_Some (stored σ' id) ∧ heap (world σ') !! q = stored σ' id.
Proof.
  intros Hwf. destruct σ as [s wd].
  destruct (GetWallets_loop_content (map_to_list (wallets s)) s wd)
    as (r & wd' & Hl & Hk & Hpre & _ & Hrel).
  { apply Forall_forall. intros [k p] Hin. apply elem_of_map_to_list in Hin.
    by eapply Hwf. }
  unfold GetWallets, bind at 1, gets at 1. simpl.
  destruct (enableWalletAPI s); simpl; [|done].
  unfold bind at 1, gets at 1. simpl. unfold bind at 1. rewrite Hl.
  unfold ret. intros [= <- <-]. simpl.
  apply GetWallets_loop in Hl as (_ & _ & Hall). simpl in *.
  assert (NoDup r.*1) as Hnd by (rewrite Hk; apply NoDup_fst_map_to_list).
  assert (∀ id q, (id, q) ∈ r →
            ∃ p w, wallets s !! id = Some p ∧ heap wd !! p = Some w ∧
                   heap wd' !! q = Some w ∧ heap wd' !! p = Some w) as Hin.
  { intros id q Hq. apply list_elem_of_lookup in Hq as [i Hi].
    destruct (Forall2_lookup_r _ _ _ _ _ Hrel Hi) as ([k p] & Hp & Hkq & Hc).
    simpl in *. subst k.
    assert (wallets s !! id = Some p) as Hid.
    { apply elem_of_map_to_list. by eapply list_elem_of_lookup_2. }
    destruct (Hwf _ _ Hid) as [w Hw]. simpl in Hw.
    exists p, w. split_and!; try done; [by apply Hc|by eapply prefix_lookup_Some]. }
  split.
  - intros id. split.
    + intros [q Hq]. apply elem_of_list_to_map_2 in Hq.
      destruct (Hin _ _ Hq) as (p & w & Hp & _). by eexists.
    + intros [p Hp]. apply elem_of_map_to_list, list_elem_of_lookup in Hp as [i Hi].
      destruct (Forall2_lookup_l _ _ _ _ _ Hrel Hi) as ([k q] & Hq & Hkq & _).
      simpl in *. subst k. exists q.
      apply elem_of_list_to_map_1; [done|]. by eapply list_elem_of_lookup_2.
  - intros id q Hq. apply elem_of_list_to_map_2 in Hq.
    destruct (Hin _ _ Hq) as (p & w & Hp & Hw & Hq' & Hp').
    rewrite Forall_forall in Hall. apply Hall in Hq. simpl in Hq.
    unfold stored. simpl. rewrite Hp. simpl. rewrite Hq', Hp'. split_and!; try done.
    eapply (copyOut_notStored (mkState s wd)); [done|]. split; [done|]. by left.
Qed.

(** C9.  In a state whose wallet map points to wallet objects, the wallet a
    method of the service returns (each wallet of the map GetWallets returns)
    is a copy of a wallet of the store.  It has the content of the wallet the
    store holds after the call: under the id asked for (GetWallet,
    RecoverWallet, and id by id for GetWallets, whose map has exactly the ids
    of the store), or under the wallet's file name (CreateWallet,
    EncryptWallet, DecryptWallet).  And it is not an object of the store: no
    pointer of the wallet map, as the call leaves it, is the returned one.
    So whatever the caller writes into the returned wallet, the wallets the
    store holds stay as they are. *)
Theorem returned_wallets_are_copies σ :
  wfStore σ →
  (∀ wltID q σ', GetWallet wltID σ = (Ok q, σ') →
     notStored σ' q ∧ is_Some (stored σ' wltID) ∧
     heap (world σ') !! q = stored σ' wltID) ∧
  (∀ ws σ', GetWallets σ = (Ok ws, σ') →
     (∀ id, is_Some (ws !! id) ↔ is_Some (wallets (serv σ') !! id)) ∧
     ∀ id q, ws !! id = Some q →
       notStored σ' q ∧ is_Some (stored σ' id) ∧ heap (world σ') !! q = stored σ' id) ∧
  (∀ now names wltName options bg q σ',
     CreateWallet now names wltName options bg σ = (Ok q, σ') →
     notStored σ' q ∧
     ∃ v, heap (world σ') !! q = Some v ∧ stored σ' (Filename v) = Some v) ∧
  (∀ wltID password q σ', EncryptWallet wltID password σ = (Ok q, σ') →
     notStored σ' q ∧
     ∃ l, heap (world σ') !! q = Some l ∧ stored σ' (Filename l) = Some l ∧
          IsEncrypted l = true) ∧
  (∀ wltID password q σ', DecryptWallet wltID password σ = (Ok q, σ') →
     notStored σ' q ∧
     ∃ u, heap (world σ') !! q = Some u ∧ stored σ' (Filename u) = Some u ∧
          IsEncrypted u = false) ∧
  (∀ now wltName seed password q σ',
     RecoverWallet now wltName seed password σ = (Ok q, σ') →
     notStored σ' q ∧ is_Some (stored σ' wltName) ∧
     heap (world σ') !! q = stored σ' wltName) ∧
  (∀ σ' q, notStored σ' q → ∀ v id, stored (mutate q v σ') id = stored σ' id).
Proof.
  intros Hwf. split_and!.
  - intros wltID q σ' Hrun. split.
    + eapply copyOut_notStored, GetWallet_copyOut; done.
    + exact (GetWallet_copy _ _ _ _ Hrun).
  - intros ws σ' Hrun. exact (GetWallets_copy _ _ _ Hwf Hrun).
  - intros now names wltName options bg q σ' Hrun. split.
    + eapply copyOut_notStored, CreateWallet_copyOut; done.
    + exact (CreateWallet_copy _ _ _ _ _ _ _ _ Hrun).
  - intros wltID password q σ' Hrun. split.
    + eapply copyOut_notStored, EncryptWallet_copyOut; done.
    + exact (EncryptWallet_copy _ _ _ _ _ Hrun).
  - intros wltID password q σ' Hrun. split.
    + eapply copyOut_notStored, DecryptWallet_copyOut; done.
    + exact (DecryptWallet_copy _ _ _ _ _ Hrun).
  - intros now wltName seed password q σ' Hrun. split.
    + eapply copyOut_notStored, RecoverWallet_copyOut; done.
    + exact (RecoverWallet_copy _ _ _ _ _ _ _ Hrun).
  - intros σ' q Hq v id. by apply notStored_mutate.
Qed.


(** *** The invariant of the store *)

Lemma indexed_distinct σ : indexed σ → distinctFirstAddresses σ.
Proof.
  intros Hidx id1 id2 w1 w2 a H1 H2 Ha1 Ha2. unfold stored in *.
  destruct (wallets (serv σ) !! id1) as [p1|] eqn:Hp1; simpl in H1; [|done].
  destruct (wallets (serv σ) !! id2) as [p2|] eqn:Hp2; simpl in H2; [|done].
  destruct (Hidx _ _ Hp1) as (w1' & a1 & Hw1 & Hf1 & Hi1).
  destruct (Hidx _ _ Hp2) as (w2' & a2 & Hw2 & Hf2 & Hi2).
  simplify_eq. congruence.
Qed.

Lemma indexed_wfStore σ : indexed σ → wfStore σ.
Proof. intros Hidx id p Hp. destruct (Hidx _ _ Hp) as (w & a & Hw & _). by eexists. Qed.

Lemma unchanged_indexed σ σ' : unchanged σ σ' → indexed σ → indexed σ'.
Proof.
  intros (Hs & _ & Hpre) Hidx id p Hp. rewrite Hs in *.
  destruct (Hidx _ _ Hp) as (w & a & Hw & Hf & Hi).
  exists w, a. split_and!; try done. by eapply prefix_lookup_Some.
Qed.

Lemma CreateWallet_indexed now names wltName options bg σ :
  indexed σ → indexed (CreateWallet now names wltName options bg σ).2.
Proof.
  intros Hidx.
  destruct (CreateWallet now names wltName options bg σ) as [r σ'] eqn:Hrun. simpl.
  destruct (CreateWallet_cases _ _ _ _ _ _ _ _ Hrun) as [[_ Hun]|Hc];
    [by eapply unchanged_indexed|].
  destruct Hc as (v & ent & Hent & Hnew & Hfree & _ & Hh & Hw & Hi).
  intros id p Hp. rewrite Hw in Hp. rewrite Hh, Hi.
  rewrite lookup_insert in Hp. case_decide; simplify_eq.
  - exists v, (EntryAddress ent). split_and!.
    + by rewrite lookup_app_r, Nat.sub_diag.
    + unfold firstAddress. by rewrite Hent.
    + by rewrite lookup_insert_eq.
  - destruct (Hidx _ _ Hp) as (w & a & Hw' & Hf & Hi').
    exists w, a. split_and!; try done.
    + by apply lookup_app_l_Some.
    + rewrite lookup_insert_ne; [done|]. intros Heq. rewrite <-Heq in Hi'. congruence.
Qed.

Lemma Remove_indexed wltID σ : indexed σ → indexed (Remove wltID σ).2.
Proof.
  intros Hidx. destruct (Remove wltID σ) as [r σ'] eqn:Hrun. simpl.
  destruct (Remove_cases _ _ _ _ Hrun) as (Hwd & [Hs|(Hw & Hc)]).
  - intros id p Hp. rewrite Hs in *. rewrite Hwd. by apply Hidx.
  - intros id p Hp. rewrite Hw in Hp. rewrite Hwd.
    rewrite lookup_delete in Hp. case_decide; [done|].
    destruct (Hidx _ _ Hp) as (w & a & Hw' & Hf & Hi).
    exists w, a. split_and!; try done.
    destruct Hc as [[-> _]|(p0 & w0 & a0 & Hp0 & Hw0 & Hf0 & ->)]; [done|].
    rewrite lookup_delete_ne; [done|]. intros Heq.
    destruct (Hidx _ _ Hp0) as (w1 & a1 & Hw1 & Hf1 & Hi1). simplify_eq. congruence.
Qed.

Lemma firstAddress_setTimestamp v t : firstAddress (setTimestamp v t) = firstAddress v.
Proof. done. Qed.

Lemma RecoverWallet_indexed now wltName seed password σ :
  indexed σ → indexed (RecoverWallet now wltName seed password σ).2.
Proof.
  intros Hidx.
  destruct (RecoverWallet now wltName seed password σ) as [r σ'] eqn:Hrun. simpl.
  destruct (RecoverWallet_cases _ _ _ _ _ _ _ Hrun) as [[_ Hun]|Hc];
    [by eapply unchanged_indexed|].
  destruct Hc as (p0 & v & ent & kp & v2 & Hp0 & Hv & _ & Hent & Hkp & Haddr & Hnew
                  & _ & Hh & Hw & Hi).
  destruct (newWallet_Ok _ _ _ _ Hnew) as (_ & _ & _ & kp' & Hkp' & Hf2). simpl in *.
  unfold GenerateDeterministicKeyPair in Hkp. rewrite Hkp in Hkp'. injection Hkp' as <-.
  rewrite Haddr in Hf2.
  destruct (Hidx _ _ Hp0) as (v' & a & Hv' & Hf & Hi0).
  rewrite Hv in Hv'. injection Hv' as <-.
  assert (a = EntryAddress ent) as ->.
  { unfold firstAddress in Hf. rewrite Hent in Hf. simpl in Hf. congruence. }
  intros id p Hp. rewrite Hw in Hp. rewrite Hh, Hi.
  rewrite lookup_insert in Hp. case_decide; simplify_eq.
  - exists (setTimestamp v2 (timestamp v)), (EntryAddress ent). split_and!; try done.
    rewrite lookup_app_r by lia. by replace (_ - _) with 2 by lia.
  - destruct (Hidx _ _ Hp) as (w & a & Hw' & Hf' & Hi').
    exists w, a. split_and!; try done. by apply lookup_app_l_Some.
Qed.


(** *** The load at start-up *)

Lemma addrKey_cons w e es :
  Entries w = e :: es → addrKey w = Some (Address_String (EntryAddress e)).
Proof. intros He. unfold addrKey, firstAddress. by rewrite He. Qed.

Lemma addrKey_nil w : Entries w = [] → addrKey w = None.
Proof. intros He. unfold addrKey, firstAddress. by rewrite He. Qed.

Lemma dupScan_false seen l :
  dupScan seen l = false ↔ NoDup (addrKeys l) ∧ ∀ a, a ∈ addrKeys l → a ∉ seen.
Proof.
  revert seen. induction l as [|[k w] l IH]; intros seen; simpl.
  - split; [intros _|done]. split; [constructor|]. intros a Ha. by apply elem_of_nil in Ha.
  - unfold addrKeys. simpl. fold (addrKeys l).
    destruct (Entries w) as [|e es] eqn:He.
    + rewrite (addrKey_nil _ He). apply IH.
    + rewrite (addrKey_cons _ _ _ He). case_decide as Hin.
      * split; [done|]. intros [_ Hdis]. exfalso. eapply Hdis; [|done]. by left.
      * rewrite IH. rewrite NoDup_cons. split.
        -- intros [Hnd Hdis]. split_and!; try done.
           ++ intros Ha. apply Hdis in Ha. destruct Ha.
              by apply elem_of_union_l, elem_of_singleton.
           ++ intros a Ha. apply elem_of_cons in Ha as [->|Ha]; [done|].
              apply Hdis in Ha. intros Hs. apply Ha. by apply elem_of_union_r.
        -- intros [[Hna Hnd] Hdis]. split; [done|].
           intros a Ha. apply not_elem_of_union. split.
           ++ apply not_elem_of_singleton. intros ->. done.
           ++ apply Hdis. by right.
Qed.

Lemma NoDup_addrKeys_inj l (x y : string * Wallet) a :
  NoDup (addrKeys l) → x ∈ l → y ∈ l →
  addrKey x.2 = Some a → addrKey y.2 = Some a → x = y.
Proof.
  induction l as [|z l IH]; intros Hnd Hx Hy Hax Hay; [by apply elem_of_nil in Hx|].
  assert (∀ u, u ∈ l → addrKey u.2 = Some a → a ∈ addrKeys l) as Hmem.
  { intros u Hu Hau. unfold addrKeys. apply list_elem_of_omap. by exists u. }
  unfold addrKeys in Hnd. simpl in Hnd. fold (addrKeys l) in Hnd.
  apply elem_of_cons in Hx as [->|Hx]; apply elem_of_cons in Hy as [->|Hy]; try done.
  - rewrite Hax in Hnd. apply NoDup_cons in Hnd as [Hna _]. destruct Hna. by eapply Hmem.
  - rewrite Hay in Hnd. apply NoDup_cons in Hnd as [Hna _]. destruct Hna. by eapply Hmem.
  - apply IH; try done. destruct (addrKey z.2); [by apply NoDup_cons in Hnd as [_ ?]|done].
Qed.

Lemma indexAll_notin l idx a :
  a ∉ addrKeys l → indexAll l idx !! a = idx !! a.
Proof.
  revert idx. induction l as [|[k w] l IH]; intros idx Ha; simpl; [done|].
  unfold addrKeys in Ha. simpl in Ha. fold (addrKeys l) in Ha.
  unfold indexAll in *. simpl. destruct (addrKey w) as [b|].
  - apply not_elem_of_cons in Ha as [Hab Ha]. rewrite IH by done.
    by rewrite lookup_insert_ne.
  - by apply IH.
Qed.

Lemma indexAll_lookup l idx k w a :
  NoDup (addrKeys l) → (k, w) ∈ l → addrKey w = Some a →
  indexAll l idx !! a = Some k.
Proof.
  revert idx. induction l as [|[k' w'] l IH]; intros idx Hnd Hin Ha;
    [by apply elem_of_nil in Hin|].
  unfold addrKeys in Hnd. simpl in Hnd. fold (addrKeys l) in Hnd.
  unfold indexAll in *. simpl.
  apply elem_of_cons in Hin as [[= <- <-]|Hin].
  - rewrite Ha in *. apply NoDup_cons in Hnd as [Hna _].
    fold (indexAll l (<[a:=k]> idx)). rewrite indexAll_notin by done.
    by rewrite lookup_insert_eq.
  - apply IH; try done. destruct (addrKey w'); [by apply NoDup_cons in Hnd as [_ ?]|done].
Qed.

Lemma elem_of_resolve h kps k w :
  (k, w) ∈ resolve h kps ↔ ∃ p, (k, p) ∈ kps ∧ h !! p = Some w.
Proof.
  unfold resolve. rewrite list_elem_of_omap. split.
  - intros ([k' p] & Hin & Hw). simpl in Hw.
    destruct (h !! p) eqn:Hp; simplify_eq/=. by exists p.
  - intros (p & Hin & Hp). exists (k, p). split; [done|]. simpl. by rewrite Hp.
Qed.

Lemma derefAll_valid (kps : list (string * nat)) wd :
  Forall (λ kp, is_Some (heap wd !! kp.2)) kps →
  forM (λ kp : string * nat, let! w := load kp.2 in ret (kp.1, w)) kps wd =
    (Ok (resolve (heap wd) kps), wd).
Proof.
  induction kps as [|[k p] kps IH]; intros Hall; simpl; [done|].
  apply Forall_cons in Hall as [[w Hw] Hall]. simpl in Hw.
  repeat (progress run_unfold). simpl. rewrite Hw. simpl.
  rewrite (IH Hall). unfold resolve. simpl. by rewrite ?Hw.
Qed.

Lemma forM_loadFile fl wd r wd' :
  forM loadFile fl wd = (Ok r, wd') →
  heap wd `prefix_of` heap wd' ∧ disk wd' = disk wd ∧
  Forall (λ kp, is_Some (heap wd' !! kp.2)) r.
Proof.
  revert wd r wd'. induction fl as [|[n f] fl IH]; intros wd r wd'; simpl.
  - unfold ret. intros [= <- <-]. by split_and!.
  - unfold loadFile at 1. simpl.
    destruct f as [w|]; repeat (progress run_unfold); simpl; [|done].
    destruct (forM loadFile fl _) as [[r'| |] wd1] eqn:Hl; [|done..].
    apply IH in Hl as (Hpre & Hd & Hall). simpl in *.
    intros [= <- <-]. split_and!.
    + etrans; [|done]. by apply prefix_app_r.
    + done.
    + constructor; [|done]. simpl.
      eapply prefix_lookup_Some in Hpre as ->; [done|]. apply lookup_snoc.
Qed.

Lemma LoadWallets_valid dir wd (wlts : gmap string nat) wd' :
  LoadWallets dir wd = (Ok wlts, wd') →
  ∀ id p, wlts !! id = Some p → is_Some (heap wd' !! p).
Proof.
  unfold LoadWallets, readDir, ioFault.
  crunch; intros; simplify_eq;
    match goal with
    | Hl : forM loadFile _ _ = _, Hw : list_to_map _ !! _ = Some _ |- _ =>
        apply forM_loadFile in Hl as (_ & _ & Hall);
        apply elem_of_list_to_map_2 in Hw;
        rewrite Forall_forall in Hall; by apply Hall in Hw
    end.
Qed.


Lemma emptyScan_false l k w :
  emptyScan l = false → (k, w) ∈ l → Entries w ≠ [].
Proof.
  unfold emptyScan. induction l as [|[k' w'] l IH]; simpl; intros He Hin;
    [by apply elem_of_nil in Hin|].
  apply orb_false_iff in He as [Hw He].
  apply elem_of_cons in Hin as [[= <- <-]|Hin]; [|by apply IH].
  by destruct (Entries w).
Qed.

Lemma emptyScan_true l k w :
  (k, w) ∈ l → Entries w = [] → emptyScan l = true.
Proof.
  unfold emptyScan. induction l as [|[k' w'] l IH]; simpl; intros Hin He;
    [by apply elem_of_nil in Hin|].
  apply elem_of_cons in Hin as [[= <- <-]|Hin].
  - by rewrite He.
  - rewrite (IH Hin He). apply orb_true_r.
Qed.

Lemma valid_map_to_list (wlts : gmap string nat) wd :
  (∀ id p, wlts !! id = Some p → is_Some (heap wd !! p)) →
  Forall (λ kp, is_Some (heap wd !! kp.2)) (map_to_list wlts).
Proof.
  intros Hv. apply Forall_forall. intros [k p] Hin.
  apply elem_of_map_to_list in Hin. by eapply Hv.
Qed.

Lemma containsDuplicate_eval (wlts : gmap string nat) wd :
  (∀ id p, wlts !! id = Some p → is_Some (heap wd !! p)) →
  containsDuplicate wlts wd =
    (Ok (dupScan ∅ (resolve (heap wd) (map_to_list wlts))), wd).
Proof.
  intros Hv. unfold containsDuplicate, derefAll, bind at 1.
  by rewrite derefAll_valid by by apply valid_map_to_list.
Qed.

Lemma containsEmpty_eval (wlts : gmap string nat) wd :
  (∀ id p, wlts !! id = Some p → is_Some (heap wd !! p)) →
  containsEmpty wlts wd =
    (Ok (emptyScan (resolve (heap wd) (map_to_list wlts))), wd).
Proof.
  intros Hv. unfold containsEmpty, derefAll, bind at 1.
  by rewrite derefAll_valid by by apply valid_map_to_list.
Qed.

Lemma setWallets_loop (kps : list (string * nat)) s wd :
  Forall (λ kp, ∃ w, heap wd !! kp.2 = Some w ∧ Entries w ≠ []) kps →
  ∃ us,
    forM (λ kp : string * nat,
            let! e := liftW (firstEntry kp.2) in
            modify (withFirstAddrIDMap (insert (Address_String (EntryAddress e)) kp.1)))
         kps (mkState s wd) =
      (Ok us, withFirstAddrIDMap (indexAll (resolve (heap wd) kps)) (mkState s wd)).
Proof.
  revert s. induction kps as [|[k p] kps IH]; intros s Hall; simpl.
  - exists []. unfold ret, withFirstAddrIDMap. simpl. by destruct s.
  - apply Forall_cons in Hall as [(w & Hw & Hne) Hall]. simpl in Hw.
    destruct (Entries w) as [|e es] eqn:He; [done|].
    repeat (progress run_unfold). simpl. rewrite Hw. simpl. rewrite He. simpl.
    destruct (IH (serv (withFirstAddrIDMap
                          (insert (Address_String (EntryAddress e)) k) (mkState s wd)))
                 Hall) as [us Hus].
    unfold withFirstAddrIDMap in *. simpl in *. rewrite Hus.
    exists (tt :: us). unfold resolve. simpl. rewrite ?Hw. simpl.
    unfold indexAll. simpl. by rewrite (addrKey_cons _ _ _ He).
Qed.


Lemma setWallets_indexed (wlts : gmap string nat) s wd r σ' :
  (∀ id p, wlts !! id = Some p → is_Some (heap wd !! p)) →
  dupScan ∅ (resolve (heap wd) (map_to_list wlts)) = false →
  emptyScan (resolve (heap wd) (map_to_list wlts)) = false →
  setWallets wlts (mkState s wd) = (r, σ') →
  r = Ok tt ∧ world σ' = wd ∧ wallets (serv σ') = wlts ∧ indexed σ'.
Proof.
  intros Hv Hdup Hemp. unfold setWallets, bind at 1, modify. simpl.
  unfold bind at 1.
  set (l := resolve (heap wd) (map_to_list wlts)) in *.
  assert (∀ k p, wlts !! k = Some p →
            ∃ w, heap wd !! p = Some w ∧ (k, w) ∈ l ∧ Entries w ≠ []) as Hin.
  { intros k p Hp. destruct (Hv _ _ Hp) as [w Hw]. exists w.
    assert ((k, w) ∈ l) as Hl.
    { apply elem_of_resolve. exists p. split; [by apply elem_of_map_to_list|done]. }
    split_and!; try done. by eapply emptyScan_false. }
  unfold withWallets. simpl.
  edestruct (setWallets_loop (map_to_list wlts)) as [us ->].
  { apply Forall_forall. intros [k p] Hkp. apply elem_of_map_to_list in Hkp.
    destruct (Hin _ _ Hkp) as (w & Hw & _ & Hne). by exists w. }
  unfold ret. intros [= <- <-]. simpl. split_and!; try done.
  intros id p Hp. simpl in *.
  destruct (Hin _ _ Hp) as (w & Hw & Hl & Hne).
  destruct (Entries w) as [|e es] eqn:He; [done|].
  exists w, (EntryAddress e). split_and!; try done.
  - unfold firstAddress. by rewrite He.
  - apply dupScan_false in Hdup as [Hnd _].
    eapply indexAll_lookup; [done..|]. by eapply addrKey_cons.
Qed.

Lemma NewService_body_cases c s wd r σ' :
  NewService_body c (mkState s wd) = (r, σ') →
  (enableWalletAPI s = false ∧ r = Ok tt ∧ σ' = mkState s wd) ∨
  (enableWalletAPI s = true ∧ (∀ x, r ≠ Ok x) ∧
     ∀ wd1 wd2 wd3 (wlts : gmap string nat),
       ¬ (MkdirAll (WalletDir c) wd = (Ok tt, wd1) ∧
          removeBackupFiles (WalletDir c) wd1 = (Ok tt, wd2) ∧
          LoadWallets (WalletDir c) wd2 = (Ok wlts, wd3))) ∨
  (enableWalletAPI s = true ∧
   ∃ wd1 wd2 wd3 (wlts : gmap string nat),
     MkdirAll (WalletDir c) wd = (Ok tt, wd1) ∧
     removeBackupFiles (WalletDir c) wd1 = (Ok tt, wd2) ∧
     LoadWallets (WalletDir c) wd2 = (Ok wlts, wd3) ∧
     world σ' = wd3 ∧
     let l := resolve (heap wd3) (map_to_list wlts) in
     (dupScan ∅ l = true ∧ r = Err ErrDuplicateWallet ∨
      dupScan ∅ l = false ∧ emptyScan l = true ∧ r = Err ErrEmptyWallet ∨
      dupScan ∅ l = false ∧ emptyScan l = false ∧ r = Ok tt ∧
        wallets (serv σ') = wlts ∧ indexed σ')).
Proof.
  unfold NewService_body.
  unfold bind at 1, gets. simpl.
  destruct (enableWalletAPI s) eqn:Hen; simpl; intros Hrun;
    [|injection Hrun as <- <-; by left].
  right. revert Hrun.
  unfold bind at 1, wrapErr, liftW. simpl.
  destruct (MkdirAll (WalletDir c) wd) as [[[]|e|a] wd1] eqn:Hmk; simpl.
  2,3: intros [= <- <-]; left; split_and!; try done;
       intros ???? (? & _); congruence.
  unfold bind at 1, modify. simpl. unfold bind at 1, gets. simpl.
  unfold bind at 1. simpl.
  destruct (removeBackupFiles (WalletDir c) wd1) as [[[]|e|a] wd2] eqn:Hrm; simpl.
  2,3: intros [= <- <-]; left; split_and!; try done;
       intros ???? (? & ? & _); congruence.
  unfold bind at 1. simpl.
  destruct (LoadWallets (WalletDir c) wd2) as [[wlts|e|a] wd3] eqn:Hld; simpl.
  2,3: intros [= <- <-]; left; split_and!; try done;
       intros ???? (? & ? & ?); congruence.
  pose proof (LoadWallets_valid _ _ _ _ Hld) as Hv.
  unfold bind at 1. simpl. rewrite (containsDuplicate_eval _ _ Hv). simpl.
  destruct (dupScan _ _) eqn:Hdup.
  { intros [= <- <-]. right. split; [done|]. eexists _, _, _, _. split_and!; try done.
    simpl. by left. }
  unfold bind at 1. simpl. rewrite (containsEmpty_eval _ _ Hv). simpl.
  destruct (emptyScan _) eqn:Hemp.
  { intros [= <- <-]. right. split; [done|]. eexists _, _, _, _. split_and!; try done.
    simpl. right. by left. }
  intros Hset. apply setWallets_indexed in Hset as (-> & Hwd & Hw & Hi); try done.
  right. split; [done|]. eexists _, _, _, _. split_and!; try done.
  simpl. right. right. done.
Qed.


Lemma NewService_indexed c wd s wd' :
  NewService c wd = (Ok s, wd') → indexed (mkState s wd').
Proof.
  unfold NewService.
  destruct (NewService_body c _) as [[[]|e|a] σ1] eqn:Hb; [|done..].
  intros [= <- <-].
  apply NewService_body_cases in Hb
    as [(_ & _ & ->)|[(_ & Hno & _)|(_ & wd1 & wd2 & wd3 & wlts & _ & _ & _ & _ & Hc)]].
  - intros id p Hp. simpl in Hp. by rewrite lookup_empty in Hp.
  - by destruct (Hno tt).
  - simpl in Hc. destruct Hc as [[_ ?]|[(_ & _ & ?)|(_ & _ & _ & _ & Hi)]]; [done..|].
    by destruct σ1.
Qed.

Lemma sharesFirstAddress_dupScan (wlts : gmap string nat) wd :
  sharesFirstAddress wlts wd →
  dupScan ∅ (resolve (heap wd) (map_to_list wlts)) = true.
Proof.
  intros (id1 & id2 & p1 & p2 & w1 & w2 & a & Hne & Hp1 & Hp2 & Hw1 & Hw2 & Ha1 & Ha2).
  destruct (dupScan _ _) eqn:Hdup; [done|]. exfalso.
  apply dupScan_false in Hdup as [Hnd _].
  assert ((id1, w1) = (id2, w2)) as Heq; [|congruence].
  eapply (NoDup_addrKeys_inj _ _ _ (Address_String a) Hnd).
  - apply elem_of_resolve. exists p1. split; [by apply elem_of_map_to_list|done].
  - apply elem_of_resolve. exists p2. split; [by apply elem_of_map_to_list|done].
  - unfold addrKey. simpl. by rewrite Ha1.
  - unfold addrKey. simpl. by rewrite Ha2.
Qed.

Lemma hasEmptyWallet_emptyScan (wlts : gmap string nat) wd :
  hasEmptyWallet wlts wd →
  emptyScan (resolve (heap wd) (map_to_list wlts)) = true.
Proof.
  intros (id & p & w & Hp & Hw & He).
  eapply (emptyScan_true _ id w); [|done].
  apply elem_of_resolve. exists p. split; [by apply elem_of_map_to_list|done].
Qed.

(** C2.  In every state the service can be in (after NewService, and after
    any sequence of CreateWallet, Remove and RecoverWallet calls, whatever
    their outcomes) no two wallets of the store share a first address, and
    every wallet of the store has a first address that the index maps to the
    wallet's id.  And NewService returns an error and no service when two of
    the wallets it has loaded share a first address or one of them has no
    entry. *)
Theorem store_invariant :
  (∀ σ, reachable σ → distinctFirstAddresses σ ∧ indexed σ) ∧
  (∀ c wd wd1 wd2 wd3 (wlts : gmap string nat),
     EnableWalletAPI c = true →
     MkdirAll (WalletDir c) wd = (Ok tt, wd1) →
     removeBackupFiles (WalletDir c) wd1 = (Ok tt, wd2) →
     LoadWallets (WalletDir c) wd2 = (Ok wlts, wd3) →
     (sharesFirstAddress wlts wd3 →
        NewService c wd = (Err ErrDuplicateWallet, wd3)) ∧
     (hasEmptyWallet wlts wd3 →
        ∃ e, NewService c wd = (Err e, wd3) ∧
             (e = ErrDuplicateWallet ∨ e = ErrEmptyWallet))).
Proof.
  split.
  - intros σ Hr. cut (indexed σ); [intros Hi; split; [by apply indexed_distinct|done]|].
    induction Hr as [c wd wd' s Hnew|o σ Hr IH].
    + by eapply NewService_indexed.
    + destruct o; simpl.
      * by apply CreateWallet_indexed.
      * by apply Remove_indexed.
      * by apply RecoverWallet_indexed.
  - intros c wd wd1 wd2 wd3 wlts Hen Hmk Hrm Hld.
    unfold NewService.
    destruct (NewService_body c _) as [r σ1] eqn:Hb.
    apply NewService_body_cases in Hb
      as [(Hdis & _)|[(_ & _ & Hno)|(_ & wd1' & wd2' & wd3' & wlts' & Hmk' & Hrm' & Hld'
                                     & Hwd & Hc)]].
    + simpl in Hdis. congruence.
    + destruct (Hno wd1 wd2 wd3 wlts). done.
    + rewrite Hmk in Hmk'. injection Hmk' as <-.
      rewrite Hrm in Hrm'. injection Hrm' as <-.
      rewrite Hld in Hld'. injection Hld' as <- <-.
      simpl in Hc. split.
      * intros Hsh. apply sharesFirstAddress_dupScan in Hsh.
        destruct Hc as [[_ ->]|[(Hd & _)|(Hd & _)]]; [by rewrite Hwd|congruence..].
      * intros Hem. apply hasEmptyWallet_emptyScan in Hem.
        destruct Hc as [[_ ->]|[(_ & _ & ->)|(_ & He & _)]]; [| |congruence].
        -- exists ErrDuplicateWallet. rewrite Hwd. auto.
        -- exists ErrEmptyWallet. rewrite Hwd. auto.
Qed.

(** * More of the service *)

(** ** The switch of the wallet API *)

(** X1.  With the wallet API switched off, every method of the service
    returns ErrWalletAPIDisabled, and nothing at all has changed: not the
    service, not the wallet objects, not the storage medium. *)
Theorem api_disabled_refuses σ :
  enableWalletAPI (serv σ) = false →
  (∀ now names wltName options bg,
     CreateWallet now names wltName options bg σ = (Err ErrWalletAPIDisabled, σ)) ∧
  (∀ wltID password, EncryptWallet wltID password σ = (Err ErrWalletAPIDisabled, σ)) ∧
  (∀ wltID password, DecryptWallet wltID password σ = (Err ErrWalletAPIDisabled, σ)) ∧
  (∀ wltID password num,
     NewAddresses wltID password num σ = (Err ErrWalletAPIDisabled, σ)) ∧
  (∀ wltID, GetSkycoinAddresses wltID σ = (Err ErrWalletAPIDisabled, σ)) ∧
  (∀ wltID, GetWallet wltID σ = (Err ErrWalletAPIDisabled, σ)) ∧
  GetWallets σ = (Err ErrWalletAPIDisabled, σ) ∧
  (∀ params auxs headTime,
     CreateTransaction params auxs headTime σ = (Err ErrWalletAPIDisabled, σ)) ∧
  (∀ wltID label, UpdateWalletLabel wltID label σ = (Err ErrWalletAPIDisabled, σ)) ∧
  (∀ wltID, Remove wltID σ = (Err ErrWalletAPIDisabled, σ)) ∧
  (∀ wltID password, GetWalletSeed wltID password σ = (Err ErrWalletAPIDisabled, σ)) ∧
  (∀ wltID password f,
     UpdateSecrets wltID password f σ = (Err ErrWalletAPIDisabled, σ)) ∧
  (∀ wltID f, Update wltID f σ = (Err ErrWalletAPIDisabled, σ)) ∧
  (∀ wltID password f,
     ViewSecrets wltID password f σ = (Err ErrWalletAPIDisabled, σ)) ∧
  (∀ wltID f, View wltID f σ = (Err ErrWalletAPIDisabled, σ)) ∧
  (∀ now wltName seed password,
     RecoverWallet now wltName seed password σ = (Err ErrWalletAPIDisabled, σ)).
Proof.
  intros Hoff.
  split_and!; intros;
    unfold CreateWallet, EncryptWallet, DecryptWallet, NewAddresses, GetSkycoinAddresses,
      GetWallet, GetWallets, CreateTransaction, UpdateWalletLabel, Remove, GetWalletSeed,
      UpdateSecrets, Update, ViewSecrets, View, RecoverWallet;
    unfold bind at 1, gets at 1; simpl; rewrite Hoff; reflexivity.
Qed.

Lemma unchanged_trans σ1 σ2 σ3 : unchanged σ1 σ2 → unchanged σ2 σ3 → unchanged σ1 σ3.
Proof.
  intros (Hs1 & Hf1 & Hp1) (Hs2 & Hf2 & Hp2). split_and!; [congruence..|by etrans].
Qed.

Lemma unchanged_settings σ σ' : unchanged σ σ' → settings (serv σ') = settings (serv σ).
Proof. by intros [-> _]. Qed.

(** The loop of GetWallets, whatever its outcome. *)
Lemma GetWallets_loop_frame (l : list (string * nat)) s wd :
  let σ' := (forM (λ kp : string * nat, let! q := liftW (clone kp.2) in ret (kp.1, q)) l
                  (mkState s wd)).2 in
  unchanged (mkState s wd) σ' ∧ disk (world σ') = disk wd.
Proof.
  revert wd. induction l as [|[k p] l IH]; intros wd; simpl.
  - split; [apply unchanged_refl|done].
  - repeat (progress run_unfold). simpl.
    destruct (heap wd !! p) as [v|]; simpl; [|split; [apply unchanged_refl|done]].
    specialize (IH (mkWorld (heap wd ++ [v]) (disk wd))). simpl in IH.
    destruct (forM _ l _) as [[r'| |] σ1] eqn:Hl; simpl in *;
      (split; [eapply unchanged_trans; [apply (unchanged_alloc s wd [v])|apply IH]
              |apply IH]).
Qed.

(** ** The calls that only read *)

(** A state in which nothing of the service, the wallet objects that existed
    and the storage medium has changed. *)
Lemma GetWallet_frame wltID σ :
  unchanged σ (GetWallet wltID σ).2 ∧ disk (world (GetWallet wltID σ).2) = disk (world σ).
Proof. destruct σ as [s wd]. unfold GetWallet. crunch; frame. Qed.

Lemma GetWallets_frame σ :
  unchanged σ (GetWallets σ).2 ∧ disk (world (GetWallets σ).2) = disk (world σ).
Proof.
  destruct σ as [s wd]. destruct (GetWallets _) as [r σ'] eqn:Hrun. simpl.
  revert Hrun. unfold GetWallets, bind at 1, gets at 1. simpl.
  destruct (negb (enableWalletAPI s)); simpl; [intros [= <- <-]; by frame|].
  unfold bind at 1, gets at 1. simpl. unfold bind at 1.
  pose proof (GetWallets_loop_frame (map_to_list (wallets s)) s wd) as Hu.
  simpl in Hu. destruct (forM _ _ _) as [[l| |] σ1]; by intros [= <- <-].
Qed.

Lemma GetSkycoinAddresses_frame wltID σ :
  unchanged σ (GetSkycoinAddresses wltID σ).2 ∧
  disk (world (GetSkycoinAddresses wltID σ).2) = disk (world σ).
Proof. destruct σ as [s wd]. unfold GetSkycoinAddresses. crunch; frame. Qed.

Lemma View_frame wltID f σ :
  unchanged σ (View wltID f σ).2 ∧ disk (world (View wltID f σ).2) = disk (world σ).
Proof. destruct σ as [s wd]. unfold View, runCallback. crunch; frame. Qed.

Lemma ViewSecrets_frame wltID password f σ :
  unchanged σ (ViewSecrets wltID password f σ).2 ∧
  disk (world (ViewSecrets wltID password f σ).2) = disk (world σ).
Proof.
  destruct σ as [s wd]. unfold ViewSecrets, runCallback, GuardView, Unlock, discard.
  crunch; frame.
Qed.


(** ** The settings of the service *)

Lemma loadWallet_settings now wltName options bg σ :
  settings (serv (loadWallet now wltName options bg σ).2) = settings (serv σ).
Proof.
  destruct σ as [s wd].
  unfold loadWallet, Wallets_add, Save, readDir, writeDir, ioFault.
  crunch; reflexivity.
Qed.

Lemma CreateWallet_settings now names wltName options bg σ :
  settings (serv (CreateWallet now names wltName options bg σ).2) = settings (serv σ).
Proof.
  unfold CreateWallet, bind at 1, gets at 1. simpl.
  destruct (negb (enableWalletAPI (serv σ))); simpl; [done|].
  unfold bind at 1. destruct (String.eqb wltName ""); [|apply loadWallet_settings].
  pose proof (generateUniqueWalletFilename_state names σ) as Hst.
  destruct (generateUniqueWalletFilename names σ) as [[n| |] σ1]; simpl in Hst;
    subst σ1; [apply loadWallet_settings|done..].
Qed.

(** X3.  No method ever changes the wallet directory, the crypto type or the
    two API switches of the service, whatever its arguments and its outcome:
    they stay as NewService has set them. *)
Theorem settings_are_fixed σ :
  (∀ now names wltName options bg,
     settings (serv (CreateWallet now names wltName options bg σ).2) = settings (serv σ)) ∧
  (∀ wltID password,
     settings (serv (EncryptWallet wltID password σ).2) = settings (serv σ)) ∧
  (∀ wltID password,
     settings (serv (DecryptWallet wltID password σ).2) = settings (serv σ)) ∧
  (∀ wltID password num,
     settings (serv (NewAddresses wltID password num σ).2) = settings (serv σ)) ∧
  (∀ wltID, settings (serv (GetSkycoinAddresses wltID σ).2) = settings (serv σ)) ∧
  (∀ wltID, settings (serv (GetWallet wltID σ).2) = settings (serv σ)) ∧
  settings (serv (GetWallets σ).2) = settings (serv σ) ∧
  (∀ params auxs headTime,
     settings (serv (CreateTransaction params auxs headTime σ).2) = settings (serv σ)) ∧
  (∀ wltID label,
     settings (serv (UpdateWalletLabel wltID label σ).2) = settings (serv σ)) ∧
  (∀ wltID, settings (serv (Remove wltID σ).2) = settings (serv σ)) ∧
  (∀ wltID password,
     settings (serv (GetWalletSeed wltID password σ).2) = settings (serv σ)) ∧
  (∀ wltID password f,
     settings (serv (UpdateSecrets wltID password f σ).2) = settings (serv σ)) ∧
  (∀ wltID f, settings (serv (Update wltID f σ).2) = settings (serv σ)) ∧
  (∀ wltID password f,
     settings (serv (ViewSecrets wltID password f σ).2) = settings (serv σ)) ∧
  (∀ wltID f, settings (serv (View wltID f σ).2) = settings (serv σ)) ∧
  (∀ now wltName seed password,
     settings (serv (RecoverWallet now wltName seed password σ).2) = settings (serv σ)).
Proof.
  split_and!; intros.
  - apply CreateWallet_settings.
  - destruct σ as [s wd].
    unfold EncryptWallet, Lock, Save, Wallets_set, readDir, writeDir, ioFault.
    crunch; reflexivity.
  - destruct σ as [s wd].
    unfold DecryptWallet, Unlock, Save, Wallets_set, readDir, writeDir, ioFault.
    crunch; reflexivity.
  - destruct σ as [s wd].
    unfold NewAddresses, generateAddresses, GuardUpdate, Lock, Unlock, discard, Save,
      Wallets_set, readDir, writeDir, ioFault.
    crunch; reflexivity.
  - apply unchanged_settings, GetSkycoinAddresses_frame.
  - apply unchanged_settings, GetWallet_frame.
  - apply unchanged_settings, GetWallets_frame.
  - destruct σ as [s wd].
    unfold CreateTransaction, buildTransaction, GuardView, Unlock, discard.
    crunch; reflexivity.
  - destruct σ as [s wd].
    unfold UpdateWalletLabel, Save, Wallets_set, readDir, writeDir, ioFault.
    crunch; reflexivity.
  - destruct σ as [s wd]. unfold Remove. crunch; reflexivity.
  - destruct σ as [s wd]. unfold GetWalletSeed, GuardView, Unlock, discard.
    crunch; reflexivity.
  - destruct σ as [s wd].
    unfold UpdateSecrets, runCallback, GuardUpdate, Lock, Unlock, discard, Save,
      Wallets_set, readDir, writeDir, ioFault.
    crunch; reflexivity.
  - destruct σ as [s wd].
    unfold Update, runCallback, Save, Wallets_set, readDir, writeDir, ioFault.
    crunch; reflexivity.
  - apply unchanged_settings, ViewSecrets_frame.
  - apply unchanged_settings, View_frame.
  - destruct σ as [s wd].
    unfold RecoverWallet, NewWallet, Save, Wallets_set, readDir, writeDir, ioFault.
    crunch; reflexivity.
Qed.

(** ** NewService *)

Lemma forM_no_Err {S A B : Type} (f : A → M S B) (l : list A) :
  (∀ a s e s', f a s ≠ (Err e, s')) → ∀ s e s', forM f l s ≠ (Err e, s').
Proof.
  intros Hf. induction l as [|a l IH]; intros s e s'; simpl; [done|].
  unfold bind at 1. destruct (f a s) as [[b| |] s1] eqn:Ha.
  - unfold bind. specialize (IH s1). by destruct (forM f l s1) as [[bs| |] s2].
  - by destruct (Hf a s e0 s1).
  - done.
Qed.

Lemma derefAll_run (wlts : gmap string nat) wd r wd' :
  derefAll wlts wd = (r, wd') → wd' = wd ∧ ∀ e, r ≠ Err e.
Proof.
  unfold derefAll. generalize (map_to_list wlts). intros l. revert r wd'.
  induction l as [|[k p] l IH]; intros r wd'; simpl.
  - by intros [= <- <-].
  - run. destruct (heap wd !! p) as [v|]; simpl; [|by intros [= <- <-]].
    destruct (forM _ l wd) as [[bs| |] wd1] eqn:Hl;
      destruct (IH _ _ eq_refl) as [-> Hne]; intros [= <- <-]; try done.
Qed.

Lemma containsDuplicate_run (wlts : gmap string nat) wd r wd' :
  containsDuplicate wlts wd = (r, wd') → wd' = wd ∧ ∀ e, r ≠ Err e.
Proof.
  unfold containsDuplicate, bind.
  destruct (derefAll wlts wd) as [[l|e| ] wd1] eqn:Hd;
    destruct (derefAll_run _ _ _ _ Hd) as [-> Hne]; intros [= <- <-]; try done.
  by destruct (Hne e).
Qed.

Lemma containsEmpty_run (wlts : gmap string nat) wd r wd' :
  containsEmpty wlts wd = (r, wd') → wd' = wd ∧ ∀ e, r ≠ Err e.
Proof.
  unfold containsEmpty, bind.
  destruct (derefAll wlts wd) as [[l|e| ] wd1] eqn:Hd;
    destruct (derefAll_run _ _ _ _ Hd) as [-> Hne]; intros [= <- <-]; try done.
  by destruct (Hne e).
Qed.

Lemma setWallets_no_Err (wlts : gmap string nat) σ e σ' :
  setWallets wlts σ ≠ (Err e, σ').
Proof.
  unfold setWallets, bind at 1, modify at 1. unfold bind at 1.
  pose proof (forM_no_Err
    (λ kp : string * nat,
       let! e := liftW (firstEntry kp.2) in
       modify (withFirstAddrIDMap (insert (Address_String (EntryAddress e)) kp.1)))
    (map_to_list wlts)) as Hl.
  destruct (forM _ _ _) as [[us| |] σ1] eqn:Hrun; [done| |done].
  exfalso. eapply Hl; [|exact Hrun].
  intros [k p] [s wd] e1 s'. crunch; done.
Qed.

(** X4.  An error of NewService names the step that failed: ErrMkdirFailed
    when the wallet directory could not be made, ErrRemoveBackupFailed when
    the backup files could not be removed, ErrLoadWalletsFailed when the
    wallets could not be loaded, and otherwise ErrDuplicateWallet or
    ErrEmptyWallet for the wallets that were loaded.  With the wallet API
    switched off NewService cannot fail. *)
Theorem NewService_errors c wd e wd' :
  NewService c wd = (Err e, wd') →
  EnableWalletAPI c = true ∧
  ((e = ErrMkdirFailed ∧ ∃ e0, MkdirAll (WalletDir c) wd = (Err e0, wd')) ∨
   (e = ErrRemoveBackupFailed ∧
      ∃ wd1 e0, MkdirAll (WalletDir c) wd = (Ok tt, wd1) ∧
                removeBackupFiles (WalletDir c) wd1 = (Err e0, wd')) ∨
   (e = ErrLoadWalletsFailed ∧
      ∃ wd1 wd2 e0, MkdirAll (WalletDir c) wd = (Ok tt, wd1) ∧
                    removeBackupFiles (WalletDir c) wd1 = (Ok tt, wd2) ∧
                    LoadWallets (WalletDir c) wd2 = (Err e0, wd')) ∨
   ((e = ErrDuplicateWallet ∨ e = ErrEmptyWallet) ∧
      ∃ wd1 wd2 (wlts : gmap string nat),
        MkdirAll (WalletDir c) wd = (Ok tt, wd1) ∧
        removeBackupFiles (WalletDir c) wd1 = (Ok tt, wd2) ∧
        LoadWallets (WalletDir c) wd2 = (Ok wlts, wd'))).
Proof.
  unfold NewService.
  destruct (NewService_body c _) as [[[]|e1|a] σ1] eqn:Hb; [done| |done].
  intros [= -> <-]. revert Hb.
  unfold NewService_body. crunch; intros; simplify_eq.
  all: repeat match goal with
       | H : containsDuplicate _ _ = _ |- _ =>
           apply containsDuplicate_run in H as [-> ?]
       | H : containsEmpty _ _ = _ |- _ => apply containsEmpty_run in H as [-> ?]
       | H : setWallets _ _ = (Err _, _) |- _ => by destruct (setWallets_no_Err _ _ _ _ H)
       end; try done.
  all: repeat match goal with
       | a : () |- _ => destruct a
       | H : negb _ = false |- _ => apply negb_false_iff in H
       end.
  all: try match goal with
           | H : ∀ e0 : Error, Err ?e ≠ Err e0 |- _ => by destruct (H e)
           end.
  all: simpl; split; [done|]; eauto 12.
Qed.

Lemma setWallets_loop_settings (kps : list (string * nat)) σ :
  let σ' := (forM (λ kp : string * nat,
                     let! e := liftW (firstEntry kp.2) in
                     modify (withFirstAddrIDMap
                               (insert (Address_String (EntryAddress e)) kp.1)))
                  kps σ).2 in
  settings (serv σ') = settings (serv σ) ∧ wallets (serv σ') = wallets (serv σ) ∧
  world σ' = world σ.
Proof.
  revert σ. induction kps as [|[k p] kps IH]; intros [s wd]; simpl; [done|].
  run. destruct (heap wd !! p) as [v|]; simpl; [|done].
  destruct (Entries v) as [|e es]; run; [done|].
  match goal with |- context [forM ?f kps ?st] => specialize (IH st) end.
  simpl in IH. by destruct (forM _ kps _) as [[us| |] σ1].
Qed.

Lemma setWallets_settings (wlts : gmap string nat) σ :
  settings (serv (setWallets wlts σ).2) = settings (serv σ) ∧
  world (setWallets wlts σ).2 = world σ.
Proof.
  destruct (setWallets wlts σ) as [r σ'] eqn:Hrun. simpl. revert Hrun.
  unfold setWallets, bind at 1, modify at 1. unfold bind at 1.
  pose proof (setWallets_loop_settings (map_to_list wlts)
                (withWallets (λ _, wlts) σ)) as (Hs & _ & Hw).
  simpl in *. by destruct (forM _ _ _) as [[us| |] σ1]; intros [= <- <-].
Qed.

Lemma removeBackupFiles_Ok dir wd wd' :
  removeBackupFiles dir wd = (Ok tt, wd') → is_Some (dirs (disk wd') !! dir).
Proof.
  unfold removeBackupFiles, readDir, writeDir, ioFault.
  crunch; intros; simplify_eq; simpl; by rewrite lookup_insert_eq.
Qed.

Lemma LoadWallets_dirs dir wd (wlts : gmap string nat) wd' :
  LoadWallets dir wd = (Ok wlts, wd') → dirs (disk wd') = dirs (disk wd).
Proof.
  unfold LoadWallets, readDir, ioFault.
  crunch; intros; simplify_eq;
    match goal with
    | Hl : forM loadFile _ _ = _ |- _ => apply forM_loadFile in Hl as (_ & -> & _)
    end; done.
Qed.

(** X5.  The service NewService returns has the crypto type and the two API
    switches of the configuration.  With the wallet API switched off it is
    the empty service and the storage medium has not been touched: no
    directory is made, no file is read.  With the wallet API switched on its
    wallet directory is the configured one, and that directory exists. *)
Theorem NewService_made c wd s wd' :
  NewService c wd = (Ok s, wd') →
  cryptoType s = CryptoType c ∧
  enableWalletAPI s = EnableWalletAPI c ∧
  enableSeedAPI s = EnableSeedAPI c ∧
  (EnableWalletAPI c = false →
     s = mkService ∅ ∅ ""%string (CryptoType c) false (EnableSeedAPI c) ∧ wd' = wd) ∧
  (EnableWalletAPI c = true →
     walletDirectory s = WalletDir c ∧ is_Some (dirs (disk wd') !! WalletDir c)).
Proof.
  unfold NewService.
  destruct (NewService_body c _) as [[[]|e1|a] σ1] eqn:Hb; [|done..].
  intros [= <- <-]. revert Hb.
  unfold NewService_body. crunch; intros; simplify_eq; simpl.
  { apply negb_true_iff in Heqb. rewrite Heqb. by split_and!. }
  all: repeat match goal with
       | a : () |- _ => destruct a
       | H : negb _ = _ |- _ => first [apply negb_false_iff in H|apply negb_true_iff in H]
       | H : containsDuplicate _ _ = _ |- _ =>
           apply containsDuplicate_run in H as [-> ?]
       | H : containsEmpty _ _ = _ |- _ => apply containsEmpty_run in H as [-> ?]
       end.
  match goal with
  | H : setWallets ?m ?st = (_, σ1) |- _ =>
      destruct (setWallets_settings m st) as [Hs Hw]; rewrite H in Hs, Hw;
      simpl in Hs, Hw
  end.
  injection Hs as Hd Hc Hen Hseed. rewrite Hw.
  split_and!; try congruence.
  intros _. split; [done|].
  erewrite LoadWallets_dirs by done. by eapply removeBackupFiles_Ok.
Qed.

(** ** What the read calls return *)

(** X6.  GetWallet and GetWallets return the stored wallets by value.  For a
    stored id GetWallet returns a new wallet object with the content of the
    stored wallet.  GetWallets returns a map with exactly the ids of the store,
    and under each id a wallet object with the content of the wallet stored
    under that id. *)
Theorem read_calls_return_stored σ :
  enableWalletAPI (serv σ) = true →
  wfStore σ →
  (∀ wltID v, stored σ wltID = Some v →
     ∃ q σ', GetWallet wltID σ = (Ok q, σ') ∧ heap (world σ') !! q = Some v ∧
             heap (world σ) !! q = None) ∧
  (∃ ws σ', GetWallets σ = (Ok ws, σ') ∧
            (∀ id, is_Some (ws !! id) ↔ is_Some (wallets (serv σ) !! id)) ∧
            (∀ id, ws !! id ≫= (λ q, heap (world σ') !! q) = stored σ id)).
Proof.
  intros Hen Hwf. destruct σ as [s wd]. simpl in *. split.
  - intros wltID v Hst. unfold stored in Hst. simpl in Hst.
    destruct (wallets s !! wltID) as [p|] eqn:Hp; [simpl in Hst|done].
    unfold GetWallet. run. eexists _, _. split; [done|]. simpl.
    split; [apply lookup_snoc|]. by apply lookup_ge_None.
  - destruct (GetWallets_loop_content (map_to_list (wallets s)) s wd)
      as (r & wd' & Hrun & Hk & Hpre & _ & Hrel).
    { apply valid_map_to_list. intros id p Hp. by eapply Hwf. }
    unfold GetWallets, bind at 1, gets at 1. simpl. rewrite Hen. simpl.
    unfold bind at 1, gets at 1. simpl. unfold bind at 1. rewrite Hrun.
    eexists _, _. split; [done|]. simpl.
    assert (NoDup r.*1) as Hnd by (rewrite Hk; apply NoDup_fst_map_to_list).
    assert (∀ id p, wallets s !! id = Some p →
              ∃ q, list_to_map (M := gmap string nat) r !! id = Some q ∧
                   heap wd' !! q = heap wd !! p) as Hin.
    { intros id p Hp. apply elem_of_map_to_list, list_elem_of_lookup in Hp as [i Hi].
      destruct (Forall2_lookup_l _ _ _ _ _ Hrel Hi) as ([k q] & Hq & Hkq & Hc).
      simpl in *. subst k. exists q. split.
      - apply elem_of_list_to_map_1; [done|]. by eapply list_elem_of_lookup_2.
      - destruct (Hwf id p) as [w Hw].
        { apply elem_of_map_to_list. by eapply list_elem_of_lookup_2. }
        simpl in Hw. rewrite Hw. by apply Hc. }
    assert (∀ id, wallets s !! id = None →
              list_to_map (M := gmap string nat) r !! id = None) as Hout.
    { intros id Hnone. apply not_elem_of_list_to_map_1. rewrite Hk.
      intros ([k p] & -> & Hin')%list_elem_of_fmap.
      apply elem_of_map_to_list in Hin'. simpl in *. congruence. }
    split; intros id; unfold stored; simpl;
      destruct (wallets s !! id) as [p|] eqn:Hp.
    + destruct (Hin _ _ Hp) as (q & -> & _). by split.
    + rewrite (Hout _ Hp). by split.
    + destruct (Hin _ _ Hp) as (q & -> & Hq). done.
    + by rewrite (Hout _ Hp).
Qed.

(** ** CreateWallet *)

(** X7.  generateUniqueWalletFilename returns the first of the generated file
    names that no wallet of the store has, skipping the names that are taken;
    it changes nothing and never returns an error. *)
Theorem generateUniqueWalletFilename_first_free names σ :
  (∀ taken n rest,
     names = taken ++ n :: rest →
     Forall (λ m, is_Some (wallets (serv σ) !! m)) taken →
     wallets (serv σ) !! n = None →
     generateUniqueWalletFilename names σ = (Ok n, σ)) ∧
  (∀ n σ',
     generateUniqueWalletFilename names σ = (Ok n, σ') →
     σ' = σ ∧ wallets (serv σ) !! n = None ∧
     ∃ taken rest, names = taken ++ n :: rest ∧
                   Forall (λ m, is_Some (wallets (serv σ) !! m)) taken) ∧
  (∀ e σ', generateUniqueWalletFilename names σ ≠ (Err e, σ')).
Proof.
  split_and!.
  - intros taken n rest -> Htaken Hn.
    induction Htaken as [|m taken [p Hm] _ IH]; simpl;
      unfold bind, Wallets_get, gets, ret; simpl.
    + by rewrite Hn.
    + rewrite Hm. exact IH.
  - induction names as [|m names IH]; intros n σ'; simpl; [done|].
    unfold bind, Wallets_get, gets, ret. simpl.
    destruct (wallets (serv σ) !! m) as [p|] eqn:Hm.
    + intros Hrun. destruct (IH _ _ Hrun) as (-> & Hn & taken & rest & -> & Htaken).
      split_and!; try done. exists (m :: taken), rest. split; [done|].
      constructor; [by eexists|done].
    + intros [= <- <-]. split_and!; try done. by exists [], names.
  - induction names as [|m names IH]; intros e σ'; simpl; [done|].
    unfold bind, Wallets_get, gets, ret. simpl.
    destruct (wallets (serv σ) !! m); [apply IH|done].
Qed.

(** X8.  CreateWallet, for a wallet whose first address is not yet in the
    index: when the wallet's file name is taken the call fails with
    ErrWalletNameConflict and neither store nor files change; when it is free
    and the save works, the wallet is stored under its file name, its first
    address is entered in the index under that name, its file is written,
    and the caller gets another object with the same content. *)
Theorem CreateWallet_publishes now names wltName name options bg σ v ent :
  enableWalletAPI (serv σ) = true →
  (wltName ≠ ""%string ∧ name = wltName) ∨
  (wltName = ""%string ∧ generateUniqueWalletFilename names σ = (Ok name, σ)) →
  NewWalletScanAhead now name
    (if optEncrypt options then setCryptoType options (cryptoType (serv σ)) else options)
    bg = Ok v →
  head (Entries v) = Some ent →
  firstAddrIDMap (serv σ) !! Address_String (EntryAddress ent) = None →
  (is_Some (wallets (serv σ) !! Filename v) →
     ∃ σ', CreateWallet now names wltName options bg σ = (Err ErrWalletNameConflict, σ') ∧
           unchanged σ σ') ∧
  (∀ fs,
     wallets (serv σ) !! Filename v = None →
     ioWorks (disk (world σ)) →
     files σ !! walletDirectory (serv σ) = Some fs →
     ∃ q σ', CreateWallet now names wltName options bg σ = (Ok q, σ') ∧
             heap (world σ') !! q = Some v ∧
             stored σ' (Filename v) = Some v ∧
             wallets (serv σ') !! Filename v ≠ Some q ∧
             (∀ id w, stored σ id = Some w → stored σ' id = Some w) ∧
             firstAddrIDMap (serv σ') =
               <[Address_String (EntryAddress ent) := Filename v]> (firstAddrIDMap (serv σ)) ∧
             files σ' =
               <[walletDirectory (serv σ) := <[Filename v := WalletFile v]> fs]> (files σ)).
Proof.
  intros Hen Hname Hnew Hent Hidx.
  rewrite (CreateWallet_loadWallet _ _ _ name) by done.
  destruct σ as [s wd]. destruct (Entries v) as [|e es] eqn:He; [done|].
  injection Hent as ->. simpl in *. split.
  - intros [p Hp]. unfold loadWallet, Wallets_add. run.
    eexists. split; [done|]. by frame.
  - intros fs Hfree Hio Hfs.
    unfold loadWallet, Wallets_add, Save, readDir, writeDir. run.
    rewrite ioFault_works by done. unfold files in *. run.
    eexists _, _. split; [done|]. unfold stored. simpl.
    rewrite lookup_insert_eq. simpl. split_and!; try done.
    + apply lookup_snoc.
    + rewrite lookup_app_l by (rewrite length_app; simpl; lia). apply lookup_snoc.
    + rewrite length_app. simpl. intros [=]. lia.
    + intros id w Hid. destruct (wallets s !! id) as [p|] eqn:Hp; [simpl in Hid|done].
      rewrite lookup_insert_ne by congruence. rewrite Hp. simpl.
      rewrite <-app_assoc. by apply lookup_app_l_Some.
Qed.


(** ** Remove *)

(** X10.  Remove of a stored wallet takes the wallet out of the map and its
    first address out of the index, and does nothing else: the other wallets
    stay, and so does every file of the storage medium, the removed wallet's
    file included. *)
Theorem Remove_forgets wltID σ p v :
  enableWalletAPI (serv σ) = true →
  wallets (serv σ) !! wltID = Some p →
  heap (world σ) !! p = Some v →
  ∃ σ', Remove wltID σ = (Ok tt, σ') ∧
        world σ' = world σ ∧
        stored σ' wltID = None ∧
        (∀ id, id ≠ wltID → stored σ' id = stored σ id) ∧
        (∀ a, firstAddress v = Some a →
              firstAddrIDMap (serv σ') !! Address_String a = None) ∧
        (∀ k, Some k ≠ Address_String <$> firstAddress v →
              firstAddrIDMap (serv σ') !! k = firstAddrIDMap (serv σ) !! k).
Proof.
  intros Hen Hp Hv. destruct σ as [s wd]. simpl in *.
  unfold Remove, firstAddress, stored. run.
  destruct (Entries v) as [|e es]; run; eexists; (split; [done|]); simpl;
    rewrite lookup_delete_eq; split_and!; try done.
  - intros id Hid. by rewrite lookup_delete_ne.
  - intros id Hid. by rewrite lookup_delete_ne.
  - intros a [= <-]. by rewrite lookup_delete_eq.
  - intros k Hk. rewrite lookup_delete_ne; [done|]. congruence.
Qed.

(** ** The calls that rewrite a stored wallet *)


(** X12.  Update hands the callback a copy of the stored wallet.  When the
    callback fails, its error is returned.  When it succeeds and the save
    works, the wallet the callback has made is written to its file and then
    stored under its file name; the index of first addresses is not touched.
    UpdateWalletLabel does the same with the change of the label. *)
Theorem Update_publishes wltID f label σ p v fs :
  enableWalletAPI (serv σ) = true →
  wallets (serv σ) !! wltID = Some p →
  heap (world σ) !! p = Some v →
  ioWorks (disk (world σ)) →
  files σ !! walletDirectory (serv σ) = Some fs →
  let published (v' : Wallet) (σ' : State) :=
    stored σ' (Filename v') = Some v' ∧
    (∀ id, id ≠ Filename v' → wallets (serv σ') !! id = wallets (serv σ) !! id) ∧
    heap (world σ) `prefix_of` heap (world σ') ∧
    firstAddrIDMap (serv σ') = firstAddrIDMap (serv σ) ∧
    files σ' = <[walletDirectory (serv σ) := <[Filename v' := WalletFile v']> fs]> (files σ) in
  (∀ e, (f v).2 = Err e → ∃ σ', Update wltID f σ = (Err e, σ')) ∧
  ((f v).2 = Ok tt →
     ∃ σ', Update wltID f σ = (Ok tt, σ') ∧ published (f v).1 σ') ∧
  (∃ σ', UpdateWalletLabel wltID label σ = (Ok tt, σ') ∧ published (setLabel v label) σ').
Proof.
  intros Hen Hp Hv Hio Hfs published. destruct σ as [s wd]. simpl in *.
  unfold files in *. simpl in *. split_and!.
  - intros e He. unfold Update, runCallback. run. by eexists.
  - intros Hok. unfold Update, runCallback, Save, Wallets_set, readDir, writeDir. run.
    rewrite ioFault_works by done. run.
    eexists. split; [done|]. unfold published, stored, files. simpl.
    rewrite lookup_insert_eq. simpl. split_and!; try done.
    + apply lookup_snoc.
    + intros id Hid. by rewrite lookup_insert_ne.
    + by frame_prefix.
  - unfold UpdateWalletLabel, Save, Wallets_set, readDir, writeDir. run.
    rewrite ioFault_works by done. run.
    eexists. split; [done|]. unfold published, stored, files. simpl.
    rewrite lookup_insert_eq. simpl. split_and!; try done.
    + apply lookup_snoc.
    + intros id Hid. by rewrite lookup_insert_ne.
    + by frame_prefix.
Qed.

(** X13.  A password given for a wallet that is not encrypted is refused:
    NewAddresses, UpdateSecrets and ViewSecrets fail with
    ErrWalletNotEncrypted, before the generator or the callback has run
    (the only trace of the call is the unused copy of the wallet). *)
Theorem plaintext_wallet_refuses_password wltID password num f σ p v :
  enableWalletAPI (serv σ) = true →
  wallets (serv σ) !! wltID = Some p →
  heap (world σ) !! p = Some v →
  IsEncrypted v = false →
  password ≠ [] →
  let σ' := mkState (serv σ) (mkWorld (heap (world σ) ++ [v]) (disk (world σ))) in
  NewAddresses wltID password num σ = (Err ErrWalletNotEncrypted, σ') ∧
  UpdateSecrets wltID password f σ = (Err ErrWalletNotEncrypted, σ') ∧
  ViewSecrets wltID password f σ = (Err ErrWalletNotEncrypted, σ').
Proof.
  intros Hen Hp Hv Henc Hpw σ'. destruct σ as [s wd]. simpl in *.
  assert ((length password =? 0) = false) as Hlen.
  { rewrite length_eqb_0. by apply bool_decide_eq_false. }
  subst σ'. split_and!.
  - unfold NewAddresses. by run.
  - unfold UpdateSecrets. by run.
  - unfold ViewSecrets. by run.
Qed.

(** X14.  NewAddresses on a wallet that is not encrypted, without a password:
    an error of the address generator is returned and nothing changes; when
    the generator succeeds and the save works, the caller gets the new
    addresses, and the grown wallet is written to its file and stored under
    its file name. *)
Theorem NewAddresses_plaintext wltID num σ p v fs :
  enableWalletAPI (serv σ) = true →
  wallets (serv σ) !! wltID = Some p →
  heap (world σ) !! p = Some v →
  IsEncrypted v = false →
  ioWorks (disk (world σ)) →
  files σ !! walletDirectory (serv σ) = Some fs →
  (∀ e, GenerateSkycoinAddresses v num = Err e →
     ∃ σ', NewAddresses wltID [] num σ = (Err e, σ') ∧ unchanged σ σ') ∧
  (∀ v' addrs, GenerateSkycoinAddresses v num = Ok (v', addrs) →
     ∃ σ', NewAddresses wltID [] num σ = (Ok addrs, σ') ∧
           stored σ' (Filename v') = Some v' ∧
           firstAddrIDMap (serv σ') = firstAddrIDMap (serv σ) ∧
           files σ' =
             <[walletDirectory (serv σ) := <[Filename v' := WalletFile v']> fs]> (files σ)).
Proof.
  intros Hen Hp Hv Henc Hio Hfs. destruct σ as [s wd]. simpl in *.
  unfold files in *. simpl in *. split.
  - intros e He. unfold NewAddresses, generateAddresses. run.
    eexists. split; [done|]. by frame.
  - intros v' addrs Hgen.
    unfold NewAddresses, generateAddresses, Save, Wallets_set, readDir, writeDir. run.
    rewrite ioFault_works by done. run.
    eexists. split; [done|]. unfold stored, files. simpl.
    rewrite lookup_insert_eq. simpl. split_and!; try done. apply lookup_snoc.
Qed.

(** X15.  NewAddresses and UpdateSecrets never publish an encrypted wallet in
    plaintext: when the stored wallet is encrypted and the call succeeds, the
    wallet that is written to the file and stored in the map afterwards is
    an encrypted one. *)
Theorem encrypted_wallet_stays_encrypted wltID password num f σ p v :
  wallets (serv σ) !! wltID = Some p →
  heap (world σ) !! p = Some v →
  IsEncrypted v = true →
  let published (σ' : State) :=
    ∃ l fs, IsEncrypted l = true ∧ stored σ' (Filename l) = Some l ∧
            files σ' !! walletDirectory (serv σ) = Some fs ∧
            fs !! Filename l = Some (WalletFile l) in
  (∀ addrs σ', NewAddresses wltID password num σ = (Ok addrs, σ') → published σ') ∧
  (∀ σ', UpdateSecrets wltID password f σ = (Ok tt, σ') → published σ').
Proof.
  intros Hp Hv Henc published. destruct σ as [s wd]. simpl in *.
  split; [intros addrs σ'|intros σ'].
  - unfold NewAddresses, generateAddresses, GuardUpdate, Lock, Unlock, discard, Save,
      Wallets_set, readDir, writeDir, ioFault.
    crunch; intros; simplify_eq.
    all: rewrite ?insert_mid in *; rewrite ?lookup_mid in *; simplify_eq.
    all: match goal with
         | H : lockWallet _ _ _ = Ok ?l |- _ =>
             exists l; apply lockWallet_Ok in H as (_ & Hl & _)
         end.
    all: eexists; unfold stored, files; simpl; rewrite !lookup_insert_eq; simpl;
      split_and!; try done; apply lookup_snoc.
  - unfold UpdateSecrets, runCallback, GuardUpdate, Lock, Unlock, discard, Save,
      Wallets_set, readDir, writeDir, ioFault.
    crunch; intros; simplify_eq.
    all: rewrite ?insert_mid in *; rewrite ?lookup_mid in *; simplify_eq.
    all: match goal with
         | H : lockWallet _ _ _ = Ok ?l |- _ =>
             exists l; apply lockWallet_Ok in H as (_ & Hl & _)
         end.
    all: eexists; unfold stored, files; simpl; rewrite !lookup_insert_eq; simpl;
      split_and!; try done; apply lookup_snoc.
Qed.

(** ** The invariant of the store, for more of the calls *)

Lemma unchanged_named σ σ' : unchanged σ σ' → wfStore σ → named σ → named σ'.
Proof.
  intros (Hs & _ & Hpre) Hwf Hn id p w Hp Hw. rewrite Hs in Hp.
  destruct (Hwf _ _ Hp) as [w0 Hw0].
  rewrite (prefix_lookup_Some _ _ _ _ Hw0 Hpre) in Hw. injection Hw as <-.
  by eapply Hn.
Qed.

(** A stored wallet is replaced by one of the same file name and the same
    first address. *)
Lemma republish_invariant σ σ' id p v v' q :
  wallets (serv σ) !! id = Some p →
  heap (world σ) !! p = Some v →
  Filename v' = Filename v →
  firstAddress v' = firstAddress v →
  heap (world σ) `prefix_of` heap (world σ') →
  heap (world σ') !! q = Some v' →
  wallets (serv σ') = <[Filename v' := q]> (wallets (serv σ)) →
  firstAddrIDMap (serv σ') = firstAddrIDMap (serv σ) →
  indexed σ ∧ named σ → indexed σ' ∧ named σ'.
Proof.
  intros Hp Hv Hfn Hfa Hpre Hq Hw Hi [Hidx Hn].
  assert (Filename v' = id) as Hid by (rewrite Hfn; by eapply Hn).
  split.
  - intros id' p' Hp'. rewrite Hw, Hi in *. rewrite lookup_insert in Hp'.
    case_decide; simplify_eq.
    + destruct (Hidx _ _ Hp) as (w & a & Hw' & Ha & Hia). simplify_eq.
      exists v', a. split_and!; try done. congruence.
    + destruct (Hidx _ _ Hp') as (w & a & Hw' & Ha & Hia).
      exists w, a. split_and!; try done. by eapply prefix_lookup_Some.
  - intros id' p' w Hp' Hw'. rewrite Hw in Hp'. rewrite lookup_insert in Hp'.
    case_decide; simplify_eq; [done|].
    destruct (Hidx _ _ Hp') as (w0 & a & Hw0 & _).
    rewrite (prefix_lookup_Some _ _ _ _ Hw0 Hpre) in Hw'. injection Hw' as <-.
    by eapply Hn.
Qed.

Lemma unlockWallet_firstAddress v password u :
  unlockWallet v password = Ok u → firstAddress u = firstAddress v.
Proof.
  unfold unlockWallet.
  destruct (negb (IsEncrypted v)); [done|]. destruct (secrets v) as [b|]; [|done].
  destruct (decryptSecrets _ _ _) as [[sd keys]| |]; [|done..].
  intros [= <-]. unfold firstAddress. simpl. by destruct (Entries v).
Qed.

Lemma EncryptWallet_cases wltID password σ r σ' :
  EncryptWallet wltID password σ = (r, σ') →
  unchanged σ σ' ∨
  ∃ p v l, wallets (serv σ) !! wltID = Some p ∧ heap (world σ) !! p = Some v ∧
           lockWallet v password (cryptoType (serv σ)) = Ok l ∧
           heap (world σ') = heap (world σ) ++ [l; l] ∧
           wallets (serv σ') = <[Filename l := S (length (heap (world σ)))]> (wallets (serv σ)) ∧
           firstAddrIDMap (serv σ') = firstAddrIDMap (serv σ).
Proof.
  destruct σ as [s wd].
  unfold EncryptWallet, Lock, Save, Wallets_set, readDir, writeDir, ioFault.
  crunch; intros; simplify_eq; try (left; by frame).
  all: right; eexists _, _, _; simpl; split_and!; try done.
  all: by rewrite <-?app_assoc, ?length_app, ?Nat.add_1_r.
Qed.

Lemma DecryptWallet_cases wltID password σ r σ' :
  DecryptWallet wltID password σ = (r, σ') →
  unchanged σ σ' ∨
  ∃ p v u, wallets (serv σ) !! wltID = Some p ∧ heap (world σ) !! p = Some v ∧
           unlockWallet v password = Ok u ∧
           heap (world σ') = heap (world σ) ++ [v; u; u] ∧
           wallets (serv σ') =
             <[Filename u := S (S (length (heap (world σ))))]> (wallets (serv σ)) ∧
           firstAddrIDMap (serv σ') = firstAddrIDMap (serv σ).
Proof.
  destruct σ as [s wd].
  unfold DecryptWallet, Unlock, Save, Wallets_set, readDir, writeDir, ioFault.
  crunch; intros; simplify_eq; try (left; by frame).
  all: right; eexists _, _, _; simpl; split_and!; try done.
  all: rewrite <-?app_assoc, ?length_app; simpl; try done.
  all: f_equal; lia.
Qed.

Lemma UpdateWalletLabel_cases wltID label σ r σ' :
  UpdateWalletLabel wltID label σ = (r, σ') →
  unchanged σ σ' ∨
  ∃ p v, wallets (serv σ) !! wltID = Some p ∧ heap (world σ) !! p = Some v ∧
         heap (world σ') = heap (world σ) ++ [setLabel v label; setLabel v label] ∧
         wallets (serv σ') = <[Filename v := S (length (heap (world σ)))]> (wallets (serv σ)) ∧
         firstAddrIDMap (serv σ') = firstAddrIDMap (serv σ).
Proof.
  destruct σ as [s wd].
  unfold UpdateWalletLabel, Save, Wallets_set, readDir, writeDir, ioFault.
  crunch; intros; simplify_eq; try (left; by frame).
  all: right; eexists _, _; simpl; split_and!; try done.
  all: by rewrite <-?app_assoc, ?length_app, ?Nat.add_1_r.
Qed.

Lemma GetWalletSeed_frame wltID password σ : unchanged σ (GetWalletSeed wltID password σ).2.
Proof.
  destruct σ as [s wd]. unfold GetWalletSeed, GuardView, Unlock, discard.
  crunch; by frame.
Qed.

Lemma CreateTransaction_frame params auxs headTime σ :
  unchanged σ (CreateTransaction params auxs headTime σ).2.
Proof.
  destruct σ as [s wd].
  unfold CreateTransaction, buildTransaction, GuardView, Unlock, discard.
  crunch; by frame.
Qed.

Lemma forM_loadFile_named fl wd r wd' :
  forM loadFile fl wd = (Ok r, wd') →
  Forall (λ kp, ∃ w, heap wd' !! kp.2 = Some w ∧ Filename w = kp.1) r.
Proof.
  revert wd r wd'. induction fl as [|[n f] fl IH]; intros wd r wd'; simpl.
  - unfold ret. by intros [= <- <-].
  - unfold loadFile at 1. simpl.
    destruct f as [w|]; repeat (progress run_unfold); simpl; [|done].
    destruct (forM loadFile fl _) as [[r'| |] wd1] eqn:Hl; [|done..].
    pose proof (forM_loadFile _ _ _ _ Hl) as (Hpre & _ & _).
    apply IH in Hl. simpl in *. intros [= <- <-]. constructor; [|done]. simpl.
    exists (setFilename w n). split; [|done].
    eapply prefix_lookup_Some; [|done]. apply lookup_snoc.
Qed.

Lemma LoadWallets_named dir wd (wlts : gmap string nat) wd' :
  LoadWallets dir wd = (Ok wlts, wd') →
  ∀ id p w, wlts !! id = Some p → heap wd' !! p = Some w → Filename w = id.
Proof.
  unfold LoadWallets, readDir, ioFault.
  crunch; intros; simplify_eq;
    match goal with
    | Hl : forM loadFile _ _ = _, Hw : list_to_map _ !! _ = Some _ |- _ =>
        apply forM_loadFile_named in Hl;
        apply elem_of_list_to_map_2 in Hw;
        rewrite Forall_forall in Hl; apply Hl in Hw as (w' & Hw' & Hf)
    end; simpl in *; congruence.
Qed.

Lemma NewService_named c wd s wd' :
  NewService c wd = (Ok s, wd') → named (mkState s wd').
Proof.
  unfold NewService.
  destruct (NewService_body c _) as [[[]|e|a] σ1] eqn:Hb; [|done..].
  intros [= <- <-].
  apply NewService_body_cases in Hb
    as [(_ & _ & ->)|[(_ & Hno & _)|(_ & wd1 & wd2 & wd3 & wlts & _ & _ & Hld & Hwd & Hc)]].
  - intros id p w Hp. simpl in Hp. by rewrite lookup_empty in Hp.
  - by destruct (Hno tt).
  - simpl in Hc. destruct Hc as [[_ ?]|[(_ & _ & ?)|(_ & _ & _ & Hw & _)]]; [done..|].
    intros id p w Hp Hh. simpl in *. rewrite Hw in Hp. rewrite Hwd in Hh.
    by eapply LoadWallets_named.
Qed.

Lemma CreateWallet_named now names wltName options bg σ :
  wfStore σ → named σ → named (CreateWallet now names wltName options bg σ).2.
Proof.
  intros Hwf Hn.
  destruct (CreateWallet now names wltName options bg σ) as [r σ'] eqn:Hrun. simpl.
  destruct (CreateWallet_cases _ _ _ _ _ _ _ _ Hrun) as [[_ Hun]|Hc];
    [by eapply unchanged_named|].
  destruct Hc as (v & ent & _ & _ & _ & _ & Hh & Hw & _).
  intros id p w Hp Hv. rewrite Hw in Hp. rewrite Hh in Hv.
  rewrite lookup_insert in Hp. case_decide; simplify_eq.
  - rewrite lookup_app_r, Nat.sub_diag in Hv by done. by injection Hv as <-.
  - destruct (Hwf _ _ Hp) as [w0 Hw0].
    rewrite (lookup_app_l_Some _ _ _ _ Hw0) in Hv. injection Hv as <-. by eapply Hn.
Qed.

Lemma Remove_named wltID σ : named σ → named (Remove wltID σ).2.
Proof.
  intros Hn. destruct (Remove wltID σ) as [r σ'] eqn:Hrun. simpl.
  destruct (Remove_cases _ _ _ _ Hrun) as (Hwd & [Hs|(Hw & _)]);
    intros id p w Hp Hv; rewrite Hwd in Hv.
  - rewrite Hs in Hp. by eapply Hn.
  - rewrite Hw in Hp. rewrite lookup_delete in Hp. case_decide; [done|]. by eapply Hn.
Qed.

Lemma RecoverWallet_named now wltName seed password σ :
  wfStore σ → named σ → named (RecoverWallet now wltName seed password σ).2.
Proof.
  intros Hwf Hn.
  destruct (RecoverWallet now wltName seed password σ) as [r σ'] eqn:Hrun. simpl.
  destruct (RecoverWallet_cases _ _ _ _ _ _ _ Hrun) as [[_ Hun]|Hc];
    [by eapply unchanged_named|].
  destruct Hc as (p0 & v & ent & kp & v2 & _ & _ & _ & _ & _ & _ & Hnew & _ & Hh & Hw & _).
  destruct (newWallet_Ok _ _ _ _ Hnew) as (Hf & _).
  intros id p w Hp Hv. rewrite Hw in Hp. rewrite Hh in Hv.
  rewrite lookup_insert in Hp. case_decide; simplify_eq.
  - rewrite lookup_app_r in Hv by lia.
    replace (_ - _) with 2 in Hv by lia. by injection Hv as <-.
  - destruct (Hwf _ _ Hp) as [w0 Hw0].
    rewrite (lookup_app_l_Some _ _ _ _ Hw0) in Hv. injection Hv as <-. by eapply Hn.
Qed.

(** X16.  The invariant of the store holds after every call that does not
    hand the stored wallet to a callback or to the address generator.  In
    every state reached from NewService by CreateWallet, Remove,
    RecoverWallet, EncryptWallet, DecryptWallet, UpdateWalletLabel and the
    read calls, with any arguments and any outcome: no two stored wallets
    share a first address, every stored wallet has its first address in the
    index under its id, and every wallet is stored under its own file name. *)
Theorem store_invariant_more_calls σ :
  reachableBy σ → distinctFirstAddresses σ ∧ indexed σ ∧ named σ.
Proof.
  intros Hr. cut (indexed σ ∧ named σ).
  { intros [Hi Hn]. split_and!; [by apply indexed_distinct|done..]. }
  induction Hr as [c wd wd' s Hnew|c σ Hr [Hi Hn]].
  - split; [by eapply NewService_indexed|by eapply NewService_named].
  - pose proof (indexed_wfStore _ Hi) as Hwf.
    assert (∀ σ', unchanged σ σ' → indexed σ' ∧ named σ') as Hun.
    { intros σ' Hu. split; [by eapply unchanged_indexed|by eapply unchanged_named]. }
    destruct c as [o| | | | | | | | | |]; simpl.
    + destruct o; simpl.
      * split; [by apply CreateWallet_indexed|by apply CreateWallet_named].
      * split; [by apply Remove_indexed|by apply Remove_named].
      * split; [by apply RecoverWallet_indexed|by apply RecoverWallet_named].
    + destruct (EncryptWallet wltID password σ) as [r σ'] eqn:Hrun. simpl.
      destruct (EncryptWallet_cases _ _ _ _ _ Hrun)
        as [Hu|(p & v & l & Hp & Hv & Hl & Hh & Hw & Hidx)]; [by apply Hun|].
      destruct (lockWallet_Ok _ _ _ _ Hl) as (Hf & _ & _ & _ & Ha).
      eapply (republish_invariant σ σ' wltID p v l); try done.
      * rewrite Hh. by apply prefix_app_r.
      * rewrite Hh. rewrite lookup_app_r by lia. by replace (_ - _) with 1 by lia.
    + destruct (DecryptWallet wltID password σ) as [r σ'] eqn:Hrun. simpl.
      destruct (DecryptWallet_cases _ _ _ _ _ Hrun)
        as [Hu|(p & v & u & Hp & Hv & Hl & Hh & Hw & Hidx)]; [by apply Hun|].
      destruct (unlockWallet_Ok _ _ _ Hl) as (Hf & _).
      eapply (republish_invariant σ σ' wltID p v u); try done.
      * by eapply unlockWallet_firstAddress.
      * rewrite Hh. by apply prefix_app_r.
      * rewrite Hh. rewrite lookup_app_r by lia. by replace (_ - _) with 2 by lia.
    + destruct (UpdateWalletLabel wltID label σ) as [r σ'] eqn:Hrun. simpl.
      destruct (UpdateWalletLabel_cases _ _ _ _ _ Hrun)
        as [Hu|(p & v & Hp & Hv & Hh & Hw & Hidx)]; [by apply Hun|].
      eapply (republish_invariant σ σ' wltID p v (setLabel v label)); try done.
      * rewrite Hh. by apply prefix_app_r.
      * rewrite Hh. rewrite lookup_app_r by lia. by replace (_ - _) with 1 by lia.
    + apply Hun, GetWallet_frame.
    + apply Hun, GetWallets_frame.
    + apply Hun, GetSkycoinAddresses_frame.
    + apply Hun, GetWalletSeed_frame.
    + apply Hun, CreateTransaction_frame.
    + apply Hun, View_frame.
    + apply Hun, ViewSecrets_frame.
Qed.

(** X17.  Update does not keep the invariant of the store: the wallet the callback has
    made is stored under the file name it has then.  A callback that gives
    the wallet a new file name leaves the store with the old wallet and the
    renamed one, two wallets with the same first address. *)
Theorem Update_can_break_invariant wltID f σ p v n a fs :
  enableWalletAPI (serv σ) = true →
  wallets (serv σ) !! wltID = Some p →
  heap (world σ) !! p = Some v →
  firstAddress v = Some a →
  f v = (setFilename v n, Ok tt) →
  n ≠ wltID →
  ioWorks (disk (world σ)) →
  files σ !! walletDirectory (serv σ) = Some fs →
  ∃ σ', Update wltID f σ = (Ok tt, σ') ∧
        stored σ' wltID = Some v ∧
        stored σ' n = Some (setFilename v n) ∧
        ¬ distinctFirstAddresses σ'.
Proof.
  intros Hen Hp Hv Ha Hf Hn Hio Hfs.
  assert (∃ σ', Update wltID f σ = (Ok tt, σ') ∧ stored σ' wltID = Some v ∧
                stored σ' n = Some (setFilename v n)) as (σ' & Hrun & H1 & H2).
  { destruct σ as [s wd]. simpl in *. unfold files in *. simpl in *.
    unfold Update, runCallback, Save, Wallets_set, readDir, writeDir. run.
    rewrite ioFault_works by done. run.
    eexists. split; [done|]. unfold stored. simpl.
    rewrite lookup_insert_ne, lookup_insert_eq by done. rewrite Hp. simpl. split.
    - rewrite <-app_assoc. by apply lookup_app_l_Some.
    - apply lookup_snoc. }
  exists σ'. split_and!; try done.
  intros Hd. apply Hn. symmetry. by eapply (Hd wltID n).
Qed.

(** ** What the callbacks see *)

(** X18.  GetSkycoinAddresses, View and ViewSecrets work on the content of
    the stored wallet: the addresses are those of the stored wallet, and the
    result of View is the callback's result on the stored wallet.
    ViewSecrets gives the callback the stored wallet when it is not
    encrypted, and the unlocked wallet when it is; with a password that does
    not unlock the wallet it returns the error of Unlock and the callback
    does not run. *)
Theorem callbacks_see_stored_wallet wltID password f σ p v :
  enableWalletAPI (serv σ) = true →
  wallets (serv σ) !! wltID = Some p →
  heap (world σ) !! p = Some v →
  (GetSkycoinAddresses wltID σ).1 = Wallet_GetSkycoinAddresses v ∧
  (View wltID f σ).1 = (f v).2 ∧
  (IsEncrypted v = false → password = [] → (ViewSecrets wltID password f σ).1 = (f v).2) ∧
  (∀ u, IsEncrypted v = true → unlockWallet v password = Ok u →
        (ViewSecrets wltID password f σ).1 = (f u).2) ∧
  (∀ e, IsEncrypted v = true → unlockWallet v password = Err e →
        ViewSecrets wltID password f σ =
          (Err e, mkState (serv σ) (mkWorld (heap (world σ) ++ [v]) (disk (world σ))))).
Proof.
  intros Hen Hp Hv. destruct σ as [s wd]. simpl in *. split_and!.
  - unfold GetSkycoinAddresses. run. by destruct (Wallet_GetSkycoinAddresses v).
  - unfold View, runCallback. run. by destruct (f v).2 as [[]| |].
  - intros Henc ->. unfold ViewSecrets, runCallback. run. by destruct (f v).2 as [[]| |].
  - intros u Henc Hu. unfold ViewSecrets, runCallback, GuardView, Unlock, discard. run.
    destruct (f u).2 as [[]| |]; run; done.
  - intros e Henc Hu. unfold ViewSecrets, runCallback, GuardView, Unlock, discard. by run.
Qed.

(** * The command encryptWallet of the command-line client *)

Context {env : CliEnv}.

Implicit Types (st : Cli).

Ltac cli_unfold :=
  unfold encryptWallet, encryptWalletCmd_Action, inWorld, inTerminal, show, Lock, Save,
    readDir, writeDir.

Lemma encryptWallet_save_fails walletFile password cryptoType st p wd1 v l dir :
  wallet_Load walletFile (cliWorld st) = (Ok p, wd1) →
  heap wd1 !! p = Some v →
  password ≠ [] →
  lockWallet v password cryptoType = Ok l →
  absDir walletFile = Ok dir →
  head (faults (disk wd1)) = Some true →
  encryptWallet walletFile password cryptoType st =
    (Ok (inl (WalletLoadError ErrPersistence)),
     mkCli (mkWorld (<[p:=l]> (heap wd1))
                    (mkDisk (dirs (disk wd1)) (tail (faults (disk wd1)))))
           (terminal st) (shown st)).
Proof.
  intros Hload Hv Hpw Hl Hdir Hio. destruct st as [wd t out].
  assert ((length password =? 0) = false) as Hlen.
  { rewrite length_eqb_0. by apply bool_decide_eq_false. }
  assert (IsEncrypted v = false) as Henc.
  { unfold lockWallet in Hl. by destruct (IsEncrypted v). }
  cli_unfold. run. rewrite list_lookup_insert_eq by (by eapply lookup_lt_Some). run.
  rewrite ioFault_fails by done. by run.
Qed.

(** X19.  encryptWallet never returns a WalletSaveError: a failed save comes
    back wrapped as a WalletLoadError.  When the save fails, the command
    therefore shows its help text and returns no error, although the
    wallet file has not been written; its branch for a failed save is never
    taken after encryptWallet. *)
Theorem encryptWallet_save_error walletFile password cryptoType st :
  (∀ e st', encryptWallet walletFile password cryptoType st = (Ok (inl e), st') →
            ∀ err, e ≠ WalletSaveError err) ∧
  (∀ p wd1 v l dir,
     wallet_Load walletFile (cliWorld st) = (Ok p, wd1) →
     heap wd1 !! p = Some v →
     password ≠ [] →
     lockWallet v password cryptoType = Ok l →
     absDir walletFile = Ok dir →
     head (faults (disk wd1)) = Some true →
     ∃ st', encryptWallet walletFile password cryptoType st =
              (Ok (inl (WalletLoadError ErrPersistence)), st') ∧
            dirs (disk (cliWorld st')) = dirs (disk wd1)).
Proof.
  destruct st as [wd t out]. split.
  - intros e st'. cli_unfold. unfold ioFault.
    crunch; intros; simplify_eq; done.
  - intros p wd1 v l dir Hload Hv Hpw Hl Hdir Hio.
    erewrite encryptWallet_save_fails by done. by eexists.
Qed.

(** X20.  The command and a failed save: when the wallet file is read, the
    wallet is locked and the save then fails, the action shows the help text
    with the error wrapped as a load error, returns no error, and the files
    are as they were. *)
Theorem encryptWalletCmd_hides_save_failure x pw st walletFile cryptoType p wd1 v l dir :
  resolveWalletPath = Ok walletFile →
  CryptoTypeFromString x = Ok cryptoType →
  wallet_Load walletFile (cliWorld st) = (Ok p, wd1) →
  heap wd1 !! p = Some v →
  String.list_byte_of_string pw ≠ [] →
  lockWallet v (String.list_byte_of_string pw) cryptoType = Ok l →
  absDir walletFile = Ok dir →
  head (faults (disk wd1)) = Some true →
  ∃ st', encryptWalletCmd_Action x pw st = (Ok None, st') ∧
         shown st' = shown st ++ [ShownHelp (WalletLoadError ErrPersistence)] ∧
         dirs (disk (cliWorld st')) = dirs (disk wd1).
Proof.
  intros Hpath Hct Hload Hv Hpw Hl Hdir Hio.
  unfold encryptWalletCmd_Action, show. run.
  erewrite encryptWallet_save_fails by done. by eexists.
Qed.

(** X21.  encryptWallet on a wallet file that is already encrypted fails
    with ErrWalletEncrypted, unwrapped; no password is asked for and nothing
    is written.  With a password on the command line the terminal is never
    read, whatever happens. *)
Theorem encryptWallet_refuses_encrypted walletFile password cryptoType st :
  (∀ p wd1 v,
     wallet_Load walletFile (cliWorld st) = (Ok p, wd1) →
     heap wd1 !! p = Some v →
     IsEncrypted v = true →
     encryptWallet walletFile password cryptoType st =
       (Ok (inl (PlainError ErrWalletEncrypted)), mkCli wd1 (terminal st) (shown st))) ∧
  (password ≠ [] →
     terminal (encryptWallet walletFile password cryptoType st).2 = terminal st).
Proof.
  destruct st as [wd t out]. split.
  - intros p wd1 v Hload Hv Henc. cli_unfold. by run.
  - intros Hpw.
    assert ((length password =? 0) = false) as Hlen.
    { rewrite length_eqb_0. by apply bool_decide_eq_false. }
    cli_unfold. unfold ioFault. crunch; done.
Qed.

(** X22.  encryptWallet without a password on the command line asks for one
    on the terminal: an error of the terminal is returned as it is and the
    wallet file is left alone; the password typed is the one the wallet is
    locked with.  When everything works the wallet is returned locked with
    the given crypto type, and its file in the directory of the wallet file
    holds the locked wallet. *)
Theorem encryptWallet_locks_and_saves walletFile password cryptoType st p wd1 v :
  wallet_Load walletFile (cliWorld st) = (Ok p, wd1) →
  heap wd1 !! p = Some v →
  IsEncrypted v = false →
  let asked := if decide (password = []) then readPasswordFromTerminal (terminal st)
               else (Ok password, terminal st) in
  (∀ e, asked.1 = Err e →
     encryptWallet walletFile password cryptoType st =
       (Ok (inl (PlainError e)), mkCli wd1 asked.2 (shown st))) ∧
  (∀ typed l dir fs,
     asked.1 = Ok typed →
     lockWallet v typed cryptoType = Ok l →
     absDir walletFile = Ok dir →
     ioWorks (disk wd1) →
     dirs (disk wd1) !! dir = Some fs →
     ∃ st', encryptWallet walletFile password cryptoType st = (Ok (inr p), st') ∧
            heap (cliWorld st') !! p = Some l ∧
            IsEncrypted l = true ∧ wltCryptoType l = cryptoType ∧
            dirs (disk (cliWorld st')) = <[dir := <[Filename l := WalletFile l]> fs]> (dirs (disk wd1)) ∧
            terminal st' = asked.2).
Proof.
  intros Hload Hv Henc asked. destruct st as [wd t out]. simpl in *.
  assert ((length password =? 0) = bool_decide (password = [])) as Hlen
    by apply length_eqb_0.
  split.
  - intros e He. subst asked. cli_unfold. run.
    destruct (decide (password = [])) as [Hp|Hp]; simpl in *.
    + rewrite bool_decide_eq_true_2 by done. run.
      destruct (readPasswordFromTerminal t) as [[a|e0|c] t']; simpl in *; by simplify_eq.
    + done.
  - intros typed l dir fs Hask Hl Hdir Hio Hfs. subst asked. cli_unfold. run.
    assert (IsEncrypted l = true ∧ wltCryptoType l = cryptoType) as [Hle Hlc].
    { revert Hl. unfold lockWallet. rewrite Henc.
      destruct (encryptSecrets _ _ _); [|done..]. by intros [= <-]. }
    destruct (decide (password = [])) as [Hp|Hp]; simpl in *.
    + rewrite bool_decide_eq_true_2 by done. run.
      destruct (readPasswordFromTerminal t) as [[a|e0|c] t']; simpl in *; simplify_eq. run.
      rewrite list_lookup_insert_eq by (by eapply lookup_lt_Some). run.
      rewrite ioFault_works by done. run.
      eexists. split; [done|]. simpl. split_and!; try done.
      apply list_lookup_insert_eq. by eapply lookup_lt_Some.
    + rewrite bool_decide_eq_false_2 by done. simplify_eq. run.
      rewrite list_lookup_insert_eq by (by eapply lookup_lt_Some). run.
      rewrite ioFault_works by done. run.
      eexists. split; [done|]. simpl. split_and!; try done.
      apply list_lookup_insert_eq. by eapply lookup_lt_Some.
Qed.

(** X23.  The action of the command either puts one thing on the screen
    (the help text with an error, or the encrypted wallet) and returns no
    error, or returns an error that is no load or save error and puts nothing
    on the screen.  The wallet shown is one that is encrypted. *)
Theorem encryptWalletCmd_Action_reports x pw st r st' :
  encryptWalletCmd_Action x pw st = (Ok r, st') →
  (r = None ∧
     ∃ y, shown st' = shown st ++ [y] ∧ ∀ w, y = ShownWallet w → IsEncrypted w = true) ∨
  (∃ e, r = Some (PlainError e) ∧ shown st' = shown st).
Proof.
  destruct st as [wd t out]. cli_unfold. cli_unfold. unfold ioFault.
  crunch; intros; simplify_eq; simpl;
    first [ right; by eexists
          | left; split; [done|]; eexists; split; [done|]; intros ? [=] ].
  all: subst.
  all: repeat match goal with
       | H : lockWallet _ _ _ = Ok ?l |- _ => apply lockWallet_Ok in H as (_ & ? & _)
       | H : <[?p:=?l]> ?h !! ?p = Some ?w |- _ =>
           apply list_lookup_insert_Some in H as [(_ & -> & _)|[? _]]; [|done]
       end; try done.
Qed.

End Properties.

Local Open Scope string_scope.

(** * Concrete runs *)

#[local] Existing Instance toyCipher.
#[local] Existing Instance toyWalletPkg.

Example toyState0_new :
  NewService toyConfig (mkWorld [] (mkDisk ∅ [])) = (Ok (serv toyState0), world toyState0).
Proof. reflexivity. Qed.


Example toyState2_encrypted :
  EncryptWallet "a.wlt" [Byte.x01] toyState1 = (Ok 2, toyState2).
Proof. reflexivity. Qed.

(** NewService on a directory with a wallet and a stray backup file: the
    backup is deleted, the wallet is loaded and indexed. *)
Example NewService_loads :
  NewService toyConfig (mkWorld [] toyDiskBackup) =
    (Ok (serv toyState1),
     mkWorld [toyWallet] (mkDisk {["wallets" := {["a.wlt" := WalletFile toyWallet]}]} [])).
Proof. reflexivity. Qed.

(** NewService on two wallets with one first address, and on a wallet
    without entries: an error and no service. *)
Example NewService_duplicate :
  (NewService toyConfig (mkWorld [] toyDiskDuplicate)).1 = Err ErrDuplicateWallet.
Proof. reflexivity. Qed.

Example NewService_empty :
  (NewService toyConfig (mkWorld [] toyDiskEmpty)).1 = Err ErrEmptyWallet.
Proof. reflexivity. Qed.

(** The seed of the encrypted wallet, with the right and a wrong password. *)
Example GetWalletSeed_unlocks :
  (GetWalletSeed "a.wlt" [Byte.x01] toyState2).1 = Ok "seed1" ∧
  (GetWalletSeed "a.wlt" [Byte.x02] toyState2).1 = Err (ErrOther "invalid password").
Proof. split; reflexivity. Qed.

(** A transaction from the encrypted wallet, with its password. *)
Example CreateTransaction_signs :
  (CreateTransaction ("a.wlt", [Byte.x01], 2) [1; 2] 0%N toyState2).1 = Ok ("tx", [1; 2]).
Proof. reflexivity. Qed.

(** A save that fails: the wallet added to the map is taken out again. *)
Example toyState0_save_fails :
  (CreateWallet 5 [] "a.wlt" (toyOptions "seed1") toyBalances toyState0Failing).1
    = Err ErrPersistence ∧
  serv (CreateWallet 5 [] "a.wlt" (toyOptions "seed1") toyBalances toyState0Failing).2
    = serv toyState0Failing.
Proof. split; reflexivity. Qed.

Example toyState1_wf : wfStore toyState1.
Proof.
  intros id p Hp. simpl in Hp. apply lookup_singleton_Some in Hp as [_ <-]. by eexists.
Qed.

(** C1, at a seed that is already used. *)
Lemma CreateWallet_failure_frame_witness :
  unchanged toyState1
    (CreateWallet 6 [] "b.wlt" (toyOptions "seed1") toyBalances toyState1).2.
Proof.
  apply (proj1 (CreateWallet_failure_frame 6 [] "b.wlt" (toyOptions "seed1")
                  toyBalances toyState1) ErrSeedUsed).
  reflexivity.
Defined.

(** C2, at the service after NewService and one CreateWallet. *)
Lemma store_invariant_witness :
  distinctFirstAddresses toyState1 ∧ indexed toyState1.
Proof.
  apply (proj1 store_invariant).
  replace toyState1
    with (runOp (OpCreateWallet 5 [] "a.wlt" (toyOptions "seed1") toyBalances) toyState0)
    by reflexivity.
  apply reachable_step.
  apply (reachable_new toyConfig (mkWorld [] (mkDisk ∅ []))).
  reflexivity.
Defined.

(** C3: a plaintext deterministic wallet and a seed of another wallet. *)
Lemma RecoverWallet_plaintext_counterexample :
  ∃ v ent kp,
    stored toyState1 "a.wlt" = Some v ∧
    wltType v = WalletTypeDeterministic ∧
    head (Entries v) = Some ent ∧
    GenerateDeterministicKeyPair "seed2" = Ok kp ∧
    addressConstructor (coin v) kp.1 ≠ EntryAddress ent ∧
    (RecoverWallet 9 "a.wlt" "seed2" [] toyState1).1 = Err ErrWalletNotEncrypted ∧
    (RecoverWallet 9 "a.wlt" "seed2" [] toyState1).1 ≠ Err ErrWalletRecoverSeedWrong.
Proof.
  assert ((RecoverWallet 9 "a.wlt" "seed2" [] toyState1).1 = Err ErrWalletNotEncrypted)
    as Hrun by reflexivity.
  exists toyWallet, toyEntry, ("seed2/pub/", "seed2/sec/").
  split_and!; try reflexivity.
  - cbv. discriminate.
  - rewrite Hrun. discriminate.
Defined.

(** C3 as amended, at the encrypted wallet and a seed of another wallet. *)
Lemma RecoverWallet_spec_witness :
  ∃ σ', RecoverWallet 9 "a.wlt" "seed2" [] toyState2 = (Err ErrWalletRecoverSeedWrong, σ')
        ∧ unchanged toyState2 σ'.
Proof.
  apply (proj1 (RecoverWallet_spec 9 "a.wlt" "seed2" [] toyState2 3 toyLocked _ _
                  eq_refl eq_refl eq_refl eq_refl eq_refl eq_refl eq_refl)).
  cbv. discriminate.
Defined.

(** The same wallet recovered from its own seed, with a new password. *)
Example RecoverWallet_match :
  (RecoverWallet 9 "a.wlt" "seed1" [Byte.x02] toyState2).1 = Ok 7 ∧
  (IsEncrypted <$> stored (RecoverWallet 9 "a.wlt" "seed1" [Byte.x02] toyState2).2 "a.wlt")
    = Some true ∧
  (timestamp <$> stored (RecoverWallet 9 "a.wlt" "seed1" [Byte.x02] toyState2).2 "a.wlt")
    = Some 5%Z.
Proof. split_and!; reflexivity. Qed.

(** C4, at the encrypted wallet and no password. *)
Lemma CreateTransaction_password_check_witness :
  (CreateTransaction ("a.wlt", [], 1) [1; 2] 0%N toyState2).1 = Err ErrMissingPassword.
Proof.
  pose proof (CreateTransaction_password_check ("a.wlt", [], 1) [1; 2] 0%N toyState2
                eq_refl) as [_ Hpw].
  destruct (Hpw 3 toyLocked eq_refl eq_refl eq_refl) as (Hmissing & _).
  by rewrite Hmissing.
Defined.

(** C6, at the plaintext wallet. *)
Lemma GetWalletSeed_gated_witness :
  ∃ σ', GetWalletSeed "a.wlt" [Byte.x01] toyState1 = (Err ErrWalletNotEncrypted, σ')
        ∧ unchanged toyState1 σ'.
Proof.
  destruct (GetWalletSeed_gated "a.wlt" [Byte.x01] toyState1) as (_ & _ & Hplain & _).
  apply (Hplain 0 toyWallet); reflexivity.
Defined.

(** C7, at the encrypted wallet. *)
Lemma encrypt_decrypt_protocol_witness :
  ∃ σ', EncryptWallet "a.wlt" [Byte.x01] toyState2 = (Err ErrWalletEncrypted, σ')
        ∧ unchanged toyState2 σ'.
Proof.
  apply (proj1 (encrypt_decrypt_protocol "a.wlt" [Byte.x01] toyState2 3 toyLocked
                  eq_refl eq_refl eq_refl)).
  reflexivity.
Defined.

(** C8: Remove of an id that the store does not have returns no error. *)
Lemma Remove_unknown_counterexample :
  wallets (serv toyState1) !! "zzz" = None ∧
  enableWalletAPI (serv toyState1) = true ∧
  (Remove "zzz" toyState1).1 = Ok tt ∧
  (Remove "zzz" toyState1).1 ≠ Err ErrWalletNotExist.
Proof.
  assert ((Remove "zzz" toyState1).1 = Ok tt) as Hrun by reflexivity.
  split_and!; try reflexivity. rewrite Hrun. discriminate.
Defined.

(** C8 as amended, at an id that the store does not have. *)
Lemma unknown_id_NotFound_witness :
  GetWallet "zzz" toyState1 = (Err ErrWalletNotExist, toyState1) ∧
  Remove "zzz" toyState1 = (Ok tt, toyState1).
Proof.
  pose proof (unknown_id_NotFound "zzz" toyState1 eq_refl eq_refl) as Hall.
  split; [apply Hall|]. do 13 apply proj2 in Hall. exact Hall.
Defined.

(** C9, at GetWallet of the stored wallet: the returned object is new, has
    the content of the stored wallet, and a write to it does not reach the
    store. *)
Lemma returned_wallets_are_copies_witness :
  notStored (GetWallet "a.wlt" toyState1).2 2 ∧
  heap (world (GetWallet "a.wlt" toyState1).2) !! 2 = Some toyWallet ∧
  stored (mutate 2 toyEmpty (GetWallet "a.wlt" toyState1).2) "a.wlt" = Some toyWallet.
Proof.
  assert (GetWallet "a.wlt" toyState1 = (Ok 2, (GetWallet "a.wlt" toyState1).2)) as Hrun
    by reflexivity.
  destruct (returned_wallets_are_copies toyState1 toyState1_wf)
    as (Hget & _ & _ & _ & _ & _ & Hmut).
  destruct (Hget "a.wlt" 2 _ Hrun) as (Hn & _ & Hc).
  split_and!; [exact Hn|by rewrite Hc|by rewrite (Hmut _ _ Hn)].
Defined.

(** C10, at the plaintext wallet. *)
Lemma RecoverWallet_requires_encrypted_witness :
  ∃ σ', RecoverWallet 9 "a.wlt" "seed1" [] toyState1 = (Err ErrWalletNotEncrypted, σ')
        ∧ unchanged toyState1 σ'.
Proof.
  apply (proj1 (RecoverWallet_requires_encrypted 9 "a.wlt" "seed1" [] toyState1 0 toyWallet
                  eq_refl eq_refl eq_refl)).
  reflexivity.
Defined.

(** ** Runs of the further properties *)

#[local] Existing Instance toyCliEnv.

(** X1, at the service with the wallet API switched off. *)
Lemma api_disabled_refuses_witness :
  GetWallets toyStateOff = (Err ErrWalletAPIDisabled, toyStateOff) ∧
  Remove "a.wlt" toyStateOff = (Err ErrWalletAPIDisabled, toyStateOff).
Proof.
  pose proof (api_disabled_refuses toyStateOff eq_refl) as Hall.
  split; [apply Hall|]. do 9 apply proj2 in Hall. apply (proj1 Hall).
Defined.

(** X4, on a medium whose first I/O call fails. *)
Lemma NewService_errors_witness :
  ∃ e0, MkdirAll (WalletDir toyConfig) (world toyState0Failing) =
          (Err e0, mkWorld [] (mkDisk {["wallets" := ∅]} [])).
Proof.
  destruct (NewService_errors toyConfig (world toyState0Failing) ErrMkdirFailed
              (mkWorld [] (mkDisk {["wallets" := ∅]} [])) eq_refl)
    as (_ & [[_ H]|[[[=] _]|[[[=] _]|[[[=]|[=]] _]]]]).
  exact H.
Defined.

(** X5, on an empty medium. *)
Lemma NewService_made_witness :
  walletDirectory (serv toyState0) = "wallets" ∧
  is_Some (dirs (disk (world toyState0)) !! "wallets").
Proof.
  destruct (NewService_made toyConfig (mkWorld [] (mkDisk ∅ [])) (serv toyState0)
              (world toyState0) toyState0_new) as (_ & _ & _ & _ & H).
  apply H. reflexivity.
Defined.

(** X6, at the service with one wallet. *)
Lemma read_calls_return_stored_witness :
  ∃ q σ', GetWallet "a.wlt" toyState1 = (Ok q, σ') ∧
          heap (world σ') !! q = Some toyWallet ∧ heap (world toyState1) !! q = None.
Proof.
  destruct (read_calls_return_stored toyState1 eq_refl toyState1_wf) as [H _].
  apply (H "a.wlt" toyWallet). reflexivity.
Defined.

(** X7: the first generated name is taken, the second is free. *)
Lemma generateUniqueWalletFilename_first_free_witness :
  generateUniqueWalletFilename ["a.wlt"; "b.wlt"; "c.wlt"] toyState1 = (Ok "b.wlt", toyState1).
Proof.
  apply (proj1 (generateUniqueWalletFilename_first_free ["a.wlt"; "b.wlt"; "c.wlt"]
                  toyState1) ["a.wlt"] "b.wlt" ["c.wlt"] eq_refl).
  - constructor; [by eexists|constructor].
  - reflexivity.
Defined.

(** X8, at the first wallet of the service. *)
Lemma CreateWallet_publishes_witness :
  ∃ q σ', CreateWallet 5 [] "a.wlt" (toyOptions "seed1") toyBalances toyState0 = (Ok q, σ') ∧
          stored σ' "a.wlt" = Some toyWallet ∧
          firstAddrIDMap (serv σ') !! "skycoin:seed1/pub/" = Some "a.wlt".
Proof.
  assert ("a.wlt" ≠ "") as Hne by discriminate.
  assert (ioWorks (disk (world toyState0))) as Hio by (cbv; discriminate).
  destruct (CreateWallet_publishes 5 [] "a.wlt" "a.wlt" (toyOptions "seed1") toyBalances
              toyState0 toyWallet toyEntry eq_refl (or_introl (conj Hne eq_refl))
              eq_refl eq_refl eq_refl) as [_ H].
  destruct (H ∅ eq_refl Hio eq_refl) as (q & σ' & Hrun & _ & Hst & _ & _ & Hidx & _).
  exists q, σ'. split_and!; [exact Hrun|exact Hst|by rewrite Hidx].
Defined.


(** X10, at the service with one wallet. *)
Lemma Remove_forgets_witness :
  ∃ σ', Remove "a.wlt" toyState1 = (Ok tt, σ') ∧ stored σ' "a.wlt" = None ∧
        world σ' = world toyState1.
Proof.
  destruct (Remove_forgets "a.wlt" toyState1 0 toyWallet eq_refl eq_refl eq_refl)
    as (σ' & Hrun & Hw & Hst & _).
  by exists σ'.
Defined.


(** X12: the wallet gets the label "rent". *)
Lemma Update_publishes_witness :
  ∃ σ', UpdateWalletLabel "a.wlt" "rent" toyState1 = (Ok tt, σ') ∧
        stored σ' "a.wlt" = Some (setLabel toyWallet "rent").
Proof.
  assert (ioWorks (disk (world toyState1))) as Hio by (cbv; discriminate).
  destruct (Update_publishes "a.wlt" toyRename "rent" toyState1 0 toyWallet
              {["a.wlt" := WalletFile toyWallet]} eq_refl eq_refl eq_refl Hio eq_refl)
    as (_ & _ & σ' & Hrun & Hst & _).
  by exists σ'.
Defined.

(** X13: a password for the wallet that is not encrypted. *)
Lemma plaintext_wallet_refuses_password_witness :
  (NewAddresses "a.wlt" [Byte.x01] 1 toyState1).1 = Err ErrWalletNotEncrypted.
Proof.
  assert ([Byte.x01] ≠ []) as Hpw by discriminate.
  destruct (plaintext_wallet_refuses_password "a.wlt" [Byte.x01] 1 toyRename toyState1 0
              toyWallet eq_refl eq_refl eq_refl eq_refl Hpw) as [H _].
  by rewrite H.
Defined.

(** X14: one more address for the wallet that is not encrypted. *)
Lemma NewAddresses_plaintext_witness :
  ∃ σ', NewAddresses "a.wlt" [] 1 toyState1 = (Ok ["skycoin:seed1/pub/i"], σ') ∧
        (length ∘ Entries <$> stored σ' "a.wlt") = Some 2%nat.
Proof.
  assert (ioWorks (disk (world toyState1))) as Hio by (cbv; discriminate).
  destruct (NewAddresses_plaintext "a.wlt" 1 toyState1 0 toyWallet
              {["a.wlt" := WalletFile toyWallet]} eq_refl eq_refl eq_refl eq_refl Hio eq_refl)
    as [_ H].
  destruct (H _ _ eq_refl) as (σ' & Hrun & Hst & _).
  exists σ'. split; [exact Hrun|]. simpl in Hst. by rewrite Hst.
Defined.

(** X15: UpdateSecrets on the encrypted wallet, with its password. *)
Lemma encrypted_wallet_stays_encrypted_witness :
  ∃ l fs, IsEncrypted l = true ∧
          stored (UpdateSecrets "a.wlt" [Byte.x01] (λ w, (w, Ok tt)) toyState2).2 (Filename l)
            = Some l ∧
          files (UpdateSecrets "a.wlt" [Byte.x01] (λ w, (w, Ok tt)) toyState2).2 !! "wallets"
            = Some fs ∧
          fs !! Filename l = Some (WalletFile l).
Proof.
  destruct (encrypted_wallet_stays_encrypted "a.wlt" [Byte.x01] 0 (λ w, (w, Ok tt))
              toyState2 3 toyLocked eq_refl eq_refl eq_refl) as [_ H].
  apply H. reflexivity.
Defined.

(** X16, at the service after NewService, CreateWallet, EncryptWallet and a
    change of the label. *)
Lemma store_invariant_more_calls_witness :
  let σ := runCall (CallUpdateWalletLabel "a.wlt" "rent")
             (runCall (CallEncryptWallet "a.wlt" [Byte.x01])
                (runCall (CallOp (OpCreateWallet 5 [] "a.wlt" (toyOptions "seed1")
                                    toyBalances)) toyState0)) in
  distinctFirstAddresses σ ∧ indexed σ ∧ named σ.
Proof.
  apply store_invariant_more_calls.
  do 3 apply reachableBy_step.
  apply (reachableBy_new toyConfig (mkWorld [] (mkDisk ∅ []))).
  exact toyState0_new.
Defined.

(** X17: Update with a callback that renames the wallet. *)
Lemma Update_can_break_invariant_witness :
  ∃ σ', Update "a.wlt" toyRename toyState1 = (Ok tt, σ') ∧
        stored σ' "a.wlt" = Some toyWallet ∧
        stored σ' "b.wlt" = Some (setFilename toyWallet "b.wlt") ∧
        ¬ distinctFirstAddresses σ'.
Proof.
  assert ("b.wlt" ≠ "a.wlt") as Hne by discriminate.
  assert (ioWorks (disk (world toyState1))) as Hio by (cbv; discriminate).
  apply (Update_can_break_invariant "a.wlt" toyRename toyState1 0 toyWallet "b.wlt"
           "skycoin:seed1/pub/" {["a.wlt" := WalletFile toyWallet]}
           eq_refl eq_refl eq_refl eq_refl eq_refl Hne Hio eq_refl).
Defined.

(** X18, at the encrypted wallet: the callback sees the seed with the right
    password only. *)
Lemma callbacks_see_stored_wallet_witness :
  (ViewSecrets "a.wlt" [Byte.x01]
     (λ w, (w, if String.eqb (wltSeed w) "seed1" then Ok tt else Err ErrEmptyWallet))
     toyState2).1 = Ok tt ∧
  (ViewSecrets "a.wlt" [Byte.x02]
     (λ w, (w, if String.eqb (wltSeed w) "seed1" then Ok tt else Err ErrEmptyWallet))
     toyState2).1 = Err (ErrOther "invalid password").
Proof.
  split.
  - destruct (callbacks_see_stored_wallet "a.wlt" [Byte.x01]
                (λ w, (w, if String.eqb (wltSeed w) "seed1" then Ok tt
                          else Err ErrEmptyWallet))
                toyState2 3 toyLocked eq_refl eq_refl eq_refl) as (_ & _ & _ & H & _).
    eassert (unlockWallet toyLocked [Byte.x01] = Ok _) as Hu by reflexivity.
    rewrite (H _ eq_refl Hu). reflexivity.
  - reflexivity.
Defined.

(** X19: encryptWallet on a medium whose next I/O call, the save, fails. *)
Lemma encryptWallet_save_error_witness :
  (encryptWallet "a.wlt" [Byte.x01] "sha256-xor" toyCliFailing).1 =
    Ok (inl (WalletLoadError ErrPersistence)).
Proof.
  assert ([Byte.x01] ≠ []) as Hpw by discriminate.
  eassert (lockWallet toyWallet [Byte.x01] "sha256-xor" = Ok _) as Hl by reflexivity.
  destruct (proj2 (encryptWallet_save_error "a.wlt" [Byte.x01] "sha256-xor" toyCliFailing)
              0 (mkWorld [toyWallet] (mkDisk (dirs (disk (world toyState1))) [true]))
              toyWallet _ "wallets" eq_refl eq_refl Hpw Hl eq_refl eq_refl)
    as (st' & Hrun & _).
  by rewrite Hrun.
Defined.

(** X20: the command on a medium whose next I/O call, the save, fails. *)
Lemma encryptWalletCmd_hides_save_failure_witness :
  ∃ st', encryptWalletCmd_Action "sha256-xor" "x" toyCliFailing = (Ok None, st') ∧
         shown st' = [ShownHelp (WalletLoadError ErrPersistence)] ∧
         dirs (disk (cliWorld st')) = dirs (disk (world toyState1)).
Proof.
  assert (String.list_byte_of_string "x" ≠ []) as Hpw by discriminate.
  eassert (lockWallet toyWallet (String.list_byte_of_string "x") "sha256-xor" = Ok _)
    as Hl by reflexivity.
  apply (encryptWalletCmd_hides_save_failure "sha256-xor" "x" toyCliFailing "a.wlt"
           "sha256-xor" 0
           (mkWorld [toyWallet] (mkDisk (dirs (disk (world toyState1))) [true]))
           toyWallet _ "wallets" eq_refl eq_refl eq_refl eq_refl Hpw Hl eq_refl eq_refl).
Defined.

(** X21: the wallet file of [toyState2], which is encrypted. *)
Lemma encryptWallet_refuses_encrypted_witness :
  (encryptWallet "a.wlt" [] "sha256-xor"
     (mkCli (env := toyCliEnv) (mkWorld [] (disk (world toyState2))) [[Byte.x01]] [])).1 =
    Ok (inl (PlainError ErrWalletEncrypted)).
Proof.
  rewrite (proj1 (encryptWallet_refuses_encrypted "a.wlt" [] "sha256-xor"
                    (mkCli (env := toyCliEnv) (mkWorld [] (disk (world toyState2)))
                           [[Byte.x01]] []))
             0 (mkWorld [toyLocked] (disk (world toyState2))) toyLocked
             eq_refl eq_refl eq_refl).
  reflexivity.
Defined.

(** X22: the wallet file of [toyState1], with a password on the command
    line. *)
Lemma encryptWallet_locks_and_saves_witness :
  ∃ st' l, encryptWallet "a.wlt" [Byte.x01] "sha256-xor" toyCli = (Ok (inr 0), st') ∧
           heap (cliWorld st') !! 0 = Some l ∧ IsEncrypted l = true ∧
           dirs (disk (cliWorld st')) !! "wallets" = Some {["a.wlt" := WalletFile l]}.
Proof.
  assert (ioWorks (disk (world toyState1))) as Hio by (cbv; discriminate).
  eassert (lockWallet toyWallet [Byte.x01] "sha256-xor" = Ok _) as Hl by reflexivity.
  destruct (encryptWallet_locks_and_saves "a.wlt" [Byte.x01] "sha256-xor" toyCli 0
              (mkWorld [toyWallet] (disk (world toyState1))) toyWallet
              eq_refl eq_refl eq_refl) as [_ H].
  destruct (H [Byte.x01] _ "wallets" {["a.wlt" := WalletFile toyWallet]}
              eq_refl Hl eq_refl Hio eq_refl) as (st' & Hrun & Hh & He & _ & Hd & _).
  eexists st', _. split_and!; [exact Hrun|exact Hh|exact He|].
  rewrite Hd. reflexivity.
Defined.

(** X23: the command on the wallet file of [toyState1]. *)
Lemma encryptWalletCmd_Action_reports_witness :
  ∃ st', encryptWalletCmd_Action "sha256-xor" "x" toyCli = (Ok None, st') ∧
         ∃ y, shown st' = [y] ∧ ∀ w, y = ShownWallet w → IsEncrypted w = true.
Proof.
  eassert (encryptWalletCmd_Action "sha256-xor" "x" toyCli = (Ok None, _)) as Hrun
    by reflexivity.
  eexists. split; [exact Hrun|].
  destruct (encryptWalletCmd_Action_reports _ _ _ _ _ Hrun) as [[_ H]|(e & [=] & _)].
  exact H.
Defined.
